(** * CPP_RELATIONS: the dependency analyzer

    A shallow embedding of [backend/parser/dependency_analyzer.py] (with the
    data classes of [backend/parser/ast_extractor.py] it works on) and the
    properties of its graph construction and graph analysis.

    Python objects are modelled as follows.
    - [str] is [string]; [int] is [Z]; [Optional[T]] is [option T].
    - A data class is a record; the mutable analyzer state [self.graph] is
      passed explicitly from one operation to the next.
    - [graph.files] is a [dict] that is iterated, so its insertion order is
      kept: an association list with the update-in-place of Python's
      [d[k] = v].  [file_index] and [symbol_index] are only looked up by key
      and are finite maps.
    - [FileSymbols.function_calls] is a [set] that is only iterated: the
      list of its elements in iteration order. *)

From Stdlib Require Import ZArith String Ascii List.
From stdpp Require Import base decidable option list strings gmap sorting.

Local Open Scope Z_scope.

(** ** Strings *)

Module Str.

(** [s.endswith(suffix)] *)
Fixpoint endswith (s suffix : string) : bool :=
  if String.eqb s suffix then true
  else match s with
       | EmptyString => false
       | String _ s' => endswith s' suffix
       end.

(** [s.endswith((x1, ..., xn))]: a tuple of suffixes *)
Definition endswith_any (s : string) (suffixes : list string) : bool :=
  existsb (endswith s) suffixes.

(** [sub in s] *)
Fixpoint contains (sub s : string) : bool :=
  if String.prefix sub s then true
  else match s with
       | EmptyString => false
       | String _ s' => contains sub s'
       end.

(** [sep.join(l)] *)
Fixpoint join (sep : string) (l : list string) : string :=
  match l with
  | [] => ""
  | [x] => x
  | x :: l' => x +:+ sep +:+ join sep l'
  end.

(** [s.split("/")], with the current component accumulated in reverse *)
Fixpoint split_slash (cur : string) (s : string) : list string :=
  match s with
  | EmptyString => [String.rev cur]
  | String c s' =>
      if Ascii.eqb c "/"%char then String.rev cur :: split_slash "" s'
      else split_slash (String c cur) s'
  end.

(** [bool(s)]: the empty string is falsy *)
Definition truthy (s : string) : bool := negb (String.eqb s "").

End Str.

(** ** [pathlib]

  The analyzer uses three things of [pathlib.Path]: [Path(p).name],
  [str(Path(p).parent / q)] and [Path(p).parts].  Which flavour of path
  they belong to depends on the platform, so the analyzer is written over
  an interface; the POSIX flavour is given below. *)

Class PathFlavour := {
(** [Path(p).name] *)
path_name : string → string;
(** [str(Path(p).parent / q)] *)
path_parent_join : string → string → string;
(** [Path(p).parts] *)
path_parts : string → list string
}.

Module PosixPath.

(** A parsed path: the root ([""], ["/"] or ["//"]) and the components
    after it; empty components and ["."] are dropped by the parser. *)
Record t := { root : string; tail : list string }.

Definition parse_root (p : string) : string :=
  if String.prefix "///" p then "/"
  else if String.prefix "//" p then "//"
  else if String.prefix "/" p then "/"
  else "".

Definition keep_component (c : string) : bool :=
  negb (String.eqb c "") && negb (String.eqb c ".").

Definition parse (p : string) : t :=
  {| root := parse_root p;
     tail := List.filter keep_component (Str.split_slash "" p) |}.

Definition name (p : t) : string := List.last (tail p) "".

Definition parent (p : t) : t :=
  {| root := root p; tail := List.removelast (tail p) |}.

Definition joinpath (p q : t) : t :=
  if Str.truthy (root q) then q
  else {| root := root p; tail := tail p ++ tail q |}.

Definition to_string (p : t) : string :=
  match root p, tail p with
  | EmptyString, [] => "."
  | r, l => r +:+ Str.join "/" l
  end.

Definition parts (p : t) : list string :=
  if Str.truthy (root p) then root p :: tail p else tail p.

#[global] Instance flavour : PathFlavour := {|
  path_name p := name (parse p);
  path_parent_join p q := to_string (joinpath (parent (parse p)) (parse q));
  path_parts p := parts (parse p)
|}.

End PosixPath.

(** ** The data classes of [ast_extractor.py] *)

Module SymbolInfo.
Record t := {
  name : string;
  type : string;
  line : Z;
  end_line : Z;
  scope : option string;
  params : list string;
  return_type : option string;
  is_template : bool;
  is_virtual : bool;
  is_static : bool
}.
#[global] Instance eq_dec : EqDecision t.
Proof. solve_decision. Defined.
End SymbolInfo.

Module IncludeInfo.
Record t := {
  path : string;
  line : Z;
  is_system : bool
}.
#[global] Instance eq_dec : EqDecision t.
Proof. solve_decision. Defined.
End IncludeInfo.

Record FileSymbols := {
file_path : string;
functions : list SymbolInfo.t;
classes : list SymbolInfo.t;
structs : list SymbolInfo.t;
namespaces : list SymbolInfo.t;
includes : list IncludeInfo.t;
function_calls : list string
}.

#[global] Instance FileSymbols_eq_dec : EqDecision FileSymbols.
Proof. solve_decision. Defined.

(** ** Insertion-ordered dictionaries *)

Module Dict.

Section dict.
Context {V : Type}.

(** [d.keys()] *)
Definition keys (d : list (string * V)) : list string := d.*1.

(** [k in d] *)
Definition contains (k : string) (d : list (string * V)) : bool :=
  bool_decide (k ∈ keys d).

(** [d.get(k)] *)
Fixpoint get (k : string) (d : list (string * V)) : option V :=
  match d with
  | [] => None
  | (k', v) :: d' => if decide (k = k') then Some v else get k d'
  end.

(** [d[k] = v]: an existing key keeps its position, a new key goes last *)
Fixpoint set (k : string) (v : V) (d : list (string * V)) : list (string * V) :=
  match d with
  | [] => [(k, v)]
  | (k', v') :: d' =>
      if decide (k = k') then (k, v) :: d' else (k', v') :: set k v d'
  end.

End dict.

End Dict.

(** ** The data classes of [dependency_analyzer.py] *)

Module FileDependency.
Record t := {
  source : string;
  target : string;
  reason : string;
  line : option Z
}.
#[global] Instance eq_dec : EqDecision t.
Proof. solve_decision. Defined.
End FileDependency.

Record DependencyGraph := {
files : list (string * FileSymbols);
dependencies : list FileDependency.t;
file_index : gmap string string;
symbol_index : gmap string (list (string * SymbolInfo.t))
}.

(** [DependencyGraph()] *)
Definition empty_graph : DependencyGraph :=
{| files := []; dependencies := []; file_index := ∅; symbol_index := ∅ |}.

Definition set_dependencies (deps : list FileDependency.t) (g : DependencyGraph)
: DependencyGraph :=
{| files := files g; dependencies := deps;
   file_index := file_index g; symbol_index := symbol_index g |}.

(** [self.graph.dependencies.append(dep)] *)
Definition append_dependency (dep : FileDependency.t) (g : DependencyGraph)
: DependencyGraph :=
set_dependencies (dependencies g ++ [dep]) g.

(** ** [DependencyAnalyzer] *)

Section analyzer.
Context `{PathFlavour}.

(** The body of the inner loop of [add_file]:
    [if symbol.name not in symbol_index: symbol_index[symbol.name] = []]
    then [symbol_index[symbol.name].append((file_path, symbol))]. *)
Definition index_symbol (file_path : string)
    (idx : gmap string (list (string * SymbolInfo.t))) (symbol : SymbolInfo.t)
  : gmap string (list (string * SymbolInfo.t)) :=
  let idx' :=
    match idx !! SymbolInfo.name symbol with
    | None => <[SymbolInfo.name symbol := []]> idx
    | Some _ => idx
    end in
  <[SymbolInfo.name symbol :=
      default [] (idx' !! SymbolInfo.name symbol) ++ [(file_path, symbol)]]> idx'.

Definition add_file (file_path : string) (symbols : FileSymbols)
    (g : DependencyGraph) : DependencyGraph :=
  let file_name := path_name file_path in
  {| files := Dict.set file_path symbols (files g);
     dependencies := dependencies g;
     file_index := <[file_name := file_path]> (file_index g);
     symbol_index :=
       foldl (λ idx symbol_list, foldl (index_symbol file_path) idx symbol_list)
         (symbol_index g)
         [functions symbols; classes symbols; structs symbols] |}.

(** [next(x for x in xs if p(x))], the first element that passes, as the
    [for ... if ...: return] loops of [_resolve_include] find it *)
Definition first_where (p : string → bool) (xs : list string) : option string :=
  List.find p xs.

Definition _resolve_include (g : DependencyGraph) (include_path source_file : string)
  : option string :=
  (* Strategy 1: exact match *)
  if Dict.contains include_path (files g) then Some include_path
  else
    (* Strategy 2: filename match *)
    let include_filename := path_name include_path in
    match file_index g !! include_filename with
    | Some file_path => Some file_path
    | None =>
        (* Strategy 3: suffix match *)
        match first_where (λ file_path, Str.endswith file_path include_path)
                (Dict.keys (files g)) with
        | Some file_path => Some file_path
        | None =>
            (* Strategy 4: relative to the source file's directory *)
            let potential_path := path_parent_join source_file include_path in
            if Dict.contains potential_path (files g) then Some potential_path
            else
              (* Strategy 5: search in all directories *)
              first_where
                (λ file_path, bool_decide (path_name file_path = include_filename))
                (Dict.keys (files g))
        end
    end.

Definition _analyze_includes (source_file : string) (symbols : FileSymbols)
    (g : DependencyGraph) : DependencyGraph :=
  foldl
    (λ g include,
       match _resolve_include g (IncludeInfo.path include) source_file with
       | Some target_file =>
           if Str.truthy target_file then
             append_dependency
               {| FileDependency.source := source_file;
                  FileDependency.target := target_file;
                  FileDependency.reason := "include";
                  FileDependency.line := Some (IncludeInfo.line include) |} g
           else g
       | None => g
       end)
    g (includes symbols).

Definition _has_dependency (g : DependencyGraph) (source target : string) : bool :=
  existsb
    (λ dep, bool_decide (FileDependency.source dep = source)
            && bool_decide (FileDependency.target dep = target))
    (dependencies g).

(** The body of the loop over [symbol_index[called_func]] *)
Definition call_step (source_file : string) (g : DependencyGraph)
    (entry : string * SymbolInfo.t) : DependencyGraph :=
  let target_file := entry.1 in
  if bool_decide (target_file = source_file) then g
  else if negb (_has_dependency g source_file target_file) then
    append_dependency
      {| FileDependency.source := source_file;
         FileDependency.target := target_file;
         FileDependency.reason := "call";
         FileDependency.line := None |} g
  else g.

Definition _analyze_function_calls (source_file : string) (symbols : FileSymbols)
    (g : DependencyGraph) : DependencyGraph :=
  foldl
    (λ g called_func,
       match symbol_index g !! called_func with
       | Some entries => foldl (call_step source_file) g entries
       | None => g
       end)
    g (function_calls symbols).

(** The body of the loop of [analyze_dependencies] *)
Definition analyze_file (g : DependencyGraph) (item : string * FileSymbols)
  : DependencyGraph :=
  _analyze_function_calls item.1 item.2 (_analyze_includes item.1 item.2 g).

Definition analyze_dependencies (g : DependencyGraph) : DependencyGraph :=
  foldl analyze_file (set_dependencies [] g) (files g).

End analyzer.

(** ** Graph analysis *)

(** A value of the dictionary that [get_file_metrics] returns *)
Inductive PyVal :=
| PyStr (s : string)
| PyInt (z : Z).

#[global] Instance PyVal_eq_dec : EqDecision PyVal.
Proof. solve_decision. Defined.

(** [len(l)] *)
Definition len {A} (l : list A) : Z := Z.of_nat (length l).

(** [l[:stop]]: a negative [stop] counts from the end *)
Definition slice_to {A} (l : list A) (stop : Z) : list A :=
  if stop <? 0 then take (Z.to_nat (len l + stop)) l
  else take (Z.to_nat stop) l.

(** [sorted(l, key=key, reverse=True)].  Python's sort is stable, also in
    reverse: elements with equal keys keep their order.  [insert_desc] puts
    an element in front of a list of the elements that followed it. *)
Fixpoint insert_desc {A} (key : A → Z) (x : A) (l : list A) : list A :=
  match l with
  | [] => [x]
  | y :: l' => if key x <? key y then y :: insert_desc key x l' else x :: l
  end.

Definition sorted_reverse {A} (key : A → Z) (l : list A) : list A :=
  foldr (insert_desc key) [] l.

Definition get_dependencies_of (g : DependencyGraph) (file_path : string)
  : list string :=
  FileDependency.target <$>
    List.filter (λ dep, bool_decide (FileDependency.source dep = file_path))
      (dependencies g).

Definition get_dependents_of (g : DependencyGraph) (file_path : string)
  : list string :=
  FileDependency.source <$>
    List.filter (λ dep, bool_decide (FileDependency.target dep = file_path))
      (dependencies g).

Definition get_file_metrics (g : DependencyGraph) (file_path : string)
  : list (string * PyVal) :=
  match Dict.get file_path (files g) with
  | None => []
  | Some symbols =>
      let dependencies := get_dependencies_of g file_path in
      let dependents := get_dependents_of g file_path in
      [ ("file", PyStr file_path);
        ("functions_count", PyInt (len (functions symbols)));
        ("classes_count", PyInt (len (classes symbols)));
        ("structs_count", PyInt (len (structs symbols)));
        ("includes_count", PyInt (len (includes symbols)));
        ("dependencies_count", PyInt (len dependencies));
        ("dependents_count", PyInt (len dependents));
        ("coupling", PyInt (len dependencies + len dependents)) ]
  end.

(** The [coupling] dictionary of [get_most_coupled_files] *)
Definition coupling_of (g : DependencyGraph) : list (string * Z) :=
  foldl
    (λ coupling file_path,
       let deps := len (get_dependencies_of g file_path) in
       let dependents := len (get_dependents_of g file_path) in
       Dict.set file_path (deps + dependents) coupling)
    [] (Dict.keys (files g)).

Definition get_most_coupled_files (g : DependencyGraph) (limit : Z)
  : list (string * Z) :=
  let sorted_files := sorted_reverse snd (coupling_of g) in
  slice_to sorted_files limit.

(** *** [networkx.DiGraph] *)

Module DiGraph.

(** Nodes in the order they were added; each edge once. *)
Record t := { nodes : list string; edges : list (string * string) }.

Definition empty : t := {| nodes := []; edges := [] |}.

Definition add_node (n : string) (G : t) : t :=
  if bool_decide (n ∈ nodes G) then G
  else {| nodes := nodes G ++ [n]; edges := edges G |}.

(** [G.add_edge(u, v)]: adds the nodes when new; a parallel edge is not added
    a second time *)
Definition add_edge (u v : string) (G : t) : t :=
  let G' := add_node v (add_node u G) in
  if bool_decide ((u, v) ∈ edges G') then G'
  else {| nodes := nodes G'; edges := edges G' ++ [(u, v)] |}.

Definition has_edge (G : t) (u v : string) : bool :=
  bool_decide ((u, v) ∈ edges G).

(** [G.successors(u)] *)
Definition successors (G : t) (u : string) : list string :=
  (List.filter (λ e, bool_decide (e.1 = u)) (edges G)).*2.

End DiGraph.

(** The enumeration behind [simple_cycles] below: the simple paths from
    [start] that continue [path] (which ends in [cur]) through nodes of
    [allowed] and close with an edge back to [start].  A path has at most as
    many nodes as [allowed] has, plus one, which bounds [fuel]. *)
Fixpoint cycles_from (G : DiGraph.t) (fuel : nat) (start : string)
    (allowed : list string) (path : list string) (cur : string)
  : list (list string) :=
  match fuel with
  | O => []
  | S fuel' =>
      (if DiGraph.has_edge G cur start then [path] else []) ++
      flat_map
        (λ n, if bool_decide (n ∈ allowed) && negb (bool_decide (n ∈ path))
              then cycles_from G fuel' start allowed (path ++ [n]) n
              else [])
        (DiGraph.successors G cur)
  end.

(** The cycles rooted at each node of [order] in turn, through later nodes *)
Fixpoint cycles_rooted (G : DiGraph.t) (order : list string)
  : list (list string) :=
  match order with
  | [] => []
  | s :: rest =>
      cycles_from G (S (length rest)) s rest [s] s ++ cycles_rooted G rest
  end.

(** Modelled from the spec: [networkx.simple_cycles], which
    [find_circular_dependencies] calls, is a library function that is not
    part of the sources.  The spec has it "enumerate all simple directed
    cycles" of the graph, "every simple cycle (no repeated node except
    start=end)": each cycle is listed once, as the list of its nodes,
    starting at the node of the cycle that was added to the graph first.
    [None] stands for an exception raised by the library. *)
Definition simple_cycles (G : DiGraph.t) : option (list (list string)) :=
  Some (cycles_rooted G (DiGraph.nodes G)).

(** The graph [G] that [find_circular_dependencies] builds *)
Definition build_digraph (g : DependencyGraph) : DiGraph.t :=
  foldl
    (λ G dep,
       DiGraph.add_edge (FileDependency.source dep) (FileDependency.target dep) G)
    DiGraph.empty (dependencies g).

Definition find_circular_dependencies (g : DependencyGraph)
  : list (list string) :=
  let G := build_digraph g in
  match simple_cycles G with
  | Some cycles => cycles
  | None => []
  end.

(** ** Export *)

(** The [file_type] of a node in [export_to_dict] *)
Definition file_type (file_path : string) : string :=
  if Str.endswith_any file_path [".h"; ".hpp"; ".hh"] then "header"
  else if Str.endswith_any file_path [".cpp"; ".cc"; ".cxx"; ".c"] then "source"
  else if Str.contains "CMakeLists" file_path || Str.endswith file_path ".cmake"
  then "cmake"
  else if Str.endswith file_path ".json" then "json"
  else "other".

Module ExportedSymbol.
Record t := { name : string; line : Z; type : string }.
End ExportedSymbol.

Module Node.
Record t := {
  id : string;
  name : string;
  type : string;
  group : string;
  exportedSymbols : list ExportedSymbol.t;
  metrics : list (string * PyVal)
}.
End Node.

Module Link.
Record t := { source : string; target : string; reason : string }.
End Link.

Module Metadata.
Record t := {
  total_files : Z;
  total_dependencies : Z;
  circular_dependencies : Z
}.
End Metadata.

Module ExportDoc.
Record t := {
  nodes : list Node.t;
  links : list Link.t;
  metadata : Metadata.t
}.
End ExportDoc.

Section exporter.
Context `{PathFlavour}.

(** [parts[-2] if len(parts) > 1 else 'root'] *)
Definition group_of (file_path : string) : string :=
  match reverse (path_parts file_path) with
  | _ :: parent :: _ => parent
  | _ => "root"
  end.

Definition export_symbols (symbols : FileSymbols) : list ExportedSymbol.t :=
  ((λ func,
      {| ExportedSymbol.name := SymbolInfo.name func +:+ "()";
         ExportedSymbol.line := SymbolInfo.line func;
         ExportedSymbol.type := "function" |})
     <$> take 5 (functions symbols))
  ++
  ((λ cls,
      {| ExportedSymbol.name := "class " +:+ SymbolInfo.name cls;
         ExportedSymbol.line := SymbolInfo.line cls;
         ExportedSymbol.type := "class" |})
     <$> take 5 (classes symbols)).

Definition export_node (g : DependencyGraph) (item : string * FileSymbols)
  : Node.t :=
  let file_path := item.1 in
  {| Node.id := file_path;
     Node.name := path_name file_path;
     Node.type := file_type file_path;
     Node.group := group_of file_path;
     Node.exportedSymbols := export_symbols item.2;
     Node.metrics := get_file_metrics g file_path |}.

Definition export_link (dep : FileDependency.t) : Link.t :=
  {| Link.source := FileDependency.source dep;
     Link.target := FileDependency.target dep;
     Link.reason := FileDependency.reason dep |}.

Definition export_to_dict (g : DependencyGraph) : ExportDoc.t :=
  let nodes := export_node g <$> files g in
  let links := export_link <$> dependencies g in
  {| ExportDoc.nodes := nodes;
     ExportDoc.links := links;
     ExportDoc.metadata :=
       {| Metadata.total_files := len nodes;
          Metadata.total_dependencies := len links;
          Metadata.circular_dependencies := len (find_circular_dependencies g) |} |}.

End exporter.

(** ** Notions the properties are stated with *)

(** The list a name is indexed to ([[]] for a name that is no key) *)
Definition symbol_entries (g : DependencyGraph) (symbol_name : string)
  : list (string * SymbolInfo.t) :=
  default [] (symbol_index g !! symbol_name).

(** The symbols of a file that [add_file] indexes, in the order it does *)
Definition indexed_symbols (symbols : FileSymbols) : list SymbolInfo.t :=
  functions symbols ++ classes symbols ++ structs symbols.

(** The entries [add_file] appends under [symbol_name] for a file *)
Definition entries_for (file_path : string) (symbols : FileSymbols)
    (symbol_name : string) : list (string * SymbolInfo.t) :=
  (λ symbol, (file_path, symbol)) <$>
    List.filter (λ symbol, bool_decide (SymbolInfo.name symbol = symbol_name))
      (indexed_symbols symbols).

(** No ghost entry: every indexed (file, symbol) is a symbol of the file's
    current [FileSymbols]. *)
Definition no_ghost_entries (g : DependencyGraph) : Prop :=
  ∀ symbol_name file_path symbol,
    (file_path, symbol) ∈ symbol_entries g symbol_name →
    ∃ symbols, Dict.get file_path (files g) = Some symbols
               ∧ symbol ∈ indexed_symbols symbols.

(** No duplicate entry: a file's entries under a name are as many as the
    file's current symbols of that name. *)
Definition no_duplicate_entries (g : DependencyGraph) : Prop :=
  ∀ symbol_name file_path symbols,
    Dict.get file_path (files g) = Some symbols →
    List.filter (λ e, bool_decide (e.1 = file_path)) (symbol_entries g symbol_name)
    = entries_for file_path symbols symbol_name.

(** The states of an analyzer that its methods reach from
    [DependencyAnalyzer()] *)
Inductive reachable `{PathFlavour} : DependencyGraph → Prop :=
| reachable_init : reachable empty_graph
| reachable_add_file g file_path symbols :
    reachable g → reachable (add_file file_path symbols g)
| reachable_analyze g :
    reachable g → reachable (analyze_dependencies g).

(** What the indexes point to are keys of [files], and [files] has each key
    once. *)
Record indexes_closed (g : DependencyGraph) : Prop := {
  closed_keys : NoDup (Dict.keys (files g));
  closed_file_index :
    ∀ file_name file_path,
      file_index g !! file_name = Some file_path →
      file_path ∈ Dict.keys (files g);
  closed_symbol_index :
    ∀ symbol_name file_path symbol,
      (file_path, symbol) ∈ symbol_entries g symbol_name →
      file_path ∈ Dict.keys (files g)
}.

(** The state of a pass over [g0]: the graph it started on, with the edges
    so far, which satisfy [P]. *)
Definition in_pass (g0 : DependencyGraph) (P : list FileDependency.t → Prop)
    (g : DependencyGraph) : Prop :=
  ∃ deps, g = set_dependencies deps g0 ∧ P deps.

(** Two edges connect the same ordered pair of files *)
Definition same_pair (d e : FileDependency.t) : Prop :=
  FileDependency.source e = FileDependency.source d
  ∧ FileDependency.target e = FileDependency.target d.

(** Every Call edge of the list joins two different files that no earlier
    edge of the list joins. *)
Definition calls_guarded (deps : list FileDependency.t) : Prop :=
  ∀ before d after,
    deps = before ++ d :: after →
    FileDependency.reason d = "call" →
    FileDependency.source d ≠ FileDependency.target d
    ∧ ∀ e, e ∈ before → ¬ same_pair d e.

(** Where an edge of the analysis of [g] comes from: an include of its
    source file that resolves to its target, or a called name of its source
    file that is indexed to its target. *)
Definition edge_origin `{PathFlavour} (g : DependencyGraph)
    (d : FileDependency.t) : Prop :=
  ∃ symbols,
    (FileDependency.source d, symbols) ∈ files g
    ∧ ((FileDependency.reason d = "include"
        ∧ ∃ include, include ∈ includes symbols
            ∧ _resolve_include g (IncludeInfo.path include)
                (FileDependency.source d) = Some (FileDependency.target d)
            ∧ FileDependency.line d = Some (IncludeInfo.line include))
       ∨ (FileDependency.reason d = "call"
          ∧ ∃ called_func symbol, called_func ∈ function_calls symbols
              ∧ (FileDependency.target d, symbol)
                  ∈ symbol_entries g called_func)).

(** The coupling of a file: its outgoing plus its incoming edges *)
Definition coupling (g : DependencyGraph) (file_path : string) : Z :=
  len (get_dependencies_of g file_path) + len (get_dependents_of g file_path).

(** *** Cycles *)

(** There is an edge of either reason from [u] to [v]. *)
Definition depends (g : DependencyGraph) (u v : string) : Prop :=
  ∃ d, d ∈ dependencies g
       ∧ FileDependency.source d = u ∧ FileDependency.target d = v.

(** Each node of the list has an edge to the next one. *)
Fixpoint chain (edge : string → string → Prop) (l : list string) : Prop :=
  match l with
  | u :: (v :: _) as l' => edge u v ∧ chain edge l'
  | _ => True
  end.

(** A simple cycle, as the list of its nodes from some start: no node
    twice, an edge from each to the next and from the last to the first. *)
Definition simple_cycle (edge : string → string → Prop) (c : list string) : Prop :=
  match c with
  | [] => False
  | start :: _ => NoDup c ∧ chain edge (c ++ [start])
  end.

(** [c'] is [c] started at another of its nodes. *)
Definition rotation (c c' : list string) : Prop :=
  ∃ l1 l2, c = l1 ++ l2 ∧ c' = l2 ++ l1.

(** The edge relation of a [DiGraph] *)
Definition digraph_edge (G : DiGraph.t) (u v : string) : Prop :=
  (u, v) ∈ DiGraph.edges G.

(** What [add_edge] maintains: each node and each edge once, and the ends
    of every edge among the nodes. *)
Record digraph_wf (G : DiGraph.t) : Prop := {
  wf_nodes : NoDup (DiGraph.nodes G);
  wf_edges : NoDup (DiGraph.edges G);
  wf_closed :
    ∀ u v, (u, v) ∈ DiGraph.edges G →
           u ∈ DiGraph.nodes G ∧ v ∈ DiGraph.nodes G
}.

(** *** The resolver and the classifier as the specification words them *)

Module ResolverSpec.
Section strategies.
Context `{PathFlavour}.

(** 1. Exact match: the include path itself is a known file key. *)
Definition exact_match (g : DependencyGraph) (include_path source_file : string)
  : option string :=
  if bool_decide (include_path ∈ Dict.keys (files g)) then Some include_path
  else None.

(** 2. Basename match: [fileIndex[basename(includePath)]]. *)
Definition basename_match (g : DependencyGraph) (include_path source_file : string)
  : option string :=
  file_index g !! path_name include_path.

(** 3. Suffix match: the first known file path that ends with the include
    path. *)
Definition suffix_match (g : DependencyGraph) (include_path source_file : string)
  : option string :=
  List.find (λ file_path, Str.endswith file_path include_path)
    (Dict.keys (files g)).

(** 4. The path relative to the source file's directory. *)
Definition relative_match (g : DependencyGraph) (include_path source_file : string)
  : option string :=
  let candidate := path_parent_join source_file include_path in
  if bool_decide (candidate ∈ Dict.keys (files g)) then Some candidate else None.

(** 5. Fallback: full basename re-scan. *)
Definition rescan_match (g : DependencyGraph) (include_path source_file : string)
  : option string :=
  List.find (λ file_path, bool_decide (path_name file_path = path_name include_path))
    (Dict.keys (files g)).

Definition strategies
  : list (DependencyGraph → string → string → option string) :=
  [exact_match; basename_match; suffix_match; relative_match; rescan_match].

(** First match wins, the rest is not tried. *)
Fixpoint first_match (l : list (DependencyGraph → string → string → option string))
    (g : DependencyGraph) (include_path source_file : string) : option string :=
  match l with
  | [] => None
  | strategy :: l' =>
      match strategy g include_path source_file with
      | Some file_path => Some file_path
      | None => first_match l' g include_path source_file
      end
  end.

End strategies.
End ResolverSpec.

Module ClassifierSpec.
Section classifier.
Context `{PathFlavour}.

(** "suffixes .h/.hpp/.hh give header; .cpp/.cc/.cxx/.c give source; name
    containing CMakeLists or suffix .cmake gives buildScript; .json gives
    jsonData; else other", the name of a node being its basename. *)
Definition node_type (file_path : string) : string :=
  if Str.endswith_any file_path [".h"; ".hpp"; ".hh"] then "header"
  else if Str.endswith_any file_path [".cpp"; ".cc"; ".cxx"; ".c"] then "source"
  else if Str.contains "CMakeLists" (path_name file_path)
          || Str.endswith file_path ".cmake" then "buildScript"
  else if Str.endswith file_path ".json" then "jsonData"
  else "other".

End classifier.
End ClassifierSpec.

(** [suffix] is a suffix of [s]. *)
Definition is_suffix (suffix s : string) : Prop := ∃ pre, s = pre +:+ suffix.

(** [sub] occurs in [s]. *)
Definition occurs_in (sub s : string) : Prop :=
  ∃ pre post, s = pre +:+ sub +:+ post.

Definition header_suffix (p : string) : Prop :=
  is_suffix ".h" p ∨ is_suffix ".hpp" p ∨ is_suffix ".hh" p.

Definition source_suffix (p : string) : Prop :=
  is_suffix ".cpp" p ∨ is_suffix ".cc" p ∨ is_suffix ".cxx" p ∨ is_suffix ".c" p.

Definition cmake_pattern (p : string) : Prop :=
  occurs_in "CMakeLists" p ∨ is_suffix ".cmake" p.

(** *** Example files *)

Definition no_symbols (file_path : string) : FileSymbols :=
  {| file_path := file_path; functions := []; classes := []; structs := [];
     namespaces := []; includes := []; function_calls := [] |}.

Definition function_symbol (name : string) (line : Z) : SymbolInfo.t :=
  {| SymbolInfo.name := name; SymbolInfo.type := "function";
     SymbolInfo.line := line; SymbolInfo.end_line := line;
     SymbolInfo.scope := None; SymbolInfo.params := [];
     SymbolInfo.return_type := None; SymbolInfo.is_template := false;
     SymbolInfo.is_virtual := false; SymbolInfo.is_static := false |}.

Definition with_function (name : string) (line : Z) (symbols : FileSymbols)
  : FileSymbols :=
  {| file_path := file_path symbols;
     functions := functions symbols ++ [function_symbol name line];
     classes := classes symbols; structs := structs symbols;
     namespaces := namespaces symbols; includes := includes symbols;
     function_calls := function_calls symbols |}.

(** A small project: [src/main.cpp] includes [util.h] and [<vector>] and
    calls [helper], [log_msg] and [printf]; [src/util.h] defines [helper];
    [src/log.cpp] defines [log_msg]. *)
Definition example_main : FileSymbols :=
  {| file_path := "src/main.cpp";
     functions := [function_symbol "main" 4];
     classes := []; structs := []; namespaces := [];
     includes :=
       [ {| IncludeInfo.path := "util.h"; IncludeInfo.line := 1;
            IncludeInfo.is_system := false |};
         {| IncludeInfo.path := "vector"; IncludeInfo.line := 2;
            IncludeInfo.is_system := true |} ];
     function_calls := ["helper"; "log_msg"; "printf"] |}.

Definition example_util : FileSymbols :=
  with_function "helper" 3 (no_symbols "src/util.h").

Definition example_log : FileSymbols :=
  with_function "log_msg" 7 (no_symbols "src/log.cpp").

Definition example_graph : DependencyGraph :=
  add_file "src/log.cpp" example_log
    (add_file "src/util.h" example_util
       (add_file "src/main.cpp" example_main empty_graph)).

(** Two headers with one basename *)
Definition collision_graph : DependencyGraph :=
  add_file "b/Utils.h" (no_symbols "b/Utils.h")
    (add_file "a/Utils.h" (no_symbols "a/Utils.h") empty_graph).

(** A star: [hub.cpp] includes four headers, which were added before it. *)
Definition example_hub : FileSymbols :=
  {| file_path := "hub.cpp";
     functions := []; classes := []; structs := []; namespaces := [];
     includes :=
       [ {| IncludeInfo.path := "l1.h"; IncludeInfo.line := 1;
            IncludeInfo.is_system := false |};
         {| IncludeInfo.path := "l2.h"; IncludeInfo.line := 2;
            IncludeInfo.is_system := false |};
         {| IncludeInfo.path := "l3.h"; IncludeInfo.line := 3;
            IncludeInfo.is_system := false |};
         {| IncludeInfo.path := "l4.h"; IncludeInfo.line := 4;
            IncludeInfo.is_system := false |} ];
     function_calls := [] |}.

Definition star_graph : DependencyGraph :=
  analyze_dependencies
    (add_file "hub.cpp" example_hub
       (add_file "l4.h" (no_symbols "l4.h")
          (add_file "l3.h" (no_symbols "l3.h")
             (add_file "l2.h" (no_symbols "l2.h")
                (add_file "l1.h" (no_symbols "l1.h") empty_graph))))).

(** Three headers that include one another in a circle; [a.h] includes
    [b.h] twice. *)
Definition including (file_path : string) (paths : list string) : FileSymbols :=
  {| file_path := file_path;
     functions := []; classes := []; structs := []; namespaces := [];
     includes :=
       imap (λ i path,
               {| IncludeInfo.path := path;
                  IncludeInfo.line := Z.of_nat (S i);
                  IncludeInfo.is_system := false |}) paths;
     function_calls := [] |}.

Definition triangle_graph : DependencyGraph :=
  analyze_dependencies
    (add_file "c.h" (including "c.h" ["a.h"])
       (add_file "b.h" (including "b.h" ["c.h"])
          (add_file "a.h" (including "a.h" ["b.h"; "b.h"]) empty_graph))).

(** ** Further notions *)

(** The loop of [test_project] that parses the files of a project and adds
    them to the analyzer, each under its path: a file whose extraction
    raises ([None]) is reported and left out. *)
Definition add_parsed_files `{PathFlavour}
    (parsed : list (string * option FileSymbols)) (g : DependencyGraph)
  : DependencyGraph :=
  foldl
    (λ g item,
       match item.2 with
       | Some symbols => add_file item.1 symbols g
       | None => g
       end)
    g parsed.

(** The files of a project that were parsed, with their symbols *)
Definition parsed_ok (parsed : list (string * option FileSymbols))
  : list (string * FileSymbols) :=
  omap (λ item, (λ symbols, (item.1, symbols)) <$> item.2) parsed.

(** [file_index] is the basename table of [files]: every key is indexed
    under its basename, and what a basename is indexed to is a key with that
    basename. *)
Record file_index_exact `{PathFlavour} (g : DependencyGraph) : Prop := {
  index_covers :
    ∀ file_path, file_path ∈ Dict.keys (files g) →
                 is_Some (file_index g !! path_name file_path);
  index_sound :
    ∀ file_name file_path,
      file_index g !! file_name = Some file_path →
      file_path ∈ Dict.keys (files g) ∧ path_name file_path = file_name
}.

(** The edge that [_analyze_includes] appends for an include of
    [source_file], if any *)
Definition include_edge `{PathFlavour} (g : DependencyGraph)
    (source_file : string) (include : IncludeInfo.t) : option FileDependency.t :=
  match _resolve_include g (IncludeInfo.path include) source_file with
  | Some target_file =>
      if Str.truthy target_file then
        Some {| FileDependency.source := source_file;
                FileDependency.target := target_file;
                FileDependency.reason := "include";
                FileDependency.line := Some (IncludeInfo.line include) |}
      else None
  | None => None
  end.

(** The edges of a list with a given reason *)
Definition edges_with_reason (reason : string) (deps : list FileDependency.t)
  : list FileDependency.t :=
  filter (λ d, FileDependency.reason d = reason) deps.

(** No edge of the list that comes after a Call edge joins the same ordered
    pair of files. *)
Definition calls_unfollowed (deps : list FileDependency.t) : Prop :=
  ∀ before d after,
    deps = before ++ d :: after →
    FileDependency.reason d = "call" →
    ∀ e, e ∈ after → ¬ same_pair d e.

(** [sum(l)] *)
Definition sum_list (l : list Z) : Z := foldr Z.add 0 l.

(** A run of the loop in which the second file fails to parse *)
Definition example_parsed : list (string * option FileSymbols) :=
  [ ("src/main.cpp", Some example_main);
    ("src/broken.cpp", None);
    ("src/util.h", Some example_util);
    ("src/log.cpp", Some example_log) ].

(** ** The parser and the extractor

    [tree_sitter_parser.py] and [ast_extractor.py] work on the nodes of a
    syntax tree that the tree-sitter library builds.  A node is modelled
    with what the code reads of it: its type, its start and end point (row,
    column), its byte span and its children; a handle on a node keeps the
    chain of its ancestors, nearest first, for [node.parent].  The source
    of a file is its bytes.  A [str] is kept in its UTF-8 bytes, so that
    [decode('utf-8')] checks the bytes and returns them when they are well
    formed. *)

(** The exceptions that the code of the two files runs into *)
Inductive PyError :=
| UnicodeDecodeError
| ValueError
| TypeError
| AttributeError.

#[global] Instance PyError_eq_dec : EqDecision PyError.
Proof. solve_decision. Defined.

(** A computation returns a value or raises. *)
Inductive Result (A : Type) :=
| Ok (value : A)
| Raise (error : PyError).

Arguments Ok {A} value.
Arguments Raise {A} error.

#[global] Instance Result_ret : MRet Result := λ A, Ok.

#[global] Instance Result_bind : MBind Result :=
  λ A B f r, match r with Ok a => f a | Raise e => Raise e end.

#[global] Instance Result_fmap : FMap Result :=
  λ A B f r, match r with Ok a => Ok (f a) | Raise e => Raise e end.

(** The computation raises. *)
Definition raises {A} (r : Result A) : Prop := ∃ e, r = Raise e.

(** *** [bytes.decode('utf-8')]

    The codec is strict: it accepts the shortest encoding of a code point
    up to U+10FFFF that is no surrogate, and nothing else. *)

(** [lo <= b <= hi] *)
Definition byte_in (lo hi : N) (b : ascii) : bool :=
  ((lo <=? N_of_ascii b) && (N_of_ascii b <=? hi))%N.

Definition continuation_byte (b : ascii) : bool := byte_in 128 191 b.

(** The second byte of a sequence of three: after E0 it starts at A0 (no
    overlong form), after ED it ends at 9F (no surrogate). *)
Definition second_of_three (b0 b1 : ascii) : bool :=
  if (N_of_ascii b0 =? 224)%N then byte_in 160 191 b1
  else if (N_of_ascii b0 =? 237)%N then byte_in 128 159 b1
  else continuation_byte b1.

(** The second byte of a sequence of four: after F0 it starts at 90 (no
    overlong form), after F4 it ends at 8F (nothing above U+10FFFF). *)
Definition second_of_four (b0 b1 : ascii) : bool :=
  if (N_of_ascii b0 =? 240)%N then byte_in 144 191 b1
  else if (N_of_ascii b0 =? 244)%N then byte_in 128 143 b1
  else continuation_byte b1.

Fixpoint utf8_valid (b : string) : bool :=
  match b with
  | EmptyString => true
  | String b0 rest1 =>
      if byte_in 0 127 b0 then utf8_valid rest1
      else
        match rest1 with
        | EmptyString => false
        | String b1 rest2 =>
            if byte_in 194 223 b0 then continuation_byte b1 && utf8_valid rest2
            else
              match rest2 with
              | EmptyString => false
              | String b2 rest3 =>
                  if byte_in 224 239 b0 then
                    second_of_three b0 b1 && continuation_byte b2
                    && utf8_valid rest3
                  else if byte_in 240 244 b0 then
                    match rest3 with
                    | EmptyString => false
                    | String b3 rest4 =>
                        second_of_four b0 b1 && continuation_byte b2
                        && continuation_byte b3 && utf8_valid rest4
                    end
                  else false
              end
        end
  end.

Definition decode_utf8 (b : string) : Result string :=
  if utf8_valid b then Ok b else Raise UnicodeDecodeError.

(** The characters of a [str], as iterating over it gives them: each is a
    lead byte with the continuation bytes that follow it. *)
Definition starts_with_continuation (s : string) : bool :=
  match s with
  | EmptyString => false
  | String b _ => continuation_byte b
  end.

Fixpoint characters (s : string) : list string :=
  match s with
  | EmptyString => []
  | String b s' =>
      match characters s' with
      | [] => [String b EmptyString]
      | first :: others =>
          if starts_with_continuation first then String b first :: others
          else String b EmptyString :: first :: others
      end
  end.

(** *** Syntax trees *)

Module SyntaxNode.
Inductive t := Make {
  type : string;
  start_point : Z * Z;
  end_point : Z * Z;
  start_byte : nat;
  end_byte : nat;
  children : list t
}.
End SyntaxNode.

Record Handle := {
  node : SyntaxNode.t;
  ancestors : list SyntaxNode.t
}.

(** [node.parent] *)
Definition handle_parent (h : Handle) : option Handle :=
  match ancestors h with
  | [] => None
  | parent :: rest => Some {| node := parent; ancestors := rest |}
  end.

(** [node.children] *)
Definition handle_children (h : Handle) : list Handle :=
  (λ child, {| node := child; ancestors := node h :: ancestors h |})
    <$> SyntaxNode.children (node h).

(** [source[node.start_byte:node.end_byte]] *)
Definition node_bytes (n : SyntaxNode.t) (source : string) : string :=
  String.substring (SyntaxNode.start_byte n)
    (SyntaxNode.end_byte n - SyntaxNode.start_byte n) source.

(** [get_node_text]: [source[node.start_byte:node.end_byte].decode('utf-8')];
    it raises [UnicodeDecodeError] when the bytes of the node are not
    well-formed UTF-8. *)
Definition get_node_text (n : SyntaxNode.t) (source : string) : Result string :=
  decode_utf8 (node_bytes n source).

(** [traverse_tree], on a node with its ancestors; the effect of the
    callback is a change of a state [S]. *)
Fixpoint traverse_from {S} (callback : Handle → Z → S → S)
    (n : SyntaxNode.t) (ancs : list SyntaxNode.t) (depth : Z) (s : S) : S :=
  foldl
    (λ s child, traverse_from callback child (n :: ancs) (depth + 1) s)
    (callback {| node := n; ancestors := ancs |} depth s)
    (SyntaxNode.children n).

Definition traverse_tree {S} (h : Handle) (callback : Handle → Z → S → S)
    (depth : Z) (s : S) : S :=
  traverse_from callback (node h) (ancestors h) depth s.

Definition find_nodes_by_type (root : Handle) (node_type : string)
  : list Handle :=
  let collector (h : Handle) (depth : Z) (result : list Handle) :=
    if String.eqb (SyntaxNode.type (node h)) node_type
    then result ++ [h] else result in
  traverse_tree root collector 0 [].

Module Strip.

(** [s.lstrip(chars)] *)
Fixpoint lstrip (chars : list ascii) (s : string) : string :=
  match s with
  | EmptyString => EmptyString
  | String c s' => if bool_decide (c ∈ chars) then lstrip chars s' else s
  end.

(** [s.rstrip(chars)] *)
Definition rstrip (chars : list ascii) (s : string) : string :=
  String.rev (lstrip chars (String.rev s)).

(** [s.strip(chars)] *)
Definition strip (chars : list ascii) (s : string) : string :=
  rstrip chars (lstrip chars s).

End Strip.

(** *** The values of [query.captures]

    [execute_query] passes on what the method [captures] of the library's
    query object returns, and the extracting functions loop over it with
    [for capture_name, node in captures].  What the value is lies with the
    library, so it is modelled as a Python value: a node, a string, a
    tuple, a list or a dictionary with strings as keys. *)
Inductive PyObj :=
| ONode (h : Handle)
| OStr (s : string)
| OTuple (items : list PyObj)
| OList (items : list PyObj)
| ODict (items : list (string * PyObj)).

(** [iter(o)]: the items of a tuple or list, the keys of a dictionary, the
    characters of a string; a node is not iterable. *)
Definition py_iter (o : PyObj) : Result (list PyObj) :=
  match o with
  | ONode _ => Raise TypeError
  | OStr s => Ok (OStr <$> characters s)
  | OTuple items => Ok items
  | OList items => Ok items
  | ODict items => Ok ((λ item, OStr item.1) <$> items)
  end.

(** The unpacking [capture_name, node = item]: the item is iterated and
    must give two values. *)
Definition unpack_pair (item : PyObj) : Result (PyObj * PyObj) :=
  values ← py_iter item;
  match values with
  | [first; second] => Ok (first, second)
  | _ => Raise ValueError
  end.

(** [o == name] for a string literal [name]: only an equal string is equal
    to it. *)
Definition py_eq_str (o : PyObj) (name : string) : bool :=
  match o with
  | OStr s => String.eqb s name
  | _ => false
  end.

(** Reading an attribute of a node ([start_byte], [parent], ...) on a
    value: only a node has it. *)
Definition as_node (o : PyObj) : Result Handle :=
  match o with
  | ONode h => Ok h
  | _ => Raise AttributeError
  end.

(** The loop [for capture_name, node in captures: if capture_name == name:
    body] that the six extracting functions share; [body] works on the
    list or set that the function builds. *)
Definition for_captures {S} (captures : PyObj) (name : string)
    (body : PyObj → S → Result S) (initial : S) : Result S :=
  items ← py_iter captures;
  foldl
    (λ state item,
       s ← state;
       unpacked ← unpack_pair item;
       if py_eq_str unpacked.1 name then body unpacked.2 s else Ok s)
    (Ok initial) items.

Section extractor.
(** [query_engine.queries]: the compiled queries by name; the method
    [captures] of a query returns a value of the library, or raises. *)
Context (queries : gmap string (Handle → Result PyObj)).

(** [CppQueryEngine.execute_query] *)
Definition execute_query (query_name : string) (root_node : Handle)
  : Result PyObj :=
  match queries !! query_name with
  | None => Ok (OList [])
  | Some query => query root_node
  end.

(** The walk [x = node.parent; while x and x.type != node_type: x = x.parent] *)
Fixpoint enclosing (node_type : string) (ancs : list SyntaxNode.t)
  : option Handle :=
  match ancs with
  | [] => None
  | parent :: rest =>
      if String.eqb (SyntaxNode.type parent) node_type
      then Some {| node := parent; ancestors := rest |}
      else enclosing node_type rest
  end.

(** The loop [for child in n.children: if child.type == child_type: return
    text(child)] *)
Definition first_child_text (child_type : string) (n : SyntaxNode.t)
    (source : string) : Result (option string) :=
  match List.find (λ child, String.eqb (SyntaxNode.type child) child_type)
          (SyntaxNode.children n) with
  | Some child => Some <$> get_node_text child source
  | None => Ok None
  end.

(** The loop of [_get_scope] over [current], [current.parent], ... *)
Fixpoint scope_from (ancs : list SyntaxNode.t) (source : string)
  : Result (option string) :=
  match ancs with
  | [] => Ok None
  | current :: rest =>
      if String.eqb (SyntaxNode.type current) "namespace_definition" then
        name ← first_child_text "identifier" current source;
        match name with
        | Some name => Ok (Some name)
        | None => scope_from rest source
        end
      else if bool_decide (SyntaxNode.type current
                             ∈ ["class_specifier"; "struct_specifier"]) then
        name ← first_child_text "type_identifier" current source;
        match name with
        | Some name => Ok (Some name)
        | None => scope_from rest source
        end
      else scope_from rest source
  end.

Definition _get_scope (h : Handle) (source : string) : Result (option string) :=
  scope_from (ancestors h) source.

Definition _get_return_type (func_def : Handle) (source : string)
  : Result (option string) :=
  match List.find
          (λ child, bool_decide (SyntaxNode.type child
                       ∈ ["primitive_type"; "type_identifier";
                          "qualified_identifier"]))
          (SyntaxNode.children (node func_def)) with
  | Some child => Some <$> get_node_text child source
  | None => Ok None
  end.

(** The parameter declarations that [_get_function_params] reads, in the
    order of its three loops *)
Definition parameter_declarations (func_def : Handle) : list SyntaxNode.t :=
  child ← List.filter
            (λ child, String.eqb (SyntaxNode.type child) "function_declarator")
            (SyntaxNode.children (node func_def));
  param_node ← List.filter
                 (λ n, String.eqb (SyntaxNode.type n) "parameter_list")
                 (SyntaxNode.children child);
  List.filter
    (λ n, String.eqb (SyntaxNode.type n) "parameter_declaration")
    (SyntaxNode.children param_node).

Definition _get_function_params (func_def : Handle) (source : string)
  : Result (list string) :=
  foldl
    (λ params param,
       params ← params;
       param_text ← get_node_text param source;
       Ok (params ++ [param_text]))
    (Ok []) (parameter_declarations func_def).

Definition _is_virtual_function (func_def : Handle) (source : string) : bool :=
  existsb (λ child, String.eqb (SyntaxNode.type child) "virtual")
    (SyntaxNode.children (node func_def)).

(** The loop of [_is_static_function] over the children *)
Fixpoint static_among (children : list SyntaxNode.t) (source : string)
  : Result bool :=
  match children with
  | [] => Ok false
  | child :: rest =>
      if String.eqb (SyntaxNode.type child) "storage_class_specifier" then
        text ← get_node_text child source;
        if Str.contains "static" text then Ok true
        else static_among rest source
      else static_among rest source
  end.

Definition _is_static_function (func_def : Handle) (source : string)
  : Result bool :=
  static_among (SyntaxNode.children (node func_def)) source.

(** [node.start_point[0] + 1] *)
Definition line_of (n : SyntaxNode.t) : Z := (SyntaxNode.start_point n).1 + 1.

(** [node.end_point[0] + 1] *)
Definition end_line_of (n : SyntaxNode.t) : Z := (SyntaxNode.end_point n).1 + 1.

(** [get_node_text(node.parent, source)]: the parent of a root is [None],
    which has no [start_byte]. *)
Definition parent_text (h : Handle) (source : string) : Result string :=
  match handle_parent h with
  | Some parent => get_node_text (node parent) source
  | None => Raise AttributeError
  end.

(** [_extract_includes].  The characters stripped from the path are the
    double quote (code 34) and the angle brackets. *)
Definition _extract_includes (root : Handle) (source : string)
  : Result (list IncludeInfo.t) :=
  captures ← execute_query "includes" root;
  for_captures captures "path"
    (λ captured includes,
       h ← as_node captured;
       path_text ← get_node_text (node h) source;
       let path_text :=
         Strip.strip ["034"%char; "<"%char; ">"%char] path_text in
       text ← parent_text h source;
       let is_system := Str.contains "<" text in
       Ok (includes
           ++ [ {| IncludeInfo.path := path_text;
                   IncludeInfo.line := line_of (node h);
                   IncludeInfo.is_system := is_system |} ]))
    [].

Definition _extract_functions (root : Handle) (source : string)
  : Result (list SymbolInfo.t) :=
  captures ← execute_query "functions" root;
  for_captures captures "func_name"
    (λ captured functions,
       h ← as_node captured;
       func_name ← get_node_text (node h) source;
       match enclosing "function_definition" (ancestors h) with
       | None => Ok functions
       | Some func_def =>
           return_type ← _get_return_type func_def source;
           params ← _get_function_params func_def source;
           let is_virtual := _is_virtual_function func_def source in
           is_static ← _is_static_function func_def source;
           scope ← _get_scope func_def source;
           Ok (functions
               ++ [ {| SymbolInfo.name := func_name;
                       SymbolInfo.type := "function";
                       SymbolInfo.line := line_of (node func_def);
                       SymbolInfo.end_line := end_line_of (node func_def);
                       SymbolInfo.scope := scope;
                       SymbolInfo.params := params;
                       SymbolInfo.return_type := return_type;
                       SymbolInfo.is_template := false;
                       SymbolInfo.is_virtual := is_virtual;
                       SymbolInfo.is_static := is_static |} ])
       end)
    [].

Definition _extract_classes (root : Handle) (source : string)
  : Result (list SymbolInfo.t) :=
  captures ← execute_query "classes" root;
  for_captures captures "class_name"
    (λ captured classes,
       h ← as_node captured;
       class_name ← get_node_text (node h) source;
       match enclosing "class_specifier" (ancestors h) with
       | None => Ok classes
       | Some class_node =>
           scope ← _get_scope class_node source;
           Ok (classes
               ++ [ {| SymbolInfo.name := class_name;
                       SymbolInfo.type := "class";
                       SymbolInfo.line := line_of (node class_node);
                       SymbolInfo.end_line := end_line_of (node class_node);
                       SymbolInfo.scope := scope;
                       SymbolInfo.params := [];
                       SymbolInfo.return_type := None;
                       SymbolInfo.is_template := false;
                       SymbolInfo.is_virtual := false;
                       SymbolInfo.is_static := false |} ])
       end)
    [].

Definition _extract_structs (root : Handle) (source : string)
  : Result (list SymbolInfo.t) :=
  captures ← execute_query "structs" root;
  for_captures captures "struct_name"
    (λ captured structs,
       h ← as_node captured;
       struct_name ← get_node_text (node h) source;
       match enclosing "struct_specifier" (ancestors h) with
       | None => Ok structs
       | Some struct_node =>
           Ok (structs
               ++ [ {| SymbolInfo.name := struct_name;
                       SymbolInfo.type := "struct";
                       SymbolInfo.line := line_of (node struct_node);
                       SymbolInfo.end_line := end_line_of (node struct_node);
                       SymbolInfo.scope := None;
                       SymbolInfo.params := [];
                       SymbolInfo.return_type := None;
                       SymbolInfo.is_template := false;
                       SymbolInfo.is_virtual := false;
                       SymbolInfo.is_static := false |} ])
       end)
    [].

Definition _extract_namespaces (root : Handle) (source : string)
  : Result (list SymbolInfo.t) :=
  captures ← execute_query "namespaces" root;
  for_captures captures "ns_name"
    (λ captured namespaces,
       h ← as_node captured;
       ns_name ← get_node_text (node h) source;
       match enclosing "namespace_definition" (ancestors h) with
       | None => Ok namespaces
       | Some ns_node =>
           Ok (namespaces
               ++ [ {| SymbolInfo.name := ns_name;
                       SymbolInfo.type := "namespace";
                       SymbolInfo.line := line_of (node ns_node);
                       SymbolInfo.end_line := end_line_of (node ns_node);
                       SymbolInfo.scope := None;
                       SymbolInfo.params := [];
                       SymbolInfo.return_type := None;
                       SymbolInfo.is_template := false;
                       SymbolInfo.is_virtual := false;
                       SymbolInfo.is_static := false |} ])
       end)
    [].

(** [_extract_function_calls]: the set of the called names *)
Definition _extract_function_calls (root : Handle) (source : string)
  : Result (gset string) :=
  captures ← execute_query "call_expressions" root;
  for_captures captures "func_name"
    (λ captured calls,
       h ← as_node captured;
       func_name ← get_node_text (node h) source;
       Ok (calls ∪ {[ func_name ]}))
    ∅.

End extractor.

(** The nodes of a tree in document order (a node before its children, the
    children from left to right), each with its depth *)
Fixpoint preorder_from (n : SyntaxNode.t) (ancs : list SyntaxNode.t) (depth : Z)
  : list (Handle * Z) :=
  ({| node := n; ancestors := ancs |}, depth)
  :: flat_map (λ child, preorder_from child (n :: ancs) (depth + 1))
       (SyntaxNode.children n).

Definition preorder (h : Handle) (depth : Z) : list (Handle * Z) :=
  preorder_from (node h) (ancestors h) depth.

(** Induction on syntax trees: a property of a node follows from the
    property of its children. *)
Fixpoint syntax_node_ind (P : SyntaxNode.t → Prop)
    (step : ∀ n, Forall P (SyntaxNode.children n) → P n)
    (n : SyntaxNode.t) : P n :=
  step n
    ((fix children_ind (l : list SyntaxNode.t) : Forall P l :=
        match l with
        | [] => @List.Forall_nil _ P
        | child :: l' =>
            @List.Forall_cons _ P child l' (syntax_node_ind P step child)
              (children_ind l')
        end) (SyntaxNode.children n)).

(** *** The shapes of captures

    The docstring of [execute_query] promises a list of (capture name,
    node) tuples, and the loops of the extractor unpack the items in this
    order.  The method [captures] of the library has returned, depending on
    its version, a list of (node, capture name) tuples, or a dictionary
    from the capture names to the lists of their nodes. *)

(** A list of (capture name, node) tuples *)
Definition name_node_pairs (pairs : list (string * Handle)) : PyObj :=
  OList ((λ pair, OTuple [OStr pair.1; ONode pair.2]) <$> pairs).

(** A list of (node, capture name) tuples *)
Definition node_name_pairs (pairs : list (Handle * string)) : PyObj :=
  OList ((λ pair, OTuple [ONode pair.1; OStr pair.2]) <$> pairs).

(** A dictionary from capture names to the lists of their nodes *)
Definition captures_by_name (groups : list (string * list Handle)) : PyObj :=
  ODict ((λ group, (group.1, OList (ONode <$> group.2))) <$> groups).

(** The string has exactly two characters. *)
Definition two_characters (s : string) : bool :=
  bool_decide (length (characters s) = 2%nat).

(** Every byte of the string is a continuation byte. *)
Fixpoint continuation_bytes (s : string) : Prop :=
  match s with
  | EmptyString => True
  | String b s' => continuation_byte b = true ∧ continuation_bytes s'
  end.

(** Every byte of the string is below 128: the string is ASCII. *)
Fixpoint ascii_only (s : string) : Prop :=
  match s with
  | EmptyString => True
  | String b s' => byte_in 0 127 b = true ∧ ascii_only s'
  end.

(** A small tree: a translation unit with a namespace [app] that holds a
    class [Widget] with a method [draw], and a free function [main]. *)
Definition leaf (type : string) (row : Z) (start_byte end_byte : nat)
  : SyntaxNode.t :=
  {| SyntaxNode.type := type;
     SyntaxNode.start_point := (row, 0); SyntaxNode.end_point := (row, 0);
     SyntaxNode.start_byte := start_byte; SyntaxNode.end_byte := end_byte;
     SyntaxNode.children := [] |}.

Definition branch (type : string) (row end_row : Z)
    (children : list SyntaxNode.t) : SyntaxNode.t :=
  {| SyntaxNode.type := type;
     SyntaxNode.start_point := (row, 0); SyntaxNode.end_point := (end_row, 0);
     SyntaxNode.start_byte := 0; SyntaxNode.end_byte := 0;
     SyntaxNode.children := children |}.

Definition example_source : string :=
  "namespace app { class Widget { void draw() {} }; } int main() {}".

Definition example_draw : SyntaxNode.t :=
  branch "function_definition" 0 0
    [ leaf "primitive_type" 0 31 35;
      branch "function_declarator" 0 0
        [leaf "field_identifier" 0 36 40; leaf "parameter_list" 0 40 42] ].

Definition example_class : SyntaxNode.t :=
  branch "class_specifier" 0 0
    [ leaf "type_identifier" 0 22 28;
      branch "field_declaration_list" 0 0 [example_draw] ].

Definition example_namespace : SyntaxNode.t :=
  branch "namespace_definition" 0 0
    [ leaf "namespace_identifier" 0 10 13;
      branch "declaration_list" 0 0 [example_class] ].

Definition example_main_def : SyntaxNode.t :=
  branch "function_definition" 0 0
    [ leaf "primitive_type" 0 51 54;
      branch "function_declarator" 0 0
        [leaf "identifier" 0 55 59; leaf "parameter_list" 0 59 61] ].

Definition example_tree : Handle :=
  {| node := branch "translation_unit" 0 0 [example_namespace; example_main_def];
     ancestors := [] |}.

(** The types of nodes that [_get_scope] looks at *)
Definition scope_types : list string :=
  ["namespace_definition"; "class_specifier"; "struct_specifier"].

(** The name [_get_scope] finds on a node: for a namespace the text of its
    first [identifier] child, for a class or struct that of its first
    [type_identifier] child *)
Definition scope_name (current : SyntaxNode.t) (source : string)
  : Result (option string) :=
  if String.eqb (SyntaxNode.type current) "namespace_definition"
  then first_child_text "identifier" current source
  else if bool_decide (SyntaxNode.type current
                         ∈ ["class_specifier"; "struct_specifier"])
  then first_child_text "type_identifier" current source
  else Ok None.

(** The handle on the definition of [draw] in the example tree *)
Definition example_draw_handle : Handle :=
  {| node := example_draw;
     ancestors :=
       [ branch "field_declaration_list" 0 0 [example_draw];
         example_class;
         branch "declaration_list" 0 0 [example_class];
         example_namespace;
         node example_tree ] |}.

(** The handle on the class [Widget] in the example tree *)
Definition example_class_handle : Handle :=
  {| node := example_class;
     ancestors :=
       [ branch "declaration_list" 0 0 [example_class];
         example_namespace;
         node example_tree ] |}.

(** Every character of the string is one of [chars]. *)
Fixpoint only_chars (chars : list ascii) (s : string) : Prop :=
  match s with
  | EmptyString => True
  | String c s' => c ∈ chars ∧ only_chars chars s'
  end.

(** The characters that [_extract_includes] strips from a path: the double
    quote (code 34) and the angle brackets *)
Definition include_delimiters : list ascii :=
  ["034"%char; "<"%char; ">"%char].

(** What the body of the loop of [_extract_includes] makes of a node
    captured as a path *)
Definition include_of (h : Handle) (source : string) : Result IncludeInfo.t :=
  path_text ← get_node_text (node h) source;
  text ← parent_text h source;
  Ok {| IncludeInfo.path := Strip.strip include_delimiters path_text;
        IncludeInfo.line := line_of (node h);
        IncludeInfo.is_system := Str.contains "<" text |}.

(** What the body of the loop of [_extract_functions] makes of a node
    captured as the name of a function: nothing when no function definition
    encloses it *)
Definition function_of (h : Handle) (source : string)
  : Result (option SymbolInfo.t) :=
  func_name ← get_node_text (node h) source;
  match enclosing "function_definition" (ancestors h) with
  | None => Ok None
  | Some func_def =>
      return_type ← _get_return_type func_def source;
      params ← _get_function_params func_def source;
      is_static ← _is_static_function func_def source;
      scope ← _get_scope func_def source;
      Ok (Some {| SymbolInfo.name := func_name;
                  SymbolInfo.type := "function";
                  SymbolInfo.line := line_of (node func_def);
                  SymbolInfo.end_line := end_line_of (node func_def);
                  SymbolInfo.scope := scope;
                  SymbolInfo.params := params;
                  SymbolInfo.return_type := return_type;
                  SymbolInfo.is_template := false;
                  SymbolInfo.is_virtual :=
                    _is_virtual_function func_def source;
                  SymbolInfo.is_static := is_static |})
  end.

(** A node on one row, with its columns and its bytes *)
Definition token (type : string) (row : Z) (start_col end_col : Z)
    (start_byte end_byte : nat) (children : list SyntaxNode.t)
  : SyntaxNode.t :=
  {| SyntaxNode.type := type;
     SyntaxNode.start_point := (row, start_col);
     SyntaxNode.end_point := (row, end_col);
     SyntaxNode.start_byte := start_byte; SyntaxNode.end_byte := end_byte;
     SyntaxNode.children := children |}.

(** A file of two include directives and a tree for it *)
Definition example_includes_source : string :=
  "#include " +:+ String "034"%char "util.h" +:+ String "034"%char ""
  +:+ String "010"%char "#include <vector>" +:+ String "010"%char "".

Definition example_include_nodes : list SyntaxNode.t :=
  [ {| SyntaxNode.type := "preproc_include";
       SyntaxNode.start_point := (0, 0); SyntaxNode.end_point := (1, 0);
       SyntaxNode.start_byte := 0; SyntaxNode.end_byte := 18;
       SyntaxNode.children :=
         [ token "#include" 0 0 8 0 8 [];
           token "string_literal" 0 9 17 9 17
             [ token (String "034"%char "") 0 9 10 9 10 [];
               token "string_content" 0 10 16 10 16 [];
               token (String "034"%char "") 0 16 17 16 17 [] ] ] |};
    {| SyntaxNode.type := "preproc_include";
       SyntaxNode.start_point := (1, 0); SyntaxNode.end_point := (2, 0);
       SyntaxNode.start_byte := 18; SyntaxNode.end_byte := 36;
       SyntaxNode.children :=
         [ token "#include" 1 0 8 18 26 [];
           token "system_lib_string" 1 9 17 27 35 [] ] |} ].

Definition example_includes_tree : Handle :=
  {| node :=
       {| SyntaxNode.type := "translation_unit";
          SyntaxNode.start_point := (0, 0); SyntaxNode.end_point := (2, 0);
          SyntaxNode.start_byte := 0; SyntaxNode.end_byte := 36;
          SyntaxNode.children := example_include_nodes |};
     ancestors := [] |}.

(** The directives of the example and their paths *)
Definition example_directives : list Handle :=
  handle_children example_includes_tree.

Definition example_paths : list Handle :=
  directive ← example_directives;
  List.filter
    (λ child, bool_decide (SyntaxNode.type (node child)
                             ∈ ["string_literal"; "system_lib_string"]))
    (handle_children directive).

(** The captures of the [includes] query on the example in the three
    shapes *)
Definition example_includes_by_name : PyObj :=
  captures_by_name [("include", example_directives); ("path", example_paths)].

Definition example_includes_node_first : PyObj :=
  node_name_pairs
    (directive ← example_directives;
     (directive, "include")
     :: ((λ path, (path, "path"))
           <$> List.filter
                 (λ child, bool_decide (SyntaxNode.type (node child)
                              ∈ ["string_literal"; "system_lib_string"]))
                 (handle_children directive))).

Definition example_includes_name_first : PyObj :=
  name_node_pairs
    (directive ← example_directives;
     ("include", directive)
     :: ((λ path, ("path", path))
           <$> List.filter
                 (λ child, bool_decide (SyntaxNode.type (node child)
                              ∈ ["string_literal"; "system_lib_string"]))
                 (handle_children directive))).

(** A function [f] that calls [g], and a tree for it *)
Definition example_caller_source : string := "void f() { g(); }".

Definition example_call : SyntaxNode.t :=
  token "call_expression" 0 11 14 11 14
    [ token "identifier" 0 11 12 11 12 [];
      token "argument_list" 0 12 14 12 14
        [token "(" 0 12 13 12 13 []; token ")" 0 13 14 13 14 []] ].

Definition example_statement : SyntaxNode.t :=
  token "expression_statement" 0 11 15 11 15
    [example_call; token ";" 0 14 15 14 15 []].

Definition example_body : SyntaxNode.t :=
  token "compound_statement" 0 9 17 9 17
    [ token "{" 0 9 10 9 10 []; example_statement;
      token "}" 0 16 17 16 17 [] ].

Definition example_declarator : SyntaxNode.t :=
  token "function_declarator" 0 5 8 5 8
    [ token "identifier" 0 5 6 5 6 [];
      token "parameter_list" 0 6 8 6 8
        [token "(" 0 6 7 6 7 []; token ")" 0 7 8 7 8 []] ].

Definition example_caller : SyntaxNode.t :=
  token "function_definition" 0 0 17 0 17
    [ token "primitive_type" 0 0 4 0 4 [];
      example_declarator;
      example_body ].

Definition example_caller_tree : Handle :=
  {| node := token "translation_unit" 0 0 17 0 17 [example_caller];
     ancestors := [] |}.

(** The handles on the definition of [f], on its name and on the name of
    the called [g] *)
Definition example_caller_handle : Handle :=
  {| node := example_caller; ancestors := [node example_caller_tree] |}.

Definition example_caller_name : Handle :=
  {| node := token "identifier" 0 5 6 5 6 [];
     ancestors :=
       [example_declarator; example_caller; node example_caller_tree] |}.

Definition example_call_handle : Handle :=
  {| node := example_call;
     ancestors :=
       [ example_statement; example_body; example_caller;
         node example_caller_tree ] |}.

Definition example_called_name : Handle :=
  {| node := token "identifier" 0 11 12 11 12 [];
     ancestors :=
       [ example_call; example_statement; example_body; example_caller;
         node example_caller_tree ] |}.

(** A query engine whose query [query_name] gives [captures] *)
Definition example_engine (query_name : string) (captures : PyObj)
  : gmap string (Handle → Result PyObj) :=
  {[ query_name := λ _, Ok captures ]}.

(** The captures of the [functions] query and of the [call_expressions]
    query on the example in the three shapes *)
Definition example_functions_by_name : PyObj :=
  captures_by_name
    [("function", [example_caller_handle]); ("func_name", [example_caller_name])].

Definition example_functions_node_first : PyObj :=
  node_name_pairs
    [(example_caller_handle, "function"); (example_caller_name, "func_name")].

Definition example_functions_name_first : PyObj :=
  name_node_pairs
    [("function", example_caller_handle); ("func_name", example_caller_name)].

Definition example_calls_by_name : PyObj :=
  captures_by_name
    [("call", [example_call_handle]); ("func_name", [example_called_name])].

Definition example_calls_node_first : PyObj :=
  node_name_pairs
    [(example_call_handle, "call"); (example_called_name, "func_name")].

Definition example_calls_name_first : PyObj :=
  name_node_pairs
    [("call", example_call_handle); ("func_name", example_called_name)].

(** * Properties *)

(** ** Strings *)

Lemma append_nil_l (s : string) : "" +:+ s = s.
Proof. reflexivity. Qed.

Lemma append_cons (a : ascii) (s t : string) :
  String a s +:+ t = String a (s +:+ t).
Proof. reflexivity. Qed.

Lemma append_eq_nil (s t : string) : s +:+ t = "" → s = "" ∧ t = "".
Proof.
  destruct s as [|a s]; [rewrite append_nil_l; auto|].
  rewrite append_cons. discriminate.
Qed.

Lemma endswith_unfold (s suffix : string) :
  Str.endswith s suffix =
    if String.eqb s suffix then true
    else match s with
         | EmptyString => false
         | String _ s' => Str.endswith s' suffix
         end.
Proof. destruct s; reflexivity. Qed.

Lemma contains_unfold (sub s : string) :
  Str.contains sub s =
    if String.prefix sub s then true
    else match s with
         | EmptyString => false
         | String _ s' => Str.contains sub s'
         end.
Proof. destruct s; reflexivity. Qed.

Lemma endswith_spec (s suffix : string) :
  Str.endswith s suffix = true ↔ is_suffix suffix s.
Proof.
  unfold is_suffix. induction s as [|a s IH]; rewrite endswith_unfold.
  - destruct (String.eqb_spec "" suffix) as [<-|Hne]; simpl.
    + split; [exists ""; reflexivity | reflexivity].
    + split; [discriminate|]. intros [pre Hpre].
      symmetry in Hpre. apply append_eq_nil in Hpre as [_ ->]. congruence.
  - destruct (String.eqb_spec (String a s) suffix) as [<-|Hne]; simpl.
    + split; [exists ""; reflexivity | reflexivity].
    + rewrite IH. split.
      * intros [pre ->]. exists (String a pre). reflexivity.
      * intros [[|b pre] Hpre].
        -- rewrite append_nil_l in Hpre. congruence.
        -- rewrite append_cons in Hpre. injection Hpre as _ ->. eauto.
Qed.

Lemma prefix_spec (sub s : string) :
  String.prefix sub s = true ↔ ∃ post, s = sub +:+ post.
Proof.
  revert s. induction sub as [|a sub IH]; intros [|b s]; simpl.
  - split; [exists ""; reflexivity | reflexivity].
  - split; [exists (String b s); reflexivity | reflexivity].
  - split; [discriminate | intros [post Hpost]; discriminate].
  - destruct (ascii_dec a b) as [<-|Hne].
    + rewrite IH. split.
      * intros [post ->]. exists post. reflexivity.
      * intros [post Hpost]. rewrite append_cons in Hpost.
        injection Hpost as ->. eauto.
    + split; [discriminate|]. intros [post Hpost].
      rewrite append_cons in Hpost. congruence.
Qed.

Lemma contains_spec (sub s : string) :
  Str.contains sub s = true ↔ occurs_in sub s.
Proof.
  unfold occurs_in. induction s as [|a s IH]; rewrite contains_unfold.
  - destruct (String.prefix sub "") eqn:Hp.
    + apply prefix_spec in Hp as [post Hp].
      split; [|reflexivity]. intros _. exists "", post. exact Hp.
    + split; [discriminate|]. intros (pre & post & Heq).
      symmetry in Heq. apply append_eq_nil in Heq as [-> Heq].
      assert (String.prefix sub "" = true) as Hp'
        by (apply prefix_spec; exists post; symmetry; exact Heq).
      congruence.
  - destruct (String.prefix sub (String a s)) eqn:Hp.
    + apply prefix_spec in Hp as [post Hp].
      split; [|reflexivity]. intros _. exists "", post. exact Hp.
    + rewrite IH. split.
      * intros (pre & post & ->). exists (String a pre), post. reflexivity.
      * intros ([|b pre] & post & Heq).
        -- rewrite append_nil_l in Heq.
           assert (String.prefix sub (String a s) = true) as Hp'
             by (apply prefix_spec; eauto).
           congruence.
        -- rewrite append_cons in Heq. injection Heq as _ ->. eauto.
Qed.

Lemma endswith_any_spec (s : string) (suffixes : list string) :
  Str.endswith_any s suffixes = true ↔ ∃ suffix, suffix ∈ suffixes ∧ is_suffix suffix s.
Proof.
  unfold Str.endswith_any. rewrite existsb_exists.
  split; intros (x & Hx & Hs); exists x.
  - split; [by apply list_elem_of_In | by apply endswith_spec].
  - split; [by apply list_elem_of_In | by apply endswith_spec].
Qed.

(** ** Paths *)

Example posix_name :
  path_name <$> ["a/b/c.h"; "c.h"; "a/b/"; "a//b/."; "/"; "."; ""; ".."]
  = ["c.h"; "c.h"; "b"; "b"; ""; ""; ""; ".."].
Proof. vm_compute. reflexivity. Qed.

Example posix_parent_join :
  [ path_parent_join "src/a/b.cpp" "x/y.h"; path_parent_join "b.cpp" "y.h";
    path_parent_join "/b.cpp" "y.h"; path_parent_join "a/b.cpp" "/y.h";
    path_parent_join "a/b.cpp" "../y.h"; path_parent_join "b.cpp" "" ]
  = ["src/a/x/y.h"; "y.h"; "/y.h"; "/y.h"; "a/../y.h"; "."].
Proof. vm_compute. reflexivity. Qed.

Example posix_parts :
  path_parts <$> ["/a/b"; "a/b/c.h"; "c.h"; "//a"]
  = [["/"; "a"; "b"]; ["a"; "b"; "c.h"]; ["c.h"]; ["//"; "a"]].
Proof. vm_compute. reflexivity. Qed.

(** ** Dictionaries *)

Section dict_facts.
Context {V : Type}.
Implicit Types (d : list (string * V)) (k : string) (v : V).

Lemma dict_get_set_eq k v d : Dict.get k (Dict.set k v d) = Some v.
Proof.
  induction d as [|[k' v'] d IH]; csimpl.
  - by rewrite decide_True.
  - destruct (decide (k = k')) as [->|Hne]; csimpl.
    + by rewrite decide_True.
    + by rewrite decide_False.
Qed.

Lemma dict_get_set_ne k k' v d :
  k ≠ k' → Dict.get k' (Dict.set k v d) = Dict.get k' d.
Proof.
  intros Hne. induction d as [|[k0 v0] d IH]; csimpl.
  - by rewrite decide_False.
  - destruct (decide (k = k0)) as [->|Hne0]; csimpl.
    + by rewrite !decide_False.
    + by rewrite IH.
Qed.

Lemma dict_keys_set_in k v d :
  k ∈ Dict.keys d → Dict.keys (Dict.set k v d) = Dict.keys d.
Proof.
  unfold Dict.keys. induction d as [|[k0 v0] d IH]; csimpl.
  - by intros ?%elem_of_nil.
  - intros Hin. destruct (decide (k = k0)) as [->|Hne]; csimpl; [done|].
    f_equal. apply IH. apply elem_of_cons in Hin as [?|?]; [done|done].
Qed.

Lemma dict_keys_set_notin k v d :
  k ∉ Dict.keys d → Dict.keys (Dict.set k v d) = Dict.keys d ++ [k].
Proof.
  unfold Dict.keys. induction d as [|[k0 v0] d IH]; csimpl; [done|].
  intros Hin. apply not_elem_of_cons in Hin as [Hne Hin].
  rewrite decide_False by done. csimpl. by rewrite IH.
Qed.

Lemma dict_keys_set_elem k k' v d :
  k' ∈ Dict.keys (Dict.set k v d) ↔ k' = k ∨ k' ∈ Dict.keys d.
Proof.
  destruct (decide (k ∈ Dict.keys d)) as [Hin|Hin].
  - rewrite dict_keys_set_in by done. naive_solver.
  - rewrite dict_keys_set_notin by done. rewrite elem_of_app, list_elem_of_singleton.
    naive_solver.
Qed.

Lemma dict_keys_set_NoDup k v d :
  NoDup (Dict.keys d) → NoDup (Dict.keys (Dict.set k v d)).
Proof.
  intros Hnd. destruct (decide (k ∈ Dict.keys d)) as [Hin|Hin].
  - by rewrite dict_keys_set_in.
  - rewrite dict_keys_set_notin by done. apply NoDup_app. split; [done|].
    split; [|apply NoDup_singleton].
    intros x Hx ->%list_elem_of_singleton. done.
Qed.

Lemma dict_get_Some_elem k v d : Dict.get k d = Some v → (k, v) ∈ d.
Proof.
  induction d as [|[k0 v0] d IH]; csimpl; [done|].
  destruct (decide (k = k0)) as [->|Hne].
  - intros [= ->]. apply elem_of_cons. by left.
  - intros Hg. apply elem_of_cons. right. by apply IH.
Qed.

Lemma dict_get_None k d : Dict.get k d = None ↔ k ∉ Dict.keys d.
Proof.
  unfold Dict.keys. induction d as [|[k0 v0] d IH]; csimpl.
  - split; [intros _; apply not_elem_of_nil | done].
  - rewrite not_elem_of_cons. destruct (decide (k = k0)) as [->|Hne].
    + split; [done | intros [? _]; done].
    + rewrite IH. naive_solver.
Qed.

Lemma dict_get_is_Some k d : is_Some (Dict.get k d) ↔ k ∈ Dict.keys d.
Proof.
  rewrite <- not_eq_None_Some, dict_get_None.
  destruct (decide (k ∈ Dict.keys d)); naive_solver.
Qed.

Lemma dict_elem_keys k v d : (k, v) ∈ d → k ∈ Dict.keys d.
Proof. intros Hin. unfold Dict.keys. apply list_elem_of_fmap. by exists (k, v). Qed.

Lemma dict_contains_spec k d : Dict.contains k d = true ↔ k ∈ Dict.keys d.
Proof. unfold Dict.contains. apply bool_decide_eq_true. Qed.

End dict_facts.

(** ** The symbol index ([add_file]) *)

Section add_file_facts.
Context `{PathFlavour}.

Lemma index_symbol_entries file_path idx symbol symbol_name :
  default [] (index_symbol file_path idx symbol !! symbol_name)
  = default [] (idx !! symbol_name)
    ++ (if bool_decide (SymbolInfo.name symbol = symbol_name)
        then [(file_path, symbol)] else []).
Proof.
  unfold index_symbol.
  destruct (idx !! SymbolInfo.name symbol) as [l|] eqn:Hl.
  - rewrite Hl. case_bool_decide as Hn.
    + subst. rewrite lookup_insert_eq, Hl. reflexivity.
    + rewrite lookup_insert_ne by done. by rewrite app_nil_r.
  - rewrite lookup_insert_eq. case_bool_decide as Hn.
    + subst. rewrite lookup_insert_eq, Hl. reflexivity.
    + rewrite !lookup_insert_ne by done. by rewrite app_nil_r.
Qed.

Lemma index_symbols_entries file_path symbol_list idx symbol_name :
  default [] (foldl (index_symbol file_path) idx symbol_list !! symbol_name)
  = default [] (idx !! symbol_name)
    ++ ((λ symbol, (file_path, symbol)) <$>
          List.filter (λ symbol, bool_decide (SymbolInfo.name symbol = symbol_name))
            symbol_list).
Proof.
  revert idx. induction symbol_list as [|symbol l IH]; intros idx; simpl.
  - by rewrite app_nil_r.
  - rewrite IH, index_symbol_entries.
    case_bool_decide; csimpl; by rewrite <- app_assoc.
Qed.

Lemma add_file_symbol_index file_path symbols g :
  symbol_index (add_file file_path symbols g)
  = foldl (index_symbol file_path) (symbol_index g) (indexed_symbols symbols).
Proof.
  unfold add_file, indexed_symbols. simpl. by rewrite !foldl_app.
Qed.

Lemma add_file_entries file_path symbols g symbol_name :
  symbol_entries (add_file file_path symbols g) symbol_name
  = symbol_entries g symbol_name ++ entries_for file_path symbols symbol_name.
Proof.
  unfold symbol_entries. rewrite add_file_symbol_index.
  apply index_symbols_entries.
Qed.

Lemma add_file_keys file_path symbols g file_path' :
  file_path' ∈ Dict.keys (files (add_file file_path symbols g))
  ↔ file_path' = file_path ∨ file_path' ∈ Dict.keys (files g).
Proof. apply dict_keys_set_elem. Qed.

End add_file_facts.

(** C1, as the code has it: adding a path a second time replaces its
    [FileSymbols] in place (the path keeps its one position in [files]) and
    sets [file_index] for its basename, and leaves the edges alone; the symbol
    index is append-only: under every name, the entries of the first add stay
    and those of the second add follow them. *)
Theorem add_file_again_appends `{PathFlavour} (g : DependencyGraph)
    (p : string) (s1 s2 : FileSymbols) :
  let g1 := add_file p s1 g in
  let g2 := add_file p s2 g1 in
  Dict.get p (files g2) = Some s2
  ∧ Dict.keys (files g2) = Dict.keys (files g1)
  ∧ file_index g2 !! path_name p = Some p
  ∧ dependencies g2 = dependencies g
  ∧ ∀ symbol_name,
      symbol_entries g2 symbol_name
      = symbol_entries g symbol_name
        ++ entries_for p s1 symbol_name ++ entries_for p s2 symbol_name.
Proof.
  intros g1 g2. repeat split.
  - apply dict_get_set_eq.
  - apply dict_keys_set_in. apply add_file_keys. by left.
  - apply lookup_insert_eq.
  - intros symbol_name. subst g1 g2.
    rewrite !add_file_entries. by rewrite <- app_assoc.
Qed.

(** C1 fails as stated: after a header with a function [foo] is added and
    then added again without it, [foo] is still indexed to the header (a
    ghost entry); added twice with it, [foo] is indexed to the header
    twice (a duplicate entry). *)
Lemma add_file_again_keeps_stale_entries :
  ¬ no_ghost_entries
      (add_file "a.h" (no_symbols "a.h")
         (add_file "a.h" (with_function "foo" 1 (no_symbols "a.h")) empty_graph))
  ∧ ¬ no_duplicate_entries
      (add_file "a.h" (with_function "foo" 1 (no_symbols "a.h"))
         (add_file "a.h" (with_function "foo" 1 (no_symbols "a.h")) empty_graph)).
Proof.
  split.
  - intros Hghost.
    destruct (Hghost "foo" "a.h" (function_symbol "foo" 1)) as (symbols & Hget & Hin).
    + rewrite !add_file_entries. vm_compute. apply list_elem_of_here.
    + vm_compute in Hget. injection Hget as <-.
      vm_compute in Hin. by apply elem_of_nil in Hin.
  - intros Hdup.
    specialize (Hdup "foo" "a.h" (with_function "foo" 1 (no_symbols "a.h"))).
    rewrite !add_file_entries in Hdup.
    specialize (Hdup eq_refl). vm_compute in Hdup. discriminate.
Qed.

(** ** The analysis pass *)

Lemma foldl_invariant {A B} (I : A → Prop) (f : A → B → A) (l : list B) (a : A) :
  I a → (∀ a x, x ∈ l → I a → I (f a x)) → I (foldl f a l).
Proof.
  revert a. induction l as [|x l IH]; intros a Ha Hstep; simpl; [done|].
  apply IH.
  - apply Hstep; [apply list_elem_of_here | done].
  - intros a' y Hy. apply Hstep. by apply list_elem_of_further.
Qed.

Lemma has_dependency_false g source target :
  _has_dependency g source target = false →
  ∀ e, e ∈ dependencies g →
       ¬ (FileDependency.source e = source ∧ FileDependency.target e = target).
Proof.
  unfold _has_dependency. intros Hex e He [Hs Ht].
  assert (existsb
            (λ dep, bool_decide (FileDependency.source dep = source)
                    && bool_decide (FileDependency.target dep = target))
            (dependencies g) = true) as Htrue; [|congruence].
  apply existsb_exists. exists e. split; [by apply list_elem_of_In|].
  by rewrite !bool_decide_eq_true_2.
Qed.

(** A pass over [g0] grows a list of edges by two kinds of steps; a
    property of edge lists that both steps keep holds of the result. *)
Section analysis_invariant.
Context `{PathFlavour} (g0 : DependencyGraph).
Context (P : list FileDependency.t → Prop).

Hypothesis P_include :
  ∀ deps source_file symbols include target_file,
    (source_file, symbols) ∈ files g0 →
    include ∈ includes symbols →
    _resolve_include g0 (IncludeInfo.path include) source_file = Some target_file →
    P deps →
    P (deps ++ [ {| FileDependency.source := source_file;
                    FileDependency.target := target_file;
                    FileDependency.reason := "include";
                    FileDependency.line := Some (IncludeInfo.line include) |} ]).

Hypothesis P_call :
  ∀ deps source_file symbols called_func target_file symbol,
    (source_file, symbols) ∈ files g0 →
    called_func ∈ function_calls symbols →
    (target_file, symbol) ∈ symbol_entries g0 called_func →
    target_file ≠ source_file →
    (∀ e, e ∈ deps →
          ¬ (FileDependency.source e = source_file
             ∧ FileDependency.target e = target_file)) →
    P deps →
    P (deps ++ [ {| FileDependency.source := source_file;
                    FileDependency.target := target_file;
                    FileDependency.reason := "call";
                    FileDependency.line := None |} ]).

Lemma analyze_includes_in_pass source_file symbols g :
  (source_file, symbols) ∈ files g0 →
  in_pass g0 P g → in_pass g0 P (_analyze_includes source_file symbols g).
Proof.
  intros Hfile Hg. unfold _analyze_includes.
  apply (foldl_invariant (in_pass g0 P)); [done|].
  intros g' include Hinc (deps & -> & Hdeps).
  change (_resolve_include (set_dependencies deps g0))
    with (_resolve_include g0).
  destruct (_resolve_include g0 (IncludeInfo.path include) source_file)
    as [target_file|] eqn:Hres; [|by exists deps].
  destruct (Str.truthy target_file); [|by exists deps].
  eexists. split; [reflexivity|]. simpl. by eapply P_include.
Qed.

Lemma call_step_in_pass source_file symbols called_func entry g :
  (source_file, symbols) ∈ files g0 →
  called_func ∈ function_calls symbols →
  entry ∈ symbol_entries g0 called_func →
  in_pass g0 P g → in_pass g0 P (call_step source_file g entry).
Proof.
  intros Hfile Hcall Hentry (deps & -> & Hdeps). unfold call_step.
  destruct entry as [target_file symbol]. simpl.
  case_bool_decide as Hself; [by exists deps|].
  destruct (_has_dependency (set_dependencies deps g0) source_file target_file)
    eqn:Hhas; simpl; [by exists deps|].
  eexists. split; [reflexivity|]. simpl.
  eapply P_call; eauto. apply (has_dependency_false _ _ _ Hhas).
Qed.

Lemma analyze_function_calls_in_pass source_file symbols g :
  (source_file, symbols) ∈ files g0 →
  in_pass g0 P g → in_pass g0 P (_analyze_function_calls source_file symbols g).
Proof.
  intros Hfile Hg. unfold _analyze_function_calls.
  apply (foldl_invariant (in_pass g0 P)); [done|].
  intros g' called_func Hcall Hg'.
  assert (symbol_index g' = symbol_index g0) as Hidx
    by (destruct Hg' as (deps & -> & _); reflexivity).
  rewrite Hidx.
  destruct (symbol_index g0 !! called_func) as [entries|] eqn:Hentries; [|done].
  apply (foldl_invariant (in_pass g0 P)); [done|].
  intros g'' entry Hentry Hg''.
  eapply call_step_in_pass; eauto.
  unfold symbol_entries. by rewrite Hentries.
Qed.

Lemma analyze_dependencies_in_pass :
  P [] → in_pass g0 P (analyze_dependencies g0).
Proof.
  intros Hnil. unfold analyze_dependencies.
  apply (foldl_invariant (in_pass g0 P)); [by exists []|].
  intros g [source_file symbols] Hfile Hg. unfold analyze_file. simpl.
  apply analyze_function_calls_in_pass; [done|].
  by apply analyze_includes_in_pass.
Qed.

End analysis_invariant.

Lemma analyze_dependencies_frame `{PathFlavour} (g : DependencyGraph) :
  analyze_dependencies g
  = set_dependencies (dependencies (analyze_dependencies g)) g.
Proof.
  destruct (analyze_dependencies_in_pass g (λ _, True)) as (deps & Heq & _);
    [done..|].
  by rewrite Heq.
Qed.

Lemma analyze_dependencies_invariant `{PathFlavour} (g : DependencyGraph)
    (P : list FileDependency.t → Prop) :
  (∀ deps source_file symbols include target_file,
    (source_file, symbols) ∈ files g →
    include ∈ includes symbols →
    _resolve_include g (IncludeInfo.path include) source_file = Some target_file →
    P deps →
    P (deps ++ [ {| FileDependency.source := source_file;
                    FileDependency.target := target_file;
                    FileDependency.reason := "include";
                    FileDependency.line := Some (IncludeInfo.line include) |} ])) →
  (∀ deps source_file symbols called_func target_file symbol,
    (source_file, symbols) ∈ files g →
    called_func ∈ function_calls symbols →
    (target_file, symbol) ∈ symbol_entries g called_func →
    target_file ≠ source_file →
    (∀ e, e ∈ deps →
          ¬ (FileDependency.source e = source_file
             ∧ FileDependency.target e = target_file)) →
    P deps →
    P (deps ++ [ {| FileDependency.source := source_file;
                    FileDependency.target := target_file;
                    FileDependency.reason := "call";
                    FileDependency.line := None |} ])) →
  P [] → P (dependencies (analyze_dependencies g)).
Proof.
  intros Hinc Hcall Hnil.
  destruct (analyze_dependencies_in_pass g P Hinc Hcall Hnil) as (deps & Heq & HP).
  by rewrite Heq.
Qed.

Lemma calls_guarded_nil : calls_guarded [].
Proof. intros before d after Heq. by destruct before. Qed.

Lemma calls_guarded_snoc deps d :
  calls_guarded deps →
  (FileDependency.reason d = "call" →
   FileDependency.source d ≠ FileDependency.target d
   ∧ ∀ e, e ∈ deps → ¬ same_pair d e) →
  calls_guarded (deps ++ [d]).
Proof.
  intros Hdeps Hd before d' after Heq Hcall.
  destruct after as [|x after _] using rev_ind.
  - apply app_inj_tail in Heq as [-> ->]. by apply Hd.
  - rewrite app_comm_cons, app_assoc in Heq.
    apply app_inj_tail in Heq as [-> _]. by eapply Hdeps.
Qed.

(** C3: the loop body of [_analyze_function_calls] either leaves the edges
    as they are or appends one Call edge, and then the target is not the
    source file and no edge already joins the pair; so in the edges of a
    pass every Call edge joins two different files that no earlier edge
    (of either reason) joins. *)
Theorem call_edges_guarded `{PathFlavour} (g : DependencyGraph) :
  (∀ source_file entry,
     call_step source_file g entry = g
     ∨ (call_step source_file g entry
        = append_dependency
            {| FileDependency.source := source_file;
               FileDependency.target := entry.1;
               FileDependency.reason := "call";
               FileDependency.line := None |} g
        ∧ entry.1 ≠ source_file
        ∧ ∀ e, e ∈ dependencies g →
               ¬ (FileDependency.source e = source_file
                  ∧ FileDependency.target e = entry.1)))
  ∧ calls_guarded (dependencies (analyze_dependencies g)).
Proof.
  split.
  - intros source_file entry. unfold call_step.
    case_bool_decide as Hself; [by left|].
    destruct (_has_dependency g source_file entry.1) eqn:Hhas; simpl; [by left|].
    right. split; [done|]. split; [done|].
    by apply has_dependency_false.
  - apply analyze_dependencies_invariant.
    + intros deps source_file symbols include target_file _ _ _ Hdeps.
      apply calls_guarded_snoc; [done|]. simpl. discriminate.
    + intros deps source_file symbols called_func target_file symbol
        _ _ _ Hself Hnew Hdeps.
      apply calls_guarded_snoc; [done|]. simpl. intros _. split; [done|].
      intros e He [Hs Ht]. by apply (Hnew e He).
    + apply calls_guarded_nil.
Qed.

(** C4: a pass starts from no edges, so its result does not depend on the
    edges that were there, and a second pass on the result of a first
    gives the same graph, with the same list of edges. *)
Theorem analyze_dependencies_idempotent `{PathFlavour} (g : DependencyGraph) :
  (∀ deps, analyze_dependencies (set_dependencies deps g) = analyze_dependencies g)
  ∧ analyze_dependencies (analyze_dependencies g) = analyze_dependencies g
  ∧ dependencies (analyze_dependencies (analyze_dependencies g))
    = dependencies (analyze_dependencies g).
Proof.
  assert (∀ deps, analyze_dependencies (set_dependencies deps g)
                  = analyze_dependencies g) as Hclear by reflexivity.
  split; [done|].
  assert (analyze_dependencies (analyze_dependencies g) = analyze_dependencies g)
    as Hidem.
  { rewrite (analyze_dependencies_frame g) at 1. apply Hclear. }
  split; [done|]. by rewrite Hidem.
Qed.

(** ** Include resolution *)

Section resolve_facts.
Context `{PathFlavour}.

Lemma first_where_Some p xs x :
  first_where p xs = Some x → x ∈ xs ∧ p x = true.
Proof.
  unfold first_where. intros [Hin Hp]%find_some.
  split; [by apply list_elem_of_In | done].
Qed.

Lemma resolve_include_in_keys g include_path source_file target_file :
  (∀ file_name file_path,
     file_index g !! file_name = Some file_path →
     file_path ∈ Dict.keys (files g)) →
  _resolve_include g include_path source_file = Some target_file →
  target_file ∈ Dict.keys (files g).
Proof.
  intros Hindex. unfold _resolve_include.
  destruct (Dict.contains include_path (files g)) eqn:H1.
  { intros [= <-]. by apply dict_contains_spec. }
  destruct (file_index g !! path_name include_path) as [file_path|] eqn:H2.
  { intros [= <-]. by eapply Hindex. }
  destruct (first_where _ (Dict.keys (files g))) as [file_path|] eqn:H3.
  { intros [= <-]. by apply first_where_Some in H3 as [? _]. }
  destruct (Dict.contains (path_parent_join source_file include_path) (files g))
    eqn:H4.
  { intros [= <-]. by apply dict_contains_spec. }
  intros H5. by apply first_where_Some in H5 as [? _].
Qed.

Lemma entries_for_elem file_path symbols symbol_name file_path' symbol :
  (file_path', symbol) ∈ entries_for file_path symbols symbol_name →
  file_path' = file_path ∧ symbol ∈ indexed_symbols symbols.
Proof.
  unfold entries_for. intros (x & [= -> ->] & Hx)%list_elem_of_fmap.
  split; [done|]. apply list_elem_of_In in Hx. apply filter_In in Hx as [Hx _].
  by apply list_elem_of_In.
Qed.

Lemma indexes_closed_add_file file_path symbols g :
  indexes_closed g → indexes_closed (add_file file_path symbols g).
Proof.
  intros [Hkeys Hfile Hsym]. split.
  - by apply dict_keys_set_NoDup.
  - intros file_name file_path'. simpl. rewrite lookup_insert.
    case_decide.
    + intros [= <-]. apply dict_keys_set_elem. by left.
    + intros Hl. apply dict_keys_set_elem. right. by eapply Hfile.
  - intros symbol_name file_path' symbol. rewrite add_file_entries.
    intros [Hold|Hnew]%elem_of_app; apply add_file_keys.
    + right. by eapply Hsym.
    + left. by apply entries_for_elem in Hnew as [-> _].
Qed.

Lemma indexes_closed_set_dependencies deps g :
  indexes_closed g → indexes_closed (set_dependencies deps g).
Proof. intros [Hkeys Hfile Hsym]. by split. Qed.

Lemma reachable_indexes_closed g : reachable g → indexes_closed g.
Proof.
  induction 1 as [|g file_path symbols _ IH|g _ IH].
  - split; [apply NoDup_nil_2|done|].
    intros symbol_name file_path symbol Hin. by apply elem_of_nil in Hin.
  - by apply indexes_closed_add_file.
  - rewrite analyze_dependencies_frame. by apply indexes_closed_set_dependencies.
Qed.

End resolve_facts.

(** C5: an include path that is a key of [files] resolves to itself, by
    the exact match, whatever the other strategies would find; and the
    resolver is the five strategies tried in order, the first match
    winning. *)
Theorem resolve_include_exact_first `{PathFlavour} (g : DependencyGraph)
    (include_path source_file : string) :
  include_path ∈ Dict.keys (files g) →
  _resolve_include g include_path source_file = Some include_path
  ∧ ResolverSpec.exact_match g include_path source_file = Some include_path
  ∧ ∀ q s, _resolve_include g q s
           = ResolverSpec.first_match ResolverSpec.strategies g q s.
Proof.
  intros Hkey. split; [|split].
  - unfold _resolve_include.
    by rewrite (proj2 (dict_contains_spec include_path (files g)) Hkey).
  - unfold ResolverSpec.exact_match. by rewrite bool_decide_eq_true_2.
  - intros q s. unfold _resolve_include. simpl.
    unfold ResolverSpec.exact_match, ResolverSpec.basename_match,
      ResolverSpec.suffix_match, ResolverSpec.relative_match,
      ResolverSpec.rescan_match, Dict.contains, first_where.
    case_bool_decide; [done|].
    destruct (file_index g !! path_name q); [done|].
    destruct (find _ (Dict.keys (files g))); [done|].
    case_bool_decide; [done|].
    by destruct (find _ (Dict.keys (files g))).
Qed.

(** With two [Utils.h], the basename index points to the one added last,
    and the path of the first still resolves to the first. *)
Lemma resolve_include_exact_first_witness :
  file_index collision_graph !! "Utils.h" = Some "b/Utils.h"
  ∧ _resolve_include collision_graph "a/Utils.h" "main.cpp" = Some "a/Utils.h".
Proof.
  split; [vm_compute; reflexivity|].
  apply (resolve_include_exact_first collision_graph "a/Utils.h" "main.cpp").
  vm_compute. apply list_elem_of_here.
Defined.

(** C6: in a graph reached through the analyzer's methods, every edge of a
    pass has its source and its target among the keys of [files], and comes
    from an include that resolved to its target or from a called name
    indexed to its target; nothing else adds an edge. *)
Theorem analyze_edges_reference_files `{PathFlavour} (g : DependencyGraph) :
  reachable g →
  Forall
    (λ d, FileDependency.source d ∈ Dict.keys (files (analyze_dependencies g))
          ∧ FileDependency.target d ∈ Dict.keys (files (analyze_dependencies g))
          ∧ edge_origin g d)
    (dependencies (analyze_dependencies g)).
Proof.
  intros [Hkeys Hfile Hsym]%reachable_indexes_closed.
  assert (files (analyze_dependencies g) = files g) as ->
    by (by rewrite analyze_dependencies_frame).
  apply analyze_dependencies_invariant.
  - intros deps source_file symbols include target_file Hin Hinc Hres Hdeps.
    apply Forall_app. split; [done|]. apply Forall_singleton. simpl.
    split; [by eapply dict_elem_keys|].
    split; [by eapply resolve_include_in_keys|].
    exists symbols. split; [done|]. left. split; [done|]. by exists include.
  - intros deps source_file symbols called_func target_file symbol
      Hin Hcall Hentry _ _ Hdeps.
    apply Forall_app. split; [done|]. apply Forall_singleton. simpl.
    split; [by eapply dict_elem_keys|].
    split; [by eapply Hsym|].
    exists symbols. split; [done|]. right. split; [done|].
    by exists called_func, symbol.
  - apply Forall_nil_2.
Qed.

Lemma analyze_edges_reference_files_witness :
  reachable example_graph
  ∧ Forall
      (λ d, FileDependency.source d
              ∈ Dict.keys (files (analyze_dependencies example_graph))
            ∧ FileDependency.target d
              ∈ Dict.keys (files (analyze_dependencies example_graph))
            ∧ edge_origin example_graph d)
      (dependencies (analyze_dependencies example_graph)).
Proof.
  assert (reachable example_graph) as Hreach
    by (do 3 apply reachable_add_file; apply reachable_init).
  split; [exact Hreach|].
  exact (analyze_edges_reference_files example_graph Hreach).
Defined.

(** The pass over the example: the include of [util.h] resolves, the one of
    [<vector>] does not; the call of [helper] is covered by the include
    edge, the call of [log_msg] gives a Call edge, [printf] is defined
    nowhere. *)
Example analyze_example :
  dependencies (analyze_dependencies example_graph)
  = [ {| FileDependency.source := "src/main.cpp";
         FileDependency.target := "src/util.h";
         FileDependency.reason := "include";
         FileDependency.line := Some 1 |};
      {| FileDependency.source := "src/main.cpp";
         FileDependency.target := "src/log.cpp";
         FileDependency.reason := "call";
         FileDependency.line := None |} ].
Proof. vm_compute. reflexivity. Qed.

(** ** Metrics *)

(** C8: for a file of the graph, the [coupling] entry of its metrics is the
    number of entries of [get_dependencies_of] plus that of
    [get_dependents_of]; the former are the targets of the edges from the
    file, one per edge, the latter the sources of the edges to it. *)
Theorem metrics_coupling (g : DependencyGraph) (file_path : string) :
  file_path ∈ Dict.keys (files g) →
  Dict.get "coupling" (get_file_metrics g file_path)
  = Some (PyInt (len (get_dependencies_of g file_path)
                 + len (get_dependents_of g file_path)))
  ∧ get_dependencies_of g file_path
    = FileDependency.target <$>
        filter (λ d, FileDependency.source d = file_path) (dependencies g)
  ∧ get_dependents_of g file_path
    = FileDependency.source <$>
        filter (λ d, FileDependency.target d = file_path) (dependencies g).
Proof.
  intros Hkey. split; [|split].
  - unfold get_file_metrics.
    apply dict_get_is_Some in Hkey as [symbols ->]. reflexivity.
  - unfold get_dependencies_of. f_equal.
    induction (dependencies g) as [|d l IH]; [done|]. simpl.
    rewrite filter_cons. case_bool_decide; case_decide; try done; by f_equal.
  - unfold get_dependents_of. f_equal.
    induction (dependencies g) as [|d l IH]; [done|]. simpl.
    rewrite filter_cons. case_bool_decide; case_decide; try done; by f_equal.
Qed.

Lemma metrics_coupling_witness :
  Dict.get "coupling" (get_file_metrics star_graph "hub.cpp") = Some (PyInt 4)
  ∧ get_dependencies_of star_graph "hub.cpp" = ["l1.h"; "l2.h"; "l3.h"; "l4.h"]
  ∧ get_dependents_of star_graph "hub.cpp" = [].
Proof.
  assert ("hub.cpp" ∈ Dict.keys (files star_graph)) as Hkey
    by (vm_compute; do 4 apply list_elem_of_further; apply list_elem_of_here).
  destruct (metrics_coupling star_graph "hub.cpp" Hkey) as (Hc & Hout & Hin).
  split; [|split].
  - rewrite Hc. vm_compute. reflexivity.
  - vm_compute. reflexivity.
  - vm_compute. reflexivity.
Defined.

(** C10: for a path that is no key of [files], [get_file_metrics] returns
    the empty dictionary: no key of it has a value. *)
Theorem metrics_unknown_file (g : DependencyGraph) (file_path : string) :
  file_path ∉ Dict.keys (files g) →
  get_file_metrics g file_path = []
  ∧ ∀ key, Dict.get key (get_file_metrics g file_path) = None.
Proof.
  intros Hkey. apply dict_get_None in Hkey.
  unfold get_file_metrics. rewrite Hkey. by split.
Qed.

Lemma metrics_unknown_file_witness :
  get_file_metrics star_graph "missing.h" = []
  ∧ ∀ key, Dict.get key (get_file_metrics star_graph "missing.h") = None.
Proof.
  apply (metrics_unknown_file star_graph "missing.h").
  apply dict_get_None. vm_compute. reflexivity.
Defined.

(** ** Ranking by coupling *)

Section sorted_reverse_facts.
Context {A : Type} (key : A → Z).

Lemma insert_desc_perm x l : insert_desc key x l ≡ₚ x :: l.
Proof.
  induction l as [|y l IH]; simpl; [done|].
  destruct (key x <? key y); [|done].
  rewrite IH. apply Permutation_swap.
Qed.

Lemma sorted_reverse_perm l : sorted_reverse key l ≡ₚ l.
Proof.
  induction l as [|x l IH]; simpl; [done|].
  rewrite insert_desc_perm. by rewrite IH.
Qed.

Lemma insert_desc_sorted x l :
  StronglySorted (λ a b, key b ≤ key a) l →
  StronglySorted (λ a b, key b ≤ key a) (insert_desc key x l).
Proof.
  induction l as [|y l IH]; simpl; intros Hl.
  - repeat constructor.
  - apply StronglySorted_inv in Hl as [Hl Hy].
    destruct (Z.ltb_spec (key x) (key y)) as [Hlt|Hge].
    + constructor; [by apply IH|].
      rewrite insert_desc_perm. constructor; [lia|done].
    + constructor; [by constructor|].
      constructor; [lia|].
      eapply Forall_impl; [exact Hy|]. simpl. intros z Hz. lia.
Qed.

Lemma sorted_reverse_sorted l :
  StronglySorted (λ a b, key b ≤ key a) (sorted_reverse key l).
Proof.
  induction l as [|x l IH]; simpl; [constructor|].
  by apply insert_desc_sorted.
Qed.

(** Stability: the elements of one key keep their order. *)
Lemma insert_desc_stable c x l :
  filter (λ a, key a = c) (insert_desc key x l)
  = filter (λ a, key a = c) (x :: l).
Proof.
  induction l as [|y l IH]; simpl; [done|].
  destruct (Z.ltb_spec (key x) (key y)) as [Hlt|Hge]; [|done].
  rewrite filter_cons, IH, !filter_cons.
  repeat case_decide; try done; lia.
Qed.

Lemma sorted_reverse_stable c l :
  filter (λ a, key a = c) (sorted_reverse key l) = filter (λ a, key a = c) l.
Proof.
  induction l as [|x l IH]; simpl; [done|].
  rewrite insert_desc_stable, !filter_cons, IH. done.
Qed.

End sorted_reverse_facts.

Lemma slice_to_take {A} (l : list A) (stop : Z) :
  0 ≤ stop → slice_to l stop = take (Z.to_nat stop) l.
Proof.
  intros Hstop. unfold slice_to.
  by destruct (Z.ltb_spec stop 0) as [?|_]; [lia|].
Qed.

Lemma dict_set_notin {V} (k : string) (v : V) (d : list (string * V)) :
  k ∉ Dict.keys d → Dict.set k v d = d ++ [(k, v)].
Proof.
  unfold Dict.keys. induction d as [|[k0 v0] d IH]; csimpl; [done|].
  intros [Hne Hin]%not_elem_of_cons.
  rewrite decide_False by done. by rewrite IH.
Qed.

Lemma dict_fill {V} (f : string → V) (ks : list string) (acc : list (string * V)) :
  NoDup (Dict.keys acc ++ ks) →
  foldl (λ d k, Dict.set k (f k) d) acc ks = acc ++ ((λ k, (k, f k)) <$> ks).
Proof.
  revert acc. induction ks as [|k ks IH]; intros acc Hnd; csimpl.
  - by rewrite app_nil_r.
  - assert (k ∉ Dict.keys acc) as Hk.
    { apply NoDup_app in Hnd as (_ & Hdisj & _). intros Hin.
      apply (Hdisj k Hin). apply list_elem_of_here. }
    rewrite dict_set_notin by done. rewrite IH.
    + by rewrite <- app_assoc.
    + unfold Dict.keys in *. rewrite fmap_app. csimpl.
      by rewrite <- app_assoc.
Qed.

Lemma coupling_of_keys (g : DependencyGraph) :
  NoDup (Dict.keys (files g)) →
  coupling_of g = (λ file_path, (file_path, coupling g file_path))
                    <$> Dict.keys (files g).
Proof.
  intros Hnd.
  exact (dict_fill (coupling g) (Dict.keys (files g)) [] Hnd).
Qed.

(** C7: [get_most_coupled_files] cuts a ranking of all the files with their
    coupling, in descending order of coupling, in which the files of one
    coupling keep the order in which they were added.  For a [limit] that
    is not negative the cut keeps the first [limit] entries (all of them
    when there are fewer), so at most [limit]; a negative [limit] is a
    slice bound counted from the end: the last [-limit] entries of the
    ranking are dropped and the others are returned. *)
Theorem most_coupled_ranked (g : DependencyGraph) (limit : Z) :
  NoDup (Dict.keys (files g)) →
  let all_files :=
    (λ file_path, (file_path, coupling g file_path)) <$> Dict.keys (files g) in
  ∃ ranking,
    ranking ≡ₚ all_files
    ∧ StronglySorted (λ a b, b.2 ≤ a.2) ranking
    ∧ (∀ c, filter (λ a, a.2 = c) ranking = filter (λ a, a.2 = c) all_files)
    ∧ (0 ≤ limit →
       get_most_coupled_files g limit = take (Z.to_nat limit) ranking
       ∧ len (get_most_coupled_files g limit) = Z.min limit (len (files g))
       ∧ len (get_most_coupled_files g limit) ≤ limit)
    ∧ (limit < 0 →
       get_most_coupled_files g limit
       = take (length ranking - Z.to_nat (- limit)) ranking
       ∧ len (get_most_coupled_files g limit)
         = Z.max 0 (len (files g) + limit)).
Proof.
  intros Hnd all_files.
  exists (sorted_reverse snd all_files).
  assert (length (sorted_reverse snd all_files) = length (files g)) as Hlen.
  { rewrite (Permutation_length (sorted_reverse_perm snd all_files)).
    unfold all_files, Dict.keys. by rewrite !length_fmap. }
  split; [apply sorted_reverse_perm|].
  split; [apply sorted_reverse_sorted|].
  split; [intros c; apply sorted_reverse_stable|].
  unfold get_most_coupled_files. rewrite coupling_of_keys by done.
  fold all_files. split.
  - intros Hlimit. rewrite slice_to_take by done.
    split; [done|]. unfold len. rewrite length_take, Hlen. lia.
  - intros Hlimit. unfold slice_to.
    destruct (Z.ltb_spec limit 0) as [_|?]; [|lia].
    assert (Z.to_nat (len (sorted_reverse snd all_files) + limit)
            = (length (sorted_reverse snd all_files) - Z.to_nat (- limit))%nat)
      as -> by (unfold len; lia).
    split; [done|]. unfold len. rewrite length_take, Hlen. lia.
Qed.

(** The star: the hub, added last, comes first; the leaves follow in the
    order they were added. *)
Example most_coupled_star :
  get_most_coupled_files star_graph 2 = [("hub.cpp", 4); ("l1.h", 1)].
Proof. vm_compute. reflexivity. Qed.

(** A negative [limit] is a slice bound counted from the end. *)
Example most_coupled_negative_limit :
  get_most_coupled_files star_graph (-1)
  = [("hub.cpp", 4); ("l1.h", 1); ("l2.h", 1); ("l3.h", 1)].
Proof. vm_compute. reflexivity. Qed.

(** C7 fails as stated for a negative [limit]: on the star of five files,
    [get_most_coupled_files(-1)] returns four entries, the ranking without
    its last entry, which is neither at most [-1] entries nor the cut of
    the ranking after its first [limit] entries (there are none). *)
Lemma most_coupled_negative_limit_not_truncated :
  len (get_most_coupled_files star_graph (-1)) = 4
  ∧ ¬ len (get_most_coupled_files star_graph (-1)) ≤ -1
  ∧ ¬ ∃ ranking,
        get_most_coupled_files star_graph (-1) = take (Z.to_nat (-1)) ranking.
Proof.
  assert (get_most_coupled_files star_graph (-1)
          = [("hub.cpp", 4); ("l1.h", 1); ("l2.h", 1); ("l3.h", 1)]) as ->
    by (vm_compute; reflexivity).
  split; [done|]. split.
  - unfold len. simpl. lia.
  - intros [ranking Heq]. simpl in Heq. discriminate Heq.
Qed.

Lemma most_coupled_ranked_witness :
  let all_files :=
    (λ file_path, (file_path, coupling star_graph file_path))
      <$> Dict.keys (files star_graph) in
  ∃ ranking,
    ranking ≡ₚ all_files
    ∧ StronglySorted (λ a b, b.2 ≤ a.2) ranking
    ∧ (∀ c, filter (λ a, a.2 = c) ranking = filter (λ a, a.2 = c) all_files)
    ∧ get_most_coupled_files star_graph 2 = take (Z.to_nat 2) ranking
    ∧ len (get_most_coupled_files star_graph 2) = 2.
Proof.
  destruct (most_coupled_ranked star_graph 2) as (ranking & Hp & Hs & Hst & Hnn & _).
  { vm_compute. repeat (constructor; [set_solver|]). constructor. }
  exists ranking. do 3 (split; [done|]).
  destruct Hnn as (Heq & Hlen & _); [lia|].
  split; [exact Heq|]. rewrite Hlen. vm_compute. reflexivity.
Defined.

(** ** Export: the type of a node *)

Lemma header_suffix_spec p :
  Str.endswith_any p [".h"; ".hpp"; ".hh"] = true ↔ header_suffix p.
Proof.
  rewrite endswith_any_spec. unfold header_suffix. split.
  - intros (x & Hx & Hs). set_solver.
  - intros [?|[?|?]]; eexists; (split; [|eassumption]); set_solver.
Qed.

Lemma source_suffix_spec p :
  Str.endswith_any p [".cpp"; ".cc"; ".cxx"; ".c"] = true ↔ source_suffix p.
Proof.
  rewrite endswith_any_spec. unfold source_suffix. split.
  - intros (x & Hx & Hs). set_solver.
  - intros [?|[?|[?|?]]]; eexists; (split; [|eassumption]); set_solver.
Qed.

Lemma cmake_pattern_spec p :
  Str.contains "CMakeLists" p || Str.endswith p ".cmake" = true ↔ cmake_pattern p.
Proof.
  unfold cmake_pattern.
  rewrite orb_true_iff, contains_spec, endswith_spec. done.
Qed.

Lemma file_type_rules (p : string) :
  file_type p ∈ ["header"; "source"; "cmake"; "json"; "other"]
  ∧ (header_suffix p → file_type p = "header")
  ∧ (¬ header_suffix p → source_suffix p → file_type p = "source")
  ∧ (¬ header_suffix p → ¬ source_suffix p → cmake_pattern p →
     file_type p = "cmake")
  ∧ (¬ header_suffix p → ¬ source_suffix p → ¬ cmake_pattern p →
     is_suffix ".json" p → file_type p = "json")
  ∧ (¬ header_suffix p → ¬ source_suffix p → ¬ cmake_pattern p →
     ¬ is_suffix ".json" p → file_type p = "other").
Proof.
  unfold file_type.
  pose proof (header_suffix_spec p) as Hh.
  pose proof (source_suffix_spec p) as Hs.
  pose proof (cmake_pattern_spec p) as Hc.
  pose proof (endswith_spec p ".json") as Hj.
  destruct (Str.endswith_any p [".h"; ".hpp"; ".hh"]).
  { split; [set_solver|]. naive_solver. }
  assert (¬ header_suffix p) by (intros ?%Hh; done).
  destruct (Str.endswith_any p [".cpp"; ".cc"; ".cxx"; ".c"]).
  { split; [set_solver|]. naive_solver. }
  assert (¬ source_suffix p) by (intros ?%Hs; done).
  destruct (Str.contains "CMakeLists" p || Str.endswith p ".cmake").
  { split; [set_solver|]. naive_solver. }
  assert (¬ cmake_pattern p) by (intros ?%Hc; done).
  destruct (Str.endswith p ".json").
  { split; [set_solver|]. naive_solver. }
  assert (¬ is_suffix ".json" p) by (intros ?%Hj; done).
  split; [set_solver|]. naive_solver.
Qed.

(** C9, as the code has it: the type of every exported node is one of
    [header], [source], [cmake], [json], [other], decided on the whole file
    path by the first rule that applies: a suffix [.h], [.hpp] or [.hh]
    gives [header]; else a suffix [.cpp], [.cc], [.cxx] or [.c] gives
    [source]; else [CMakeLists] anywhere in the path, or the suffix
    [.cmake], gives [cmake]; else the suffix [.json] gives [json]; else
    [other]. *)
Theorem export_node_type `{PathFlavour} (g : DependencyGraph) :
  Forall
    (λ n,
       let p := Node.id n in
       Node.type n ∈ ["header"; "source"; "cmake"; "json"; "other"]
       ∧ (header_suffix p → Node.type n = "header")
       ∧ (¬ header_suffix p → source_suffix p → Node.type n = "source")
       ∧ (¬ header_suffix p → ¬ source_suffix p → cmake_pattern p →
          Node.type n = "cmake")
       ∧ (¬ header_suffix p → ¬ source_suffix p → ¬ cmake_pattern p →
          is_suffix ".json" p → Node.type n = "json")
       ∧ (¬ header_suffix p → ¬ source_suffix p → ¬ cmake_pattern p →
          ¬ is_suffix ".json" p → Node.type n = "other"))
    (ExportDoc.nodes (export_to_dict g))
  ∧ Node.id <$> ExportDoc.nodes (export_to_dict g) = Dict.keys (files g).
Proof.
  split.
  - unfold export_to_dict. simpl. apply Forall_fmap, Forall_forall.
    intros [file_path symbols] _. simpl. apply file_type_rules.
  - unfold export_to_dict, Dict.keys. simpl. rewrite <- list_fmap_compose.
    done.
Qed.

(** C9 fails as stated: a build script gets the type [cmake] and a JSON
    file the type [json]; and a text file in a directory called
    [CMakeLists] gets the type [cmake], while its name, [notes.txt], neither
    contains [CMakeLists] nor has one of the suffixes, so that the rules as
    worded give [other]. *)
Lemma export_node_type_by_path_not_name :
  Node.type <$>
    ExportDoc.nodes
      (export_to_dict
         (add_file "data.json" (no_symbols "data.json")
            (add_file "CMakeLists.txt" (no_symbols "CMakeLists.txt")
               empty_graph)))
  = ["cmake"; "json"]
  ∧ ∃ n,
      ExportDoc.nodes
        (export_to_dict
           (add_file "CMakeLists/notes.txt" (no_symbols "CMakeLists/notes.txt")
              empty_graph)) = [n]
      ∧ Node.name n = "notes.txt"
      ∧ Node.type n = "cmake"
      ∧ ClassifierSpec.node_type (Node.id n) = "other"
      ∧ Node.type n ≠ ClassifierSpec.node_type (Node.id n).
Proof.
  split; [vm_compute; reflexivity|].
  eexists. split; [vm_compute; reflexivity|]. simpl.
  repeat split; try (vm_compute; reflexivity).
  vm_compute. discriminate.
Qed.

(** ** Cycles *)

Section chain_facts.
Context (edge : string → string → Prop).

Lemma chain_app (x y : list string) :
  chain edge (x ++ y)
  ↔ chain edge x ∧ chain edge y
    ∧ ∀ u v, last x = Some u → head y = Some v → edge u v.
Proof.
  induction x as [|a [|b x] IH].
  - simpl. naive_solver.
  - destruct y as [|v y]; simpl; naive_solver.
  - change (chain edge ((a :: b :: x) ++ y))
      with (edge a b ∧ chain edge ((b :: x) ++ y)).
    change (chain edge (a :: b :: x)) with (edge a b ∧ chain edge (b :: x)).
    change (last (a :: b :: x)) with (last (b :: x)).
    rewrite IH. naive_solver.
Qed.

Lemma chain_snoc (l : list string) (u v : string) :
  chain edge l → last l = Some u → edge u v → chain edge (l ++ [v]).
Proof.
  intros Hl Hlast Huv. apply chain_app. split; [done|]. split; [done|].
  intros u' v' Hu' [= <-]. congruence.
Qed.

Lemma simple_cycle_head (c : list string) :
  simple_cycle edge c → ∃ start rest, c = start :: rest.
Proof. destruct c as [|start rest]; [done|]. eauto. Qed.

Lemma simple_cycle_closed (start : string) (rest : list string) (u : string) :
  simple_cycle edge (start :: rest) →
  last (start :: rest) = Some u → edge u start.
Proof.
  intros [_ Hchain] Hlast.
  apply chain_app in Hchain as (_ & _ & Hedge). by apply Hedge.
Qed.

(** A simple cycle started at another of its nodes is a simple cycle. *)
Lemma simple_cycle_rotate (l1 : list string) (s : string) (l2 : list string) :
  simple_cycle edge (l1 ++ s :: l2) → simple_cycle edge (s :: l2 ++ l1).
Proof.
  destruct l1 as [|a l1]; [by rewrite app_nil_r|].
  intros [Hnd Hchain]. split.
  - assert (s :: l2 ++ a :: l1 ≡ₚ (a :: l1) ++ s :: l2) as ->
      by apply (Permutation_app_comm (s :: l2) (a :: l1)).
    done.
  - change (((a :: l1) ++ s :: l2) ++ [a])
      with ((a :: l1 ++ s :: l2) ++ [a]) in Hchain.
    replace ((a :: l1 ++ s :: l2) ++ [a])
      with ((a :: l1) ++ ((s :: l2) ++ [a])) in Hchain
      by (simpl; by rewrite <- app_assoc).
    apply chain_app in Hchain as (H1 & H2 & H12).
    apply chain_app in H2 as (H2 & _ & H21).
    replace ((s :: l2 ++ a :: l1) ++ [s])
      with ((s :: l2) ++ ((a :: l1) ++ [s]))
      by (simpl; by rewrite <- app_assoc).
    apply chain_app. split; [done|]. split.
    + apply chain_app. split; [done|]. split; [done|].
      intros u v Hu [= <-]. by apply H12.
    + intros u v Hu [= <-]. by apply H21.
Qed.

End chain_facts.

(** Two simple cycles that are rotations of one another and start at the
    same node are the same list. *)
Lemma rotation_same_start (s : string) (t t' : list string) :
  NoDup (s :: t) → rotation (s :: t) (s :: t') → t = t'.
Proof.
  intros Hnd (l1 & l2 & H1 & H2).
  destruct l1 as [|a l1].
  { simpl in H1. rewrite app_nil_r in H2. congruence. }
  destruct l2 as [|b l2].
  { rewrite app_nil_r in H1. simpl in H2. congruence. }
  simpl in H1, H2. injection H1 as <- ->. injection H2 as <- _.
  apply NoDup_cons in Hnd as [Hs _]. exfalso. apply Hs.
  apply elem_of_app. right. apply list_elem_of_here.
Qed.

Lemma rotation_elem (c c' : list string) (x : string) :
  rotation c c' → x ∈ c' → x ∈ c.
Proof. intros (l1 & l2 & -> & ->). rewrite !elem_of_app. tauto. Qed.

Lemma rotation_sym (c c' : list string) : rotation c c' → rotation c' c.
Proof. intros (l1 & l2 & -> & ->). by exists l2, l1. Qed.


(** *** The graph that is built *)

Lemma add_node_nodes n G x :
  x ∈ DiGraph.nodes (DiGraph.add_node n G) ↔ x = n ∨ x ∈ DiGraph.nodes G.
Proof.
  unfold DiGraph.add_node. case_bool_decide; simpl.
  - naive_solver.
  - rewrite elem_of_app, list_elem_of_singleton. naive_solver.
Qed.

Lemma add_node_edges n G :
  DiGraph.edges (DiGraph.add_node n G) = DiGraph.edges G.
Proof. unfold DiGraph.add_node. by case_bool_decide. Qed.

Lemma add_node_NoDup n G :
  NoDup (DiGraph.nodes G) → NoDup (DiGraph.nodes (DiGraph.add_node n G)).
Proof.
  intros Hnd. unfold DiGraph.add_node. case_bool_decide; simpl; [done|].
  apply NoDup_app. split; [done|]. split; [|apply NoDup_singleton].
  by intros x Hx ->%list_elem_of_singleton.
Qed.

Lemma add_edge_nodes u v G x :
  x ∈ DiGraph.nodes (DiGraph.add_edge u v G)
  ↔ x = u ∨ x = v ∨ x ∈ DiGraph.nodes G.
Proof.
  unfold DiGraph.add_edge. case_bool_decide; simpl;
    rewrite !add_node_nodes; naive_solver.
Qed.

Lemma add_edge_edges u v G e :
  e ∈ DiGraph.edges (DiGraph.add_edge u v G)
  ↔ e = (u, v) ∨ e ∈ DiGraph.edges G.
Proof.
  unfold DiGraph.add_edge. case_bool_decide as Hin; simpl.
  - rewrite !add_node_edges in *. naive_solver.
  - rewrite elem_of_app, list_elem_of_singleton, !add_node_edges. naive_solver.
Qed.

Lemma add_edge_wf u v G : digraph_wf G → digraph_wf (DiGraph.add_edge u v G).
Proof.
  intros [Hn He Hc]. split.
  - unfold DiGraph.add_edge. case_bool_decide; simpl;
      by do 2 apply add_node_NoDup.
  - unfold DiGraph.add_edge. case_bool_decide as Hin; simpl;
      rewrite !add_node_edges in *; [done|].
    apply NoDup_app. split; [done|]. split; [|apply NoDup_singleton].
    by intros x Hx ->%list_elem_of_singleton.
  - intros a b [[= -> ->]|Hab]%add_edge_edges; rewrite !add_edge_nodes.
    + naive_solver.
    + destruct (Hc a b Hab). naive_solver.
Qed.

Lemma build_digraph_spec (g : DependencyGraph) :
  digraph_wf (build_digraph g)
  ∧ ∀ u v, digraph_edge (build_digraph g) u v ↔ depends g u v.
Proof.
  unfold build_digraph, depends, digraph_edge.
  induction (dependencies g) as [|d deps IH] using rev_ind.
  - simpl. split.
    + split; simpl; [apply NoDup_nil_2..|]. intros u v Hin.
      by apply elem_of_nil in Hin.
    + intros u v. split; [by intros ?%elem_of_nil|].
      intros (d & Hd & _). by apply elem_of_nil in Hd.
  - rewrite foldl_app. simpl. destruct IH as [Hwf Hedges]. split.
    + by apply add_edge_wf.
    + intros u v. rewrite add_edge_edges, Hedges. split.
      * intros [[= -> ->]|(e & He & Hs & Ht)].
        -- exists d. split; [|done]. apply elem_of_app. right.
           apply list_elem_of_here.
        -- exists e. split; [|done]. apply elem_of_app. by left.
      * intros (e & [He|He]%elem_of_app & <- & <-).
        -- right. by exists e.
        -- apply list_elem_of_singleton in He as ->. by left.
Qed.

(** *** The enumeration *)

Section enumeration.
Context (G : DiGraph.t).

Lemma has_edge_spec u v : DiGraph.has_edge G u v = true ↔ digraph_edge G u v.
Proof. unfold DiGraph.has_edge. apply bool_decide_eq_true. Qed.

Lemma successors_spec u v : v ∈ DiGraph.successors G u ↔ digraph_edge G u v.
Proof.
  unfold DiGraph.successors, digraph_edge. rewrite list_elem_of_fmap. split.
  - intros ([a b] & -> & Hin). apply list_elem_of_In, filter_In in Hin as [Hin Ha].
    apply bool_decide_eq_true in Ha. simpl in *. subst.
    by apply list_elem_of_In.
  - intros Hin. exists (u, v). split; [done|].
    apply list_elem_of_In, filter_In. split; [by apply list_elem_of_In|].
    by apply bool_decide_eq_true.
Qed.

Lemma cycles_from_elem fuel start allowed path cur c :
  c ∈ cycles_from G (S fuel) start allowed path cur
  ↔ (c = path ∧ digraph_edge G cur start)
    ∨ ∃ n, digraph_edge G cur n ∧ n ∈ allowed ∧ (n ∉ path)
           ∧ c ∈ cycles_from G fuel start allowed (path ++ [n]) n.
Proof.
  simpl. rewrite elem_of_app.
  assert (c ∈ (if DiGraph.has_edge G cur start then [path] else [])
          ↔ c = path ∧ digraph_edge G cur start) as ->.
  { destruct (DiGraph.has_edge G cur start) eqn:He.
    - apply has_edge_spec in He. rewrite list_elem_of_singleton. naive_solver.
    - split; [by intros ?%elem_of_nil|].
      intros [_ He']. apply has_edge_spec in He'. congruence. }
  match goal with
  | |- _ ∨ ?X ↔ _ ∨ ?Y => assert (X ↔ Y) as Hiff; [|tauto]
  end.
  rewrite list_elem_of_In, in_flat_map. split.
  - intros (n & Hn & Hc).
    apply list_elem_of_In, successors_spec in Hn.
    destruct (bool_decide (n ∈ allowed)) eqn:Ha; simpl in Hc; [|done].
    destruct (bool_decide (n ∈ path)) eqn:Hp; simpl in Hc; [done|].
    apply bool_decide_eq_true in Ha. apply bool_decide_eq_false in Hp.
    exists n. do 3 (split; [done|]). by apply list_elem_of_In.
  - intros (n & Hn & Ha & Hp & Hc). exists n.
    split; [by apply list_elem_of_In, successors_spec|].
    rewrite bool_decide_eq_true_2, bool_decide_eq_false_2 by done. simpl.
    by apply list_elem_of_In.
Qed.

(** Soundness: what is listed continues the path to a simple cycle. *)
Lemma cycles_from_sound fuel start allowed rest cur c :
  NoDup (start :: rest) →
  chain (digraph_edge G) (start :: rest) →
  last (start :: rest) = Some cur →
  c ∈ cycles_from G fuel start allowed (start :: rest) cur →
  simple_cycle (digraph_edge G) c
  ∧ ∃ post, c = (start :: rest) ++ post ∧ Forall (λ n, n ∈ allowed) post.
Proof.
  revert rest cur. induction fuel as [|fuel IH]; intros rest cur Hnd Hchain Hlast.
  { by intros ?%elem_of_nil. }
  intros [[-> Hclose]|(n & Hn & Ha & Hp & Hc)]%cycles_from_elem.
  - split.
    + split; [done|]. by eapply chain_snoc.
    + exists []. by rewrite app_nil_r.
  - change ((start :: rest) ++ [n]) with (start :: (rest ++ [n])) in Hc.
    apply IH in Hc as [Hcycle (post & -> & Hpost)].
    + split; [done|]. exists (n :: post). split.
      * simpl. by rewrite <- app_assoc.
      * by constructor.
    + change (start :: rest ++ [n]) with ((start :: rest) ++ [n]).
      apply NoDup_app. split; [done|]. split; [|apply NoDup_singleton].
      by intros x Hx ->%list_elem_of_singleton.
    + change (start :: rest ++ [n]) with ((start :: rest) ++ [n]).
      by eapply chain_snoc.
    + change (start :: rest ++ [n]) with ((start :: rest) ++ [n]).
      by rewrite last_snoc.
Qed.

(** Completeness: every way to close the path through allowed nodes is
    listed, given fuel for the nodes still to come. *)
Lemma cycles_from_complete post fuel start allowed path cur :
  last path = Some cur →
  chain (digraph_edge G) (path ++ post) →
  NoDup (path ++ post) →
  Forall (λ n, n ∈ allowed) post →
  (∀ u, last (path ++ post) = Some u → digraph_edge G u start) →
  (length post < fuel)%nat →
  path ++ post ∈ cycles_from G fuel start allowed path cur.
Proof.
  revert fuel path cur.
  induction post as [|n post IH]; intros fuel path cur Hlast Hchain Hnd Hall Hclose Hfuel.
  - destruct fuel as [|fuel]; [simpl in Hfuel; lia|].
    apply cycles_from_elem. left. rewrite app_nil_r in *. split; [done|].
    by apply Hclose.
  - destruct fuel as [|fuel]; [simpl in Hfuel; lia|].
    apply cycles_from_elem. right. exists n.
    apply Forall_cons in Hall as [Hn Hall].
    split; [|split; [done|split]].
    + apply chain_app in Hchain as (_ & _ & Hedge). by apply Hedge.
    + apply NoDup_app in Hnd as (_ & Hdisj & _). intros Hin.
      apply (Hdisj n Hin). apply list_elem_of_here.
    + replace (path ++ n :: post) with ((path ++ [n]) ++ post) in *
        by (by rewrite <- app_assoc).
      apply IH; try done.
      * by rewrite last_snoc.
      * simpl in Hfuel. lia.
Qed.

Lemma cycles_rooted_cons s rest :
  cycles_rooted G (s :: rest)
  = cycles_from G (S (length rest)) s rest [s] s ++ cycles_rooted G rest.
Proof. reflexivity. Qed.

Lemma cycles_rooted_sound order c :
  c ∈ cycles_rooted G order → simple_cycle (digraph_edge G) c.
Proof.
  induction order as [|s rest IH]; [by intros ?%elem_of_nil|].
  rewrite cycles_rooted_cons.
  intros [Hc|Hc]%elem_of_app; [|by apply IH].
  apply cycles_from_sound in Hc as [Hc _]; try done.
  apply NoDup_singleton.
Qed.

Lemma cycles_rooted_complete order c :
  simple_cycle (digraph_edge G) c →
  (∀ x, x ∈ c → x ∈ order) →
  ∃ c', rotation c c' ∧ c' ∈ cycles_rooted G order.
Proof.
  intros Hc. induction order as [|s rest IH]; intros Hsub.
  { destruct (simple_cycle_head _ _ Hc) as (x & t & ->).
    exfalso. eapply not_elem_of_nil, Hsub, list_elem_of_here. }
  destruct (decide (s ∈ c)) as [Hs|Hs].
  - apply list_elem_of_split in Hs as (l1 & l2 & ->).
    exists (s :: l2 ++ l1). split; [by exists l1, (s :: l2)|].
    pose proof (simple_cycle_rotate _ _ _ _ Hc) as Hrot.
    rewrite cycles_rooted_cons. apply elem_of_app. left.
    pose proof Hrot as [Hnd _].
    assert (Forall (λ n, n ∈ rest) (l2 ++ l1)) as Hrest.
    { apply Forall_forall. intros x Hx.
      assert (x ∈ s :: rest) as [->|Hin]%elem_of_cons; [|exfalso|done].
      - apply Hsub. rewrite elem_of_app, elem_of_cons.
        apply elem_of_app in Hx. tauto.
      - by apply NoDup_cons in Hnd as [? _]. }
    apply (cycles_from_complete (l2 ++ l1) (S (length rest)) s rest [s] s).
    + done.
    + destruct Hrot as [_ Hchain].
      apply chain_app in Hchain as (Hchain & _). exact Hchain.
    + exact Hnd.
    + exact Hrest.
    + intros u Hu. by apply (simple_cycle_closed _ s (l2 ++ l1) u).
    + apply NoDup_cons in Hnd as [_ Hnd].
      assert (l2 ++ l1 ⊆+ rest) as Hle.
      { apply NoDup_submseteq; [done|]. by apply Forall_forall. }
      apply submseteq_length in Hle. lia.
  - destruct IH as (c' & Hrot & Hin).
    + intros x Hx. pose proof (Hsub x Hx) as Hin.
      apply elem_of_cons in Hin as [->|Hin]; done.
    + exists c'. split; [done|]. rewrite cycles_rooted_cons.
      apply elem_of_app. by right.
Qed.

End enumeration.

(** *** Each cycle once *)

Lemma flat_map_bind {A B} (f : A → list B) (l : list A) :
  flat_map f l = l ≫= f.
Proof. induction l as [|x l IH]; [done|]. simpl. by rewrite IH. Qed.

Section enumeration_once.
Context (G : DiGraph.t).
Hypothesis G_wf : digraph_wf G.

Lemma successors_NoDup u : NoDup (DiGraph.successors G u).
Proof.
  unfold DiGraph.successors. destruct G_wf as [_ He _].
  induction He as [|[a b] l Hnotin Hnd IH]; simpl; [apply NoDup_nil_2|].
  case_bool_decide as Ha; simpl in *; [|done]. subst a.
  csimpl. apply NoDup_cons. split; [|done].
  intros ([a' b'] & Hb & Hin)%list_elem_of_fmap. simpl in Hb. subst b'.
  apply list_elem_of_In, filter_In in Hin as [Hin Ha'].
  apply bool_decide_eq_true in Ha'. simpl in Ha'. subst a'.
  by apply Hnotin, list_elem_of_In.
Qed.

Lemma cycles_from_prefix fuel start allowed path cur c :
  c ∈ cycles_from G fuel start allowed path cur → ∃ post, c = path ++ post.
Proof.
  revert path cur. induction fuel as [|fuel IH]; intros path cur.
  { by intros ?%elem_of_nil. }
  intros [[-> _]|(n & _ & _ & _ & Hc)]%cycles_from_elem.
  - exists []. by rewrite app_nil_r.
  - apply IH in Hc as [post ->]. exists (n :: post). by rewrite <- app_assoc.
Qed.

Lemma cycles_from_NoDup fuel start allowed path cur :
  NoDup (cycles_from G fuel start allowed path cur).
Proof.
  revert path cur. induction fuel as [|fuel IH]; intros path cur; simpl.
  { apply NoDup_nil_2. }
  apply NoDup_app. split; [|split].
  - destruct (DiGraph.has_edge G cur start);
      [apply NoDup_singleton | apply NoDup_nil_2].
  - intros c Hc Hc'.
    assert (c = path) as ->.
    { destruct (DiGraph.has_edge G cur start);
        [by apply list_elem_of_singleton in Hc | by apply elem_of_nil in Hc]. }
    rewrite flat_map_bind in Hc'.
    apply list_elem_of_bind in Hc' as (n & Hc' & _).
    destruct (bool_decide (n ∈ allowed) && negb (bool_decide (n ∈ path)));
      [|by apply elem_of_nil in Hc'].
    apply cycles_from_prefix in Hc' as [post Hpost].
    apply (f_equal length) in Hpost. rewrite !length_app in Hpost.
    simpl in Hpost. lia.
  - rewrite flat_map_bind. apply NoDup_bind.
    + intros n1 n2 c _ _ H1 H2.
      destruct (bool_decide (n1 ∈ allowed) && negb (bool_decide (n1 ∈ path)));
        [|by apply elem_of_nil in H1].
      destruct (bool_decide (n2 ∈ allowed) && negb (bool_decide (n2 ∈ path)));
        [|by apply elem_of_nil in H2].
      apply cycles_from_prefix in H1 as [post1 ->].
      apply cycles_from_prefix in H2 as [post2 Heq].
      rewrite <- !app_assoc in Heq. apply app_inv_head in Heq.
      by injection Heq.
    + intros n _.
      destruct (bool_decide (n ∈ allowed) && negb (bool_decide (n ∈ path)));
        [apply IH | apply NoDup_nil_2].
    + apply successors_NoDup.
Qed.

Lemma cycles_from_shape fuel start allowed c :
  c ∈ cycles_from G fuel start allowed [start] start →
  ∃ post, c = start :: post ∧ Forall (λ n, n ∈ allowed) post.
Proof.
  intros Hc.
  apply cycles_from_sound in Hc as [_ (post & -> & Hpost)];
    [by exists post|apply NoDup_singleton|done|done].
Qed.

Lemma cycles_rooted_nodes order c x :
  c ∈ cycles_rooted G order → x ∈ c → x ∈ order.
Proof.
  induction order as [|s rest IH]; [by intros ?%elem_of_nil|].
  rewrite cycles_rooted_cons.
  intros [Hc|Hc]%elem_of_app Hx.
  - apply cycles_from_shape in Hc as (post & -> & Hpost).
    apply elem_of_cons in Hx as [->|Hx]; [apply list_elem_of_here|].
    apply list_elem_of_further. by eapply Forall_forall in Hpost.
  - apply list_elem_of_further. by apply IH.
Qed.

Lemma cycles_rooted_NoDup order : NoDup order → NoDup (cycles_rooted G order).
Proof.
  induction 1 as [|s rest Hs Hnd IH]; [apply NoDup_nil_2|].
  rewrite cycles_rooted_cons. apply NoDup_app.
  split; [apply cycles_from_NoDup|]. split; [|done].
  intros c Hc Hc'. apply cycles_from_shape in Hc as (post & -> & _).
  apply Hs. eapply cycles_rooted_nodes; [exact Hc'|apply list_elem_of_here].
Qed.

(** Of the rotations of a cycle, one is listed. *)
Lemma cycles_rooted_rotation order c c' :
  NoDup order →
  c ∈ cycles_rooted G order → c' ∈ cycles_rooted G order →
  rotation c c' → c = c'.
Proof.
  induction 1 as [|s rest Hs Hnd IH]; [by intros ?%elem_of_nil|].
  rewrite cycles_rooted_cons.
  intros [Hc|Hc]%elem_of_app [Hc'|Hc']%elem_of_app Hrot.
  - pose proof Hc as Hsound.
    apply cycles_from_shape in Hc as (post & -> & _).
    apply cycles_from_shape in Hc' as (post' & -> & _).
    apply cycles_from_sound in Hsound as [[Hnd' _] _];
      [|apply NoDup_singleton|done|done].
    f_equal. by eapply rotation_same_start.
  - apply cycles_from_shape in Hc as (post & -> & _).
    exfalso. apply Hs. eapply cycles_rooted_nodes; [exact Hc'|].
    eapply rotation_elem; [apply rotation_sym, Hrot|apply list_elem_of_here].
  - apply cycles_from_shape in Hc' as (post' & -> & _).
    exfalso. apply Hs. eapply cycles_rooted_nodes; [exact Hc|].
    eapply rotation_elem; [exact Hrot|apply list_elem_of_here].
  - by apply IH.
Qed.

End enumeration_once.

(** *** [find_circular_dependencies] *)

Lemma chain_ext (e1 e2 : string → string → Prop) (l : list string) :
  (∀ u v, e1 u v ↔ e2 u v) → chain e1 l ↔ chain e2 l.
Proof.
  intros Hext. induction l as [|a [|b l] IH]; [done..|].
  change (e1 a b ∧ chain e1 (b :: l) ↔ e2 a b ∧ chain e2 (b :: l)).
  rewrite IH, Hext. done.
Qed.

Lemma simple_cycle_ext (e1 e2 : string → string → Prop) (c : list string) :
  (∀ u v, e1 u v ↔ e2 u v) → simple_cycle e1 c ↔ simple_cycle e2 c.
Proof.
  intros Hext. destruct c as [|s t]; [done|]. unfold simple_cycle.
  by rewrite (chain_ext e1 e2).
Qed.

(** Every node of a simple cycle has an edge leaving it. *)
Lemma simple_cycle_out_edge (edge : string → string → Prop)
    (c : list string) (x : string) :
  simple_cycle edge c → x ∈ c → ∃ y, edge x y.
Proof.
  destruct c as [|s t]; [done|]. intros [_ Hchain] Hx.
  apply list_elem_of_split in Hx as (l1 & l2 & Heq). rewrite Heq in Hchain.
  rewrite <- app_assoc in Hchain. apply chain_app in Hchain as (_ & Hchain & _).
  destruct l2 as [|b l2]; simpl in Hchain.
  - exists s. tauto.
  - exists b. tauto.
Qed.

Lemma singleton_of_all_equal {A} (l : list A) (x : A) :
  NoDup l → x ∈ l → (∀ y, y ∈ l → y = x) → l = [x].
Proof.
  intros Hnd Hx Hall. destruct l as [|a [|b l]].
  - by apply elem_of_nil in Hx.
  - f_equal. apply Hall, list_elem_of_here.
  - exfalso. apply NoDup_cons in Hnd as [Hab _]. apply Hab.
    rewrite (Hall a), <- (Hall b); [apply list_elem_of_here| |apply list_elem_of_here].
    apply list_elem_of_further, list_elem_of_here.
Qed.

(** The simple cycles of a triangle are its three rotations. *)
Lemma triangle_cycles (edge : string → string → Prop) (A B C : string)
    (c : list string) :
  A ≠ B → B ≠ C → C ≠ A →
  (∀ u v, edge u v ↔ (u, v) ∈ [(A, B); (B, C); (C, A)]) →
  simple_cycle edge c →
  c = [A; B; C] ∨ c = [B; C; A] ∨ c = [C; A; B].
Proof.
  intros HAB HBC HCA Hedge.
  assert (∀ u v, edge u v →
            (u = A ∧ v = B) ∨ (u = B ∧ v = C) ∨ (u = C ∧ v = A)) as Hcases.
  { intros u v Huv%Hedge. set_solver. }
  destruct c as [|x [|y [|z [|w t]]]]; simpl.
  - done.
  - intros (_ & H1 & _). apply Hcases in H1. naive_solver.
  - intros (_ & H1 & H2 & _). apply Hcases in H1, H2. naive_solver.
  - intros (_ & H1 & H2 & H3 & _). apply Hcases in H1, H2, H3. naive_solver.
  - intros (Hnd & H1 & H2 & H3 & _). apply Hcases in H1, H2, H3.
    exfalso. apply NoDup_cons in Hnd as [Hx _]. apply Hx.
    assert (w = x) as -> by naive_solver.
    do 2 apply list_elem_of_further. apply list_elem_of_here.
Qed.

Lemma triangle_rotations (A B C : string) (c c' : list string) :
  c = [A; B; C] ∨ c = [B; C; A] ∨ c = [C; A; B] →
  c' = [A; B; C] ∨ c' = [B; C; A] ∨ c' = [C; A; B] →
  rotation c c'.
Proof.
  intros [-> | [-> | ->]] [-> | [-> | ->]].
  - by exists [], [A; B; C].
  - by exists [A], [B; C].
  - by exists [A; B], [C].
  - by exists [B; C], [A].
  - by exists [], [B; C; A].
  - by exists [B], [C; A].
  - by exists [C], [A; B].
  - by exists [C; A], [B].
  - by exists [], [C; A; B].
Qed.

(** C2: [find_circular_dependencies] lists simple cycles of the edges
    (parallel edges counting once), every simple cycle in one of its
    rotations, and none twice; so it returns the empty list when the edges
    have no cycle, and exactly one cycle, a rotation of A, B, C, when the
    edges are those of the triangle A→B, B→C, C→A. *)
Theorem find_circular_dependencies_enumerates (g : DependencyGraph) :
  let cycles := find_circular_dependencies g in
  NoDup (DiGraph.edges (build_digraph g))
  ∧ (∀ c, c ∈ cycles → simple_cycle (depends g) c)
  ∧ (∀ c, simple_cycle (depends g) c → ∃ c', rotation c c' ∧ c' ∈ cycles)
  ∧ NoDup cycles
  ∧ (∀ c c', c ∈ cycles → c' ∈ cycles → rotation c c' → c = c')
  ∧ ((∀ c, ¬ simple_cycle (depends g) c) → cycles = [])
  ∧ (∀ A B C,
       A ≠ B → B ≠ C → C ≠ A →
       (∀ u v, depends g u v ↔ (u, v) ∈ [(A, B); (B, C); (C, A)]) →
       ∃ c, cycles = [c] ∧ rotation [A; B; C] c).
Proof.
  intros cycles.
  destruct (build_digraph_spec g) as [Hwf Hedge].
  assert (∀ c, simple_cycle (digraph_edge (build_digraph g)) c
               ↔ simple_cycle (depends g) c) as Hcycle
    by (intros c; by apply simple_cycle_ext).
  assert (cycles = cycles_rooted (build_digraph g)
                     (DiGraph.nodes (build_digraph g))) as Hcycles by reflexivity.
  assert (∀ c, c ∈ cycles → simple_cycle (depends g) c) as Hsound.
  { intros c Hc. apply Hcycle. rewrite Hcycles in Hc.
    by eapply cycles_rooted_sound. }
  assert (∀ c, simple_cycle (depends g) c → ∃ c', rotation c c' ∧ c' ∈ cycles)
    as Hcomplete.
  { intros c Hc. rewrite Hcycles. apply cycles_rooted_complete.
    - by apply Hcycle.
    - intros x Hx. destruct (simple_cycle_out_edge _ _ _ Hc Hx) as [y Hxy].
      apply Hedge in Hxy. by apply (wf_closed _ Hwf) in Hxy as [? _]. }
  assert (NoDup cycles) as Hnd.
  { rewrite Hcycles. apply (cycles_rooted_NoDup _ Hwf). apply Hwf. }
  assert (∀ c c', c ∈ cycles → c' ∈ cycles → rotation c c' → c = c') as Honce.
  { intros c c'. rewrite Hcycles. apply cycles_rooted_rotation.
    apply Hwf. }
  split; [apply Hwf|]. do 4 (split; [done|]). split.
  - intros Hacyclic. destruct cycles as [|c l]; [done|].
    exfalso. apply (Hacyclic c), Hsound, list_elem_of_here.
  - intros A B C HAB HBC HCA Htriangle.
    assert (simple_cycle (depends g) [A; B; C]) as Habc.
    { split.
      - repeat (apply NoDup_cons; split; [set_solver|]). apply NoDup_nil_2.
      - simpl. rewrite !Htriangle. set_solver. }
    destruct (Hcomplete _ Habc) as (c0 & Hrot & Hc0).
    exists c0. split; [|done].
    apply singleton_of_all_equal; [done..|].
    intros c Hc. apply Honce; [done..|].
    apply (triangle_rotations A B C);
      apply (triangle_cycles (depends g) A B C); auto.
Qed.

Example triangle_edges :
  (λ d, (FileDependency.source d, FileDependency.target d))
    <$> dependencies triangle_graph
  = [("a.h", "b.h"); ("a.h", "b.h"); ("b.h", "c.h"); ("c.h", "a.h")].
Proof. vm_compute. reflexivity. Qed.

Example triangle_one_cycle :
  find_circular_dependencies triangle_graph = [["a.h"; "b.h"; "c.h"]].
Proof. vm_compute. reflexivity. Qed.

Example example_no_cycle :
  find_circular_dependencies (analyze_dependencies example_graph) = [].
Proof. vm_compute. reflexivity. Qed.

Lemma triangle_depends (u v : string) :
  depends triangle_graph u v
  ↔ (u, v) ∈ [("a.h", "b.h"); ("b.h", "c.h"); ("c.h", "a.h")].
Proof.
  unfold depends.
  assert (∃ deps, dependencies triangle_graph = deps
                  ∧ (λ d, (FileDependency.source d, FileDependency.target d))
                      <$> deps
                    = [("a.h", "b.h"); ("a.h", "b.h");
                       ("b.h", "c.h"); ("c.h", "a.h")])
    as (deps & -> & Hdeps) by (eexists; split; [reflexivity|apply triangle_edges]).
  assert ((∃ d, d ∈ deps ∧ FileDependency.source d = u
                ∧ FileDependency.target d = v)
          ↔ (u, v) ∈ (λ d, (FileDependency.source d, FileDependency.target d))
                       <$> deps) as ->.
  { rewrite list_elem_of_fmap. split.
    - intros (d & Hd & <- & <-). by exists d.
    - intros (d & [= -> ->] & Hd). by exists d. }
  rewrite Hdeps. set_solver.
Qed.

Lemma find_circular_dependencies_enumerates_witness :
  ∃ c, find_circular_dependencies triangle_graph = [c]
       ∧ rotation ["a.h"; "b.h"; "c.h"] c.
Proof.
  destruct (find_circular_dependencies_enumerates triangle_graph)
    as (_ & _ & _ & _ & _ & _ & Htriangle).
  apply Htriangle; [discriminate..|]. apply triangle_depends.
Defined.

Lemma export_node_type_witness :
  Node.type <$> ExportDoc.nodes (export_to_dict example_graph)
  = ["source"; "header"; "source"]
  ∧ Node.id <$> ExportDoc.nodes (export_to_dict example_graph)
    = Dict.keys (files example_graph).
Proof.
  split; [vm_compute; reflexivity|].
  exact (proj2 (export_node_type example_graph)).
Defined.

(** * Further properties *)

(** ** Adding every file once *)

Lemma dict_get_elem_NoDup {V} (k : string) (v : V) (d : list (string * V)) :
  NoDup (Dict.keys d) → (k, v) ∈ d → Dict.get k d = Some v.
Proof.
  unfold Dict.keys. induction d as [|[k0 v0] d IH]; csimpl.
  - by intros _ ?%elem_of_nil.
  - intros [Hk0 Hnd]%NoDup_cons [[= -> ->]|Hin]%elem_of_cons.
    + by rewrite decide_True.
    + rewrite decide_False; [by apply IH|].
      intros ->. apply Hk0. by apply (dict_elem_keys _ v).
Qed.

Section add_once.
Context `{PathFlavour}.

Lemma add_parsed_files_cons item parsed g :
  add_parsed_files (item :: parsed) g
  = add_parsed_files parsed
      (match item.2 with
       | Some symbols => add_file item.1 symbols g
       | None => g
       end).
Proof. reflexivity. Qed.

Lemma add_parsed_files_fresh parsed g :
  NoDup (Dict.keys (files g) ++ (parsed_ok parsed).*1) →
  files (add_parsed_files parsed g) = files g ++ parsed_ok parsed
  ∧ dependencies (add_parsed_files parsed g) = dependencies g
  ∧ ∀ symbol_name,
      symbol_entries (add_parsed_files parsed g) symbol_name
      = symbol_entries g symbol_name
        ++ (parsed_ok parsed ≫= λ item, entries_for item.1 item.2 symbol_name).
Proof.
  revert g. induction parsed as [|[p [symbols|]] parsed IH]; intros g Hnd.
  - simpl. rewrite app_nil_r. split; [done|]. split; [done|].
    intros n. by rewrite app_nil_r.
  - rewrite add_parsed_files_cons. simpl.
    change (parsed_ok ((p, Some symbols) :: parsed))
      with ((p, symbols) :: parsed_ok parsed) in *.
    assert (p ∉ Dict.keys (files g)) as Hp.
    { apply NoDup_app in Hnd as (_ & Hdisj & _). intros Hin.
      apply (Hdisj p Hin). csimpl. apply list_elem_of_here. }
    assert (files (add_file p symbols g) = files g ++ [(p, symbols)]) as Hfiles
      by (simpl; by apply dict_set_notin).
    destruct (IH (add_file p symbols g)) as (Hf & Hd & Hs).
    { rewrite Hfiles. unfold Dict.keys in *. rewrite fmap_app. csimpl.
      csimpl in Hnd. by rewrite <- app_assoc. }
    split; [|split].
    + rewrite Hf, Hfiles. by rewrite <- app_assoc.
    + by rewrite Hd.
    + intros n. rewrite Hs, add_file_entries. csimpl. by rewrite <- app_assoc.
  - rewrite add_parsed_files_cons. simpl.
    change (parsed_ok ((p, None) :: parsed)) with (parsed_ok parsed) in *.
    by apply IH.
Qed.

Lemma entries_for_filter_same file_path symbols symbol_name :
  List.filter (λ e, bool_decide (e.1 = file_path))
    (entries_for file_path symbols symbol_name)
  = entries_for file_path symbols symbol_name.
Proof.
  unfold entries_for.
  induction (List.filter _ (indexed_symbols symbols)) as [|x l IH]; [done|].
  csimpl. rewrite bool_decide_eq_true_2 by done. by rewrite IH.
Qed.

Lemma entries_for_filter_other file_path file_path' symbols symbol_name :
  file_path' ≠ file_path →
  List.filter (λ e, bool_decide (e.1 = file_path))
    (entries_for file_path' symbols symbol_name)
  = [].
Proof.
  intros Hne. unfold entries_for.
  induction (List.filter _ (indexed_symbols symbols)) as [|x l IH]; [done|].
  csimpl. rewrite bool_decide_eq_false_2 by done. by rewrite IH.
Qed.

Lemma filter_entries_of_files (d : list (string * FileSymbols))
    file_path symbol_name :
  NoDup (Dict.keys d) →
  List.filter (λ e, bool_decide (e.1 = file_path))
    (d ≫= λ item, entries_for item.1 item.2 symbol_name)
  = match Dict.get file_path d with
    | Some symbols => entries_for file_path symbols symbol_name
    | None => []
    end.
Proof.
  unfold Dict.keys. induction d as [|[k v] d IH]; csimpl; [done|].
  intros [Hk Hnd]%NoDup_cons. rewrite List.filter_app, IH by done.
  destruct (decide (file_path = k)) as [->|Hne].
  - rewrite entries_for_filter_same.
    assert (Dict.get k d = None) as -> by (by apply dict_get_None).
    by rewrite app_nil_r.
  - by rewrite entries_for_filter_other.
Qed.

End add_once.

(** X1: when the loop of [test_project] adds files under paths that are
    all different, the files of the graph are the parsed files in their
    order, and the symbol index is exactly derivable from them: under each
    name, the entries of the files, file after file; so it holds no ghost
    and no duplicate entry. *)
Theorem add_parsed_files_index_exact `{PathFlavour}
    (parsed : list (string * option FileSymbols)) :
  NoDup ((parsed_ok parsed).*1) →
  let g := add_parsed_files parsed empty_graph in
  files g = parsed_ok parsed
  ∧ (∀ symbol_name,
       symbol_entries g symbol_name
       = parsed_ok parsed ≫= λ item, entries_for item.1 item.2 symbol_name)
  ∧ no_ghost_entries g
  ∧ no_duplicate_entries g.
Proof.
  intros Hnd g.
  destruct (add_parsed_files_fresh parsed empty_graph) as (Hf & _ & Hs); [done|].
  fold g in Hf, Hs. simpl in Hf.
  assert (∀ symbol_name,
            symbol_entries g symbol_name
            = parsed_ok parsed ≫= λ item, entries_for item.1 item.2 symbol_name)
    as Hentries by (intros n; by rewrite Hs).
  split; [done|]. split; [done|]. split.
  - intros n p symbol. rewrite Hentries.
    intros ([p' symbols] & Hin & Hitem)%list_elem_of_bind. simpl in Hin.
    apply entries_for_elem in Hin as [-> Hsym].
    exists symbols. split; [|done]. rewrite Hf.
    by apply dict_get_elem_NoDup.
  - intros n p symbols Hget. rewrite Hentries.
    rewrite filter_entries_of_files by done.
    rewrite Hf in Hget. by rewrite Hget.
Qed.

Lemma add_parsed_files_index_exact_witness :
  let g := add_parsed_files example_parsed empty_graph in
  files g = parsed_ok example_parsed
  ∧ (∀ symbol_name,
       symbol_entries g symbol_name
       = parsed_ok example_parsed
           ≫= λ item, entries_for item.1 item.2 symbol_name)
  ∧ no_ghost_entries g
  ∧ no_duplicate_entries g.
Proof.
  apply (add_parsed_files_index_exact example_parsed).
  vm_compute. repeat (constructor; [set_solver|]). constructor.
Defined.

(** ** More on include resolution *)

Section resolve_more.
Context `{PathFlavour}.

Lemma file_index_exact_add_file file_path symbols g :
  file_index_exact g → file_index_exact (add_file file_path symbols g).
Proof.
  intros [Hcov Hsound]. split.
  - intros p [->|Hp]%add_file_keys; simpl.
    + rewrite lookup_insert_eq. by eexists.
    + rewrite lookup_insert. case_decide; [by eexists|]. by apply Hcov.
  - intros n p. simpl. rewrite lookup_insert. case_decide as Hn.
    + intros [= <-]. split; [|done]. apply add_file_keys. by left.
    + intros [Hp Hname]%Hsound. split; [|done]. apply add_file_keys. by right.
Qed.

Lemma reachable_file_index_exact g : reachable g → file_index_exact g.
Proof.
  induction 1 as [|g file_path symbols _ IH|g _ IH].
  - split.
    + by intros p ?%elem_of_nil.
    + intros n p. simpl. by rewrite lookup_empty.
  - by apply file_index_exact_add_file.
  - rewrite analyze_dependencies_frame. destruct IH as [Hcov Hsound].
    by split.
Qed.

Lemma find_None_forall {A} (p : A → bool) (l : list A) :
  List.find p l = None ↔ ∀ x, x ∈ l → p x = false.
Proof.
  split.
  - intros Hnone x Hx. apply list_elem_of_In in Hx.
    by apply (find_none p l Hnone).
  - intros Hall. induction l as [|x l IH]; [done|]. simpl.
    rewrite (Hall x) by apply list_elem_of_here.
    apply IH. intros y Hy. apply Hall. by apply list_elem_of_further.
Qed.

(** In a graph the analyzer reaches, the basename index misses no file, so
    the last strategy has nothing left to find. *)
Lemma rescan_finds_nothing g include_path :
  file_index_exact g →
  file_index g !! path_name include_path = None →
  first_where
    (λ file_path, bool_decide (path_name file_path = path_name include_path))
    (Dict.keys (files g)) = None.
Proof.
  intros [Hcov _] Hnone. apply find_None_forall. intros p Hp.
  apply bool_decide_eq_false. intros Hname.
  destruct (Hcov p Hp) as [q Hq]. rewrite Hname in Hq. congruence.
Qed.

End resolve_more.

(** X2: last writer wins.  Right after a file is added, an include whose
    basename is that of the file, and which is not itself the path of a
    file, resolves to the file just added, whatever other files share the
    basename. *)
Theorem resolve_include_last_added `{PathFlavour} (g : DependencyGraph)
    (file_path : string) (symbols : FileSymbols)
    (include_path source_file : string) :
  path_name include_path = path_name file_path →
  include_path ∉ Dict.keys (files (add_file file_path symbols g)) →
  _resolve_include (add_file file_path symbols g) include_path source_file
  = Some file_path.
Proof.
  intros Hname Hkey. unfold _resolve_include.
  assert (Dict.contains include_path (files (add_file file_path symbols g))
          = false) as ->.
  { unfold Dict.contains. by apply bool_decide_eq_false. }
  simpl. by rewrite Hname, lookup_insert_eq.
Qed.

Lemma resolve_include_last_added_witness :
  _resolve_include collision_graph "Utils.h" "src/main.cpp" = Some "b/Utils.h".
Proof.
  apply (resolve_include_last_added
           (add_file "a/Utils.h" (no_symbols "a/Utils.h") empty_graph)
           "b/Utils.h" (no_symbols "b/Utils.h") "Utils.h" "src/main.cpp").
  - vm_compute. reflexivity.
  - vm_compute. set_solver.
Defined.

(** X3: in every graph the analyzer reaches, the fifth strategy of
    [_resolve_include] (the scan of all files for the basename) never
    decides: resolution is the exact match, else the basename index, else
    the suffix match, else the path relative to the source file. *)
Theorem resolve_include_rescan_unused `{PathFlavour} (g : DependencyGraph)
    (include_path source_file : string) :
  reachable g →
  _resolve_include g include_path source_file
  = ResolverSpec.first_match
      [ResolverSpec.exact_match; ResolverSpec.basename_match;
       ResolverSpec.suffix_match; ResolverSpec.relative_match]
      g include_path source_file.
Proof.
  intros Hexact%reachable_file_index_exact.
  unfold _resolve_include. simpl.
  unfold ResolverSpec.exact_match, ResolverSpec.basename_match,
    ResolverSpec.suffix_match, ResolverSpec.relative_match, Dict.contains.
  case_bool_decide; [done|].
  destruct (file_index g !! path_name include_path) eqn:Hidx; [done|].
  unfold first_where at 1.
  destruct (find _ (Dict.keys (files g))); [done|].
  case_bool_decide; [done|].
  by apply rescan_finds_nothing.
Qed.

Lemma resolve_include_rescan_unused_witness :
  _resolve_include example_graph "vector" "src/main.cpp"
  = ResolverSpec.first_match
      [ResolverSpec.exact_match; ResolverSpec.basename_match;
       ResolverSpec.suffix_match; ResolverSpec.relative_match]
      example_graph "vector" "src/main.cpp".
Proof.
  apply (resolve_include_rescan_unused example_graph "vector" "src/main.cpp").
  do 3 apply reachable_add_file. apply reachable_init.
Defined.

(** X4: in a graph the analyzer reaches, an include stays unresolved (and
    gives no edge) exactly when no file has its basename, no file path ends
    with it, and its path relative to the directory of the including file
    is no file either. *)
Theorem resolve_include_unresolved `{PathFlavour} (g : DependencyGraph)
    (include_path source_file : string) :
  reachable g →
  _resolve_include g include_path source_file = None
  ↔ (∀ file_path, file_path ∈ Dict.keys (files g) →
                  path_name file_path ≠ path_name include_path)
    ∧ (∀ file_path, file_path ∈ Dict.keys (files g) →
                    ¬ is_suffix include_path file_path)
    ∧ path_parent_join source_file include_path ∉ Dict.keys (files g).
Proof.
  intros Hreach. pose proof (reachable_file_index_exact g Hreach) as Hexact.
  destruct Hexact as [Hcov Hsound]. unfold _resolve_include, Dict.contains.
  split.
  - case_bool_decide as H1; [done|].
    destruct (file_index g !! path_name include_path) eqn:H2; [done|].
    destruct (first_where _ (Dict.keys (files g))) eqn:H3; [done|].
    case_bool_decide as H4; [done|]. intros _. split; [|split].
    + intros p Hp Hname. destruct (Hcov p Hp) as [q Hq].
      rewrite Hname in Hq. congruence.
    + intros p Hp Hsuf%endswith_spec.
      unfold first_where in H3.
      pose proof (proj1 (find_None_forall _ _) H3 p Hp) as Hp'. simpl in Hp'.
      congruence.
    + done.
  - intros (Hname & Hsuf & Hrel).
    rewrite bool_decide_eq_false_2; [|intros Hin; by apply (Hname _ Hin)].
    destruct (file_index g !! path_name include_path) as [p|] eqn:H2.
    { apply Hsound in H2 as [Hp Hn]. by destruct (Hname p Hp). }
    assert (first_where (λ file_path, Str.endswith file_path include_path)
              (Dict.keys (files g)) = None) as ->.
    { apply find_None_forall. intros p Hp.
      destruct (Str.endswith p include_path) eqn:He; [|done].
      apply endswith_spec in He. by destruct (Hsuf p Hp). }
    rewrite bool_decide_eq_false_2 by done.
    apply rescan_finds_nothing; [by split|done].
Qed.

Lemma resolve_include_unresolved_witness :
  _resolve_include example_graph "vector" "src/main.cpp" = None.
Proof.
  apply (resolve_include_unresolved example_graph "vector" "src/main.cpp").
  - do 3 apply reachable_add_file. apply reachable_init.
  - split; [|split].
    + intros p Hp. vm_compute in Hp.
      repeat (apply elem_of_cons in Hp as [->|Hp]); [..|by apply elem_of_nil in Hp];
        vm_compute; discriminate.
    + intros p Hp Hsuf%endswith_spec. vm_compute in Hp.
      repeat (apply elem_of_cons in Hp as [->|Hp]); [..|by apply elem_of_nil in Hp];
        vm_compute in Hsuf; discriminate.
    + vm_compute. set_solver.
Defined.

(** ** The edges of a pass, file by file *)

Section pass_structure.
Context `{PathFlavour} (g : DependencyGraph).

Lemma analyze_includes_deps source_file symbols deps :
  _analyze_includes source_file symbols (set_dependencies deps g)
  = set_dependencies
      (deps ++ omap (include_edge g source_file) (includes symbols)) g.
Proof.
  unfold _analyze_includes.
  match goal with |- foldl ?f _ _ = _ => set (step := f) end.
  assert (∀ deps include,
            step (set_dependencies deps g) include
            = set_dependencies
                (deps ++ option_list (include_edge g source_file include)) g)
    as Hstep.
  { intros deps' include. unfold step, include_edge.
    change (_resolve_include (set_dependencies deps' g))
      with (_resolve_include g).
    destruct (_resolve_include g (IncludeInfo.path include) source_file)
      as [target_file|]; simpl; [|by rewrite app_nil_r].
    destruct (Str.truthy target_file); simpl; [done|by rewrite app_nil_r]. }
  clearbody step. revert deps.
  induction (includes symbols) as [|include l IH]; intros deps; csimpl.
  - by rewrite app_nil_r.
  - rewrite Hstep, IH, <- app_assoc.
    by destruct (include_edge g source_file include).
Qed.

Lemma include_edge_Some source_file include d :
  include_edge g source_file include = Some d →
  FileDependency.source d = source_file
  ∧ FileDependency.reason d = "include"
  ∧ FileDependency.line d = Some (IncludeInfo.line include)
  ∧ _resolve_include g (IncludeInfo.path include) source_file
    = Some (FileDependency.target d)
  ∧ FileDependency.target d ≠ "".
Proof.
  unfold include_edge.
  destruct (_resolve_include g (IncludeInfo.path include) source_file)
    as [target_file|]; [|done].
  destruct (Str.truthy target_file) eqn:Ht; [|done]. intros [= <-]. simpl.
  do 4 (split; [done|]). intros ->. done.
Qed.

Lemma analyze_function_calls_deps source_file symbols deps :
  ∃ calls,
    _analyze_function_calls source_file symbols (set_dependencies deps g)
    = set_dependencies (deps ++ calls) g
    ∧ Forall (λ e, FileDependency.reason e = "call"
                   ∧ FileDependency.source e = source_file) calls.
Proof.
  unfold _analyze_function_calls.
  apply (foldl_invariant
           (λ g', ∃ calls,
              g' = set_dependencies (deps ++ calls) g
              ∧ Forall (λ e, FileDependency.reason e = "call"
                             ∧ FileDependency.source e = source_file) calls)).
  { exists []. by rewrite app_nil_r. }
  intros g' called_func _ (calls & -> & Hcalls). simpl.
  destruct (symbol_index g !! called_func) as [entries|]; [|by exists calls].
  apply (foldl_invariant
           (λ g', ∃ calls,
              g' = set_dependencies (deps ++ calls) g
              ∧ Forall (λ e, FileDependency.reason e = "call"
                             ∧ FileDependency.source e = source_file) calls)).
  { by exists calls. }
  intros g'' entry _ (calls' & -> & Hcalls'). unfold call_step.
  case_bool_decide; [by exists calls'|].
  destruct (_has_dependency _ _ _); simpl; [by exists calls'|].
  eexists (calls' ++ [_]). split.
  - unfold append_dependency. simpl. by rewrite <- app_assoc.
  - apply Forall_app. split; [done|]. by apply Forall_singleton.
Qed.

Lemma edges_with_reason_app reason deps deps' :
  edges_with_reason reason (deps ++ deps')
  = edges_with_reason reason deps ++ edges_with_reason reason deps'.
Proof. apply filter_app. Qed.

Lemma include_edges_reason source_file includes :
  edges_with_reason "include" (omap (include_edge g source_file) includes)
  = omap (include_edge g source_file) includes.
Proof.
  induction includes as [|include l IH]; [done|]. csimpl.
  destruct (include_edge g source_file include) as [d|] eqn:Hd; [|done].
  apply include_edge_Some in Hd as (_ & Hr & _).
  unfold edges_with_reason in *. rewrite filter_cons, decide_True by done.
  by rewrite IH.
Qed.

Lemma call_edges_reason source_file calls :
  Forall (λ e, FileDependency.reason e = "call"
               ∧ FileDependency.source e = source_file) calls →
  edges_with_reason "include" calls = [].
Proof.
  induction 1 as [|e l [Hr _] _ IH]; [done|].
  unfold edges_with_reason in *. rewrite filter_cons, decide_False; [done|].
  rewrite Hr. discriminate.
Qed.

Lemma pass_include_edges fs deps :
  edges_with_reason "include"
    (dependencies (foldl analyze_file (set_dependencies deps g) fs))
  = edges_with_reason "include" deps
    ++ (fs ≫= λ item, omap (include_edge g item.1) (includes item.2)).
Proof.
  revert deps. induction fs as [|[source_file symbols] fs IH]; intros deps.
  - simpl. by rewrite app_nil_r.
  - simpl. unfold analyze_file at 2. simpl.
    rewrite analyze_includes_deps.
    destruct (analyze_function_calls_deps source_file symbols
                (deps ++ omap (include_edge g source_file) (includes symbols)))
      as (calls & -> & Hcalls).
    rewrite IH, !edges_with_reason_app, include_edges_reason.
    rewrite (call_edges_reason source_file calls Hcalls), app_nil_r.
    by rewrite <- app_assoc.
Qed.

Lemma analyze_include_edges :
  edges_with_reason "include" (dependencies (analyze_dependencies g))
  = files g ≫= λ item, omap (include_edge g item.1) (includes item.2).
Proof. apply (pass_include_edges (files g) []). Qed.

End pass_structure.

(** X5: the Include edges of a pass, in their order, are the includes of
    the files that resolve (to a path that is not empty), file after file
    and include after include: one edge per include directive, duplicates
    kept, each with the line of its directive. *)
Theorem include_edges_of_pass `{PathFlavour} (g : DependencyGraph) :
  edges_with_reason "include" (dependencies (analyze_dependencies g))
  = files g ≫= λ item, omap (include_edge g item.1) (includes item.2).
Proof. apply analyze_include_edges. Qed.

(** ** A Call edge is alone on its pair *)

Lemma calls_unfollowed_nil : calls_unfollowed [].
Proof. intros before d after Heq. by destruct before. Qed.

Lemma calls_unfollowed_snoc deps e :
  calls_unfollowed deps →
  (∀ d, d ∈ deps → FileDependency.reason d = "call" → ¬ same_pair d e) →
  calls_unfollowed (deps ++ [e]).
Proof.
  intros Hdeps He before d after Heq Hcall x Hx.
  destruct after as [|y after _] using rev_ind.
  { by apply elem_of_nil in Hx. }
  rewrite app_comm_cons, app_assoc in Heq.
  apply app_inj_tail in Heq as [-> ->].
  apply elem_of_app in Hx as [Hx|Hx].
  - by eapply Hdeps.
  - apply list_elem_of_singleton in Hx as ->. apply He; [|done].
    apply elem_of_app. right. apply list_elem_of_here.
Qed.

Section call_edges_alone.
Context `{PathFlavour} (g : DependencyGraph).

(** The edges so far, while the includes of [source_file] are analysed:
    they come from files that were analysed before, or are Include edges of
    [source_file]. *)
Lemma analyze_includes_unfollowed (seen : list string) source_file symbols deps :
  source_file ∉ seen →
  calls_unfollowed deps →
  Forall (λ e, FileDependency.source e ∈ seen) deps →
  ∃ incs,
    _analyze_includes source_file symbols (set_dependencies deps g)
    = set_dependencies (deps ++ incs) g
    ∧ calls_unfollowed (deps ++ incs)
    ∧ Forall (λ e, FileDependency.source e = source_file
                   ∧ FileDependency.reason e = "include") incs.
Proof.
  intros Hnew Hdeps Hdone. rewrite analyze_includes_deps.
  exists (omap (include_edge g source_file) (includes symbols)).
  split; [done|].
  induction (includes symbols) as [|include l IH] using rev_ind.
  { csimpl. by rewrite app_nil_r. }
  rewrite omap_app. csimpl. destruct IH as [IH1 IH2].
  destruct (include_edge g source_file include) as [e|] eqn:He; csimpl;
    [|by rewrite app_nil_r].
  apply include_edge_Some in He as (Hs & Hr & _). split.
  - rewrite app_assoc. apply calls_unfollowed_snoc; [done|].
    intros d [Hd|Hd]%elem_of_app Hcall [Hsrc _].
    + eapply Forall_forall in Hdone; [|exact Hd]. congruence.
    + eapply Forall_forall in IH2; [|exact Hd]. destruct IH2 as [_ Hinc].
      rewrite Hcall in Hinc. discriminate.
  - apply Forall_app. split; [done|]. by apply Forall_singleton.
Qed.

Lemma analyze_function_calls_unfollowed source_file symbols deps :
  calls_unfollowed deps →
  ∃ calls,
    _analyze_function_calls source_file symbols (set_dependencies deps g)
    = set_dependencies (deps ++ calls) g
    ∧ calls_unfollowed (deps ++ calls)
    ∧ Forall (λ e, FileDependency.source e = source_file) calls.
Proof.
  intros Hdeps. unfold _analyze_function_calls.
  apply (foldl_invariant
           (λ g', ∃ calls,
              g' = set_dependencies (deps ++ calls) g
              ∧ calls_unfollowed (deps ++ calls)
              ∧ Forall (λ e, FileDependency.source e = source_file) calls)).
  { exists []. by rewrite app_nil_r. }
  intros g' called_func _ (calls & -> & Hcalls). simpl.
  destruct (symbol_index g !! called_func) as [entries|]; [|by exists calls].
  apply (foldl_invariant
           (λ g', ∃ calls,
              g' = set_dependencies (deps ++ calls) g
              ∧ calls_unfollowed (deps ++ calls)
              ∧ Forall (λ e, FileDependency.source e = source_file) calls)).
  { by exists calls. }
  intros g'' entry _ (calls' & -> & Hun & Hsrc). unfold call_step.
  case_bool_decide; [by exists calls'|].
  destruct (_has_dependency _ _ _) eqn:Hhas; simpl; [by exists calls'|].
  eexists (calls' ++ [_]). split; [|split].
  - unfold append_dependency. simpl. by rewrite <- app_assoc.
  - rewrite app_assoc. apply calls_unfollowed_snoc; [done|].
    intros d Hd _ [Hs Ht]. simpl in Hs, Ht.
    by apply (has_dependency_false _ _ _ Hhas d Hd).
  - apply Forall_app. split; [done|]. by apply Forall_singleton.
Qed.

Lemma pass_unfollowed fs (seen : list string) deps :
  NoDup (fs.*1) →
  (∀ k, k ∈ fs.*1 → k ∉ seen) →
  calls_unfollowed deps →
  Forall (λ e, FileDependency.source e ∈ seen) deps →
  calls_unfollowed
    (dependencies (foldl analyze_file (set_dependencies deps g) fs)).
Proof.
  revert seen deps.
  induction fs as [|[source_file symbols] fs IH]; intros seen deps; csimpl.
  { done. }
  intros [Hs Hnd]%NoDup_cons Hfresh Hun Hdone.
  unfold analyze_file at 2. simpl.
  assert (source_file ∉ seen) as Hnew by apply Hfresh, list_elem_of_here.
  destruct (analyze_includes_unfollowed seen source_file symbols deps)
    as (incs & -> & Hun1 & Hincs); [done..|].
  destruct (analyze_function_calls_unfollowed source_file symbols (deps ++ incs))
    as (calls & -> & Hun2 & Hcalls); [done|].
  apply (IH (source_file :: seen)); [done| |done|].
  - intros k Hk [->|Hin]%elem_of_cons; [done|].
    by apply (Hfresh k); [apply list_elem_of_further|].
  - rewrite !Forall_app. split; [split|].
    + eapply Forall_impl; [exact Hdone|]. intros e He.
      by apply list_elem_of_further.
    + eapply Forall_impl; [exact Hincs|]. intros e [-> _].
      apply list_elem_of_here.
    + eapply Forall_impl; [exact Hcalls|]. intros e ->.
      apply list_elem_of_here.
Qed.

Lemma pass_calls_guarded :
  calls_guarded (dependencies (analyze_dependencies g)).
Proof.
  apply analyze_dependencies_invariant.
  - intros deps source_file symbols include target_file _ _ _ Hdeps.
    apply calls_guarded_snoc; [done|]. simpl. discriminate.
  - intros deps source_file symbols called_func target_file symbol
      _ _ _ Hself Hnew Hdeps.
    apply calls_guarded_snoc; [done|]. simpl. intros _. split; [done|].
    intros e He [Hs Ht]. by apply (Hnew e He).
  - apply calls_guarded_nil.
Qed.

End call_edges_alone.

(** X6: when [files] has each path once, a Call edge of a pass is the only
    edge on its ordered pair: no edge before it and no edge after it, of
    either reason, joins the same source to the same target. *)
Theorem call_edge_alone_on_pair `{PathFlavour} (g : DependencyGraph)
    (before after : list FileDependency.t) (d : FileDependency.t) :
  NoDup (Dict.keys (files g)) →
  dependencies (analyze_dependencies g) = before ++ d :: after →
  FileDependency.reason d = "call" →
  ∀ e, e ∈ before ++ after → ¬ same_pair d e.
Proof.
  intros Hnd Heq Hcall e [He|He]%elem_of_app.
  - by apply (pass_calls_guarded g before d after Heq Hcall).
  - assert (calls_unfollowed (dependencies (analyze_dependencies g))) as Hun.
    { apply (pass_unfollowed g (files g) [] []); [done| |apply calls_unfollowed_nil|done].
      intros k _. apply not_elem_of_nil. }
    by apply (Hun before d after Heq Hcall).
Qed.

Lemma call_edge_alone_on_pair_witness :
  Forall
    (λ e, ¬ same_pair
              {| FileDependency.source := "src/main.cpp";
                 FileDependency.target := "src/log.cpp";
                 FileDependency.reason := "call";
                 FileDependency.line := None |} e)
    ([ {| FileDependency.source := "src/main.cpp";
          FileDependency.target := "src/util.h";
          FileDependency.reason := "include";
          FileDependency.line := Some 1 |} ] ++ []).
Proof.
  apply Forall_forall.
  apply (call_edge_alone_on_pair example_graph).
  - vm_compute. repeat (constructor; [set_solver|]). constructor.
  - vm_compute. reflexivity.
  - reflexivity.
Defined.

(** ** Where the edges of a pass come from *)

Section pass_edges.
Context `{PathFlavour} (g : DependencyGraph).

Lemma pass_edges_origin :
  Forall
    (λ d, edge_origin g d
          ∧ (FileDependency.reason d = "call"
             → FileDependency.source d ≠ FileDependency.target d))
    (dependencies (analyze_dependencies g)).
Proof.
  apply analyze_dependencies_invariant.
  - intros deps source_file symbols include target_file Hin Hinc Hres Hdeps.
    apply Forall_app. split; [done|]. apply Forall_singleton. simpl.
    split; [|discriminate].
    exists symbols. split; [done|]. left. split; [done|]. by exists include.
  - intros deps source_file symbols called_func target_file symbol
      Hin Hcall Hentry Hself _ Hdeps.
    apply Forall_app. split; [done|]. apply Forall_singleton. simpl.
    split; [|by intros _ ?].
    exists symbols. split; [done|]. right. split; [done|].
    by exists called_func, symbol.
  - apply Forall_nil_2.
Qed.

Lemma pass_edges_in_keys :
  indexes_closed g →
  Forall
    (λ d, FileDependency.source d ∈ Dict.keys (files g)
          ∧ FileDependency.target d ∈ Dict.keys (files g))
    (dependencies (analyze_dependencies g)).
Proof.
  intros [_ Hfile Hsym].
  eapply Forall_impl; [apply pass_edges_origin|].
  intros d [(symbols & Hin & Horigin) _].
  split; [by eapply dict_elem_keys|].
  destruct Horigin as [(_ & include & _ & Hres & _)
                      |(_ & called_func & symbol & _ & Hentry)].
  - by eapply resolve_include_in_keys.
  - by eapply Hsym.
Qed.

Lemma get_dependencies_of_nil g' file_path :
  Forall (λ d, FileDependency.source d ≠ file_path) (dependencies g') →
  get_dependencies_of g' file_path = [].
Proof.
  unfold get_dependencies_of.
  induction 1 as [|d l Hd _ IH]; [done|]. simpl.
  by rewrite bool_decide_eq_false_2.
Qed.

End pass_edges.

(** X7: a file without includes and without called names (such as one that
    could not be parsed) has no outgoing edge after a pass: it depends on
    nothing. *)
Theorem file_without_references_depends_on_nothing `{PathFlavour}
    (g : DependencyGraph) (file_path : string) (symbols : FileSymbols) :
  NoDup (Dict.keys (files g)) →
  Dict.get file_path (files g) = Some symbols →
  includes symbols = [] →
  function_calls symbols = [] →
  get_dependencies_of (analyze_dependencies g) file_path = [].
Proof.
  intros Hnd Hget Hinc Hcalls. apply get_dependencies_of_nil.
  eapply Forall_impl; [apply pass_edges_origin|].
  intros d [(symbols' & Hin & Horigin) _] Hsrc. rewrite Hsrc in Hin.
  apply dict_get_elem_NoDup in Hin; [|done].
  assert (symbols' = symbols) as -> by congruence.
  destruct Horigin as [(_ & include & Hi & _)|(_ & called_func & _ & Hc & _)].
  - rewrite Hinc in Hi. by apply elem_of_nil in Hi.
  - rewrite Hcalls in Hc. by apply elem_of_nil in Hc.
Qed.

Lemma file_without_references_depends_on_nothing_witness :
  get_dependencies_of (analyze_dependencies example_graph) "src/util.h" = [].
Proof.
  apply (file_without_references_depends_on_nothing
           example_graph "src/util.h" example_util).
  - vm_compute. repeat (constructor; [set_solver|]). constructor.
  - vm_compute. reflexivity.
  - reflexivity.
  - reflexivity.
Defined.

(** ** Coupling and the number of edges *)

Lemma sum_list_indicator (ks : list string) (x : string) :
  NoDup ks → x ∈ ks →
  sum_list ((λ k, if bool_decide (x = k) then 1 else 0) <$> ks) = 1.
Proof.
  induction 1 as [|k ks Hk Hnd IH]; [by intros ?%elem_of_nil|].
  intros [->|Hx]%elem_of_cons; csimpl.
  - rewrite bool_decide_eq_true_2 by done.
    assert (sum_list ((λ k0, if bool_decide (k = k0) then 1 else 0) <$> ks) = 0)
      as ->; [|done].
    clear IH Hnd. induction ks as [|k' ks IH]; [done|]. csimpl.
    apply not_elem_of_cons in Hk as [Hne Hk].
    rewrite bool_decide_eq_false_2 by done. by rewrite IH.
  - rewrite bool_decide_eq_false_2 by (intros ->; done). by rewrite IH.
Qed.

Lemma sum_list_fmap_add {A} (a b : A → Z) (l : list A) :
  sum_list ((λ k, a k + b k) <$> l) = sum_list (a <$> l) + sum_list (b <$> l).
Proof.
  induction l as [|k l IH]; [done|]. csimpl. unfold sum_list in *. simpl.
  rewrite IH. lia.
Qed.

Lemma sum_list_fmap_ext {A} (a b : A → Z) (l : list A) :
  (∀ k, a k = b k) → sum_list (a <$> l) = sum_list (b <$> l).
Proof.
  intros Hext. induction l as [|k l IH]; [done|]. csimpl.
  unfold sum_list in *. simpl. by rewrite IH, Hext.
Qed.

Lemma sum_list_fmap_zero {A} (l : list A) : sum_list ((λ _, 0) <$> l) = 0.
Proof. induction l as [|k l IH]; [done|]. csimpl. unfold sum_list in *. simpl. lia. Qed.

Lemma sum_list_count_by (f : FileDependency.t → string)
    (ks : list string) (deps : list FileDependency.t) :
  NoDup ks →
  Forall (λ d, f d ∈ ks) deps →
  sum_list ((λ k, len (List.filter (λ d, bool_decide (f d = k)) deps)) <$> ks)
  = len deps.
Proof.
  intros Hnd. induction 1 as [|d deps Hd _ IH].
  - apply sum_list_fmap_zero.
  - rewrite (sum_list_fmap_ext _
               (λ k, (if bool_decide (f d = k) then 1 else 0)
                     + len (List.filter (λ d0, bool_decide (f d0 = k)) deps))).
    + rewrite sum_list_fmap_add, IH, sum_list_indicator by done.
      unfold len. simpl. lia.
    + intros k. simpl. case_bool_decide; unfold len; simpl; lia.
Qed.

(** X8: after a pass over a graph the analyzer reaches, the couplings of
    all the files add up to twice the number of edges: every edge counts
    once for its source and once for its target. *)
Theorem coupling_sum_twice_edges `{PathFlavour} (g : DependencyGraph) :
  reachable g →
  let g' := analyze_dependencies g in
  sum_list (coupling g' <$> Dict.keys (files g')) = 2 * len (dependencies g').
Proof.
  intros Hclosed%reachable_indexes_closed g'.
  pose proof (pass_edges_in_keys g Hclosed) as Hkeys. fold g' in Hkeys.
  assert (files g' = files g) as Hfiles
    by (unfold g'; by rewrite analyze_dependencies_frame).
  rewrite Hfiles. destruct Hclosed as [Hnd _ _].
  assert (∀ l : list string,
            sum_list (coupling g' <$> l)
            = sum_list ((λ k, len (List.filter
                                     (λ d, bool_decide (FileDependency.source d = k))
                                     (dependencies g'))) <$> l)
              + sum_list ((λ k, len (List.filter
                                       (λ d, bool_decide (FileDependency.target d = k))
                                       (dependencies g'))) <$> l)) as Hsplit.
  { intros l. rewrite <- sum_list_fmap_add. apply sum_list_fmap_ext.
    intros k. unfold coupling, get_dependencies_of, get_dependents_of, len.
    by rewrite !length_fmap. }
  rewrite Hsplit.
  rewrite (sum_list_count_by FileDependency.source), (sum_list_count_by FileDependency.target).
  - lia.
  - done.
  - eapply Forall_impl; [exact Hkeys|]. by intros d [_ ?].
  - done.
  - eapply Forall_impl; [exact Hkeys|]. by intros d [? _].
Qed.

Lemma coupling_sum_twice_edges_witness :
  let g' := analyze_dependencies example_graph in
  sum_list (coupling g' <$> Dict.keys (files g')) = 2 * len (dependencies g').
Proof.
  apply (coupling_sum_twice_edges example_graph).
  do 3 apply reachable_add_file. apply reachable_init.
Defined.

(** ** Cycles of an analysed graph *)

Lemma circular_dependencies_sound (g : DependencyGraph) (c : list string) :
  c ∈ find_circular_dependencies g → simple_cycle (depends g) c.
Proof.
  intros Hc. destruct (build_digraph_spec g) as [_ Hedge].
  apply (simple_cycle_ext (digraph_edge (build_digraph g))); [done|].
  eapply cycles_rooted_sound. exact Hc.
Qed.

Lemma circular_dependencies_complete (g : DependencyGraph) (c : list string) :
  simple_cycle (depends g) c →
  ∃ c', rotation c c' ∧ c' ∈ find_circular_dependencies g.
Proof.
  intros Hc. destruct (build_digraph_spec g) as [Hwf Hedge].
  apply (cycles_rooted_complete (build_digraph g)
           (DiGraph.nodes (build_digraph g)) c).
  - by apply (simple_cycle_ext (digraph_edge (build_digraph g)) (depends g)).
  - intros x Hx. destruct (simple_cycle_out_edge _ _ _ Hc Hx) as [y Hxy].
    apply Hedge in Hxy. by apply (wf_closed _ Hwf) in Hxy as [? _].
Qed.

Lemma rotation_singleton (s : string) (c : list string) :
  rotation [s] c → c = [s].
Proof.
  intros (l1 & l2 & Heq & ->). destruct l1 as [|a l1].
  - simpl in Heq. subst l2. done.
  - injection Heq as <- Heq. symmetry in Heq.
    apply app_eq_nil in Heq as [-> ->]. done.
Qed.

Lemma edges_with_reason_elem reason deps d :
  d ∈ edges_with_reason reason deps
  ↔ FileDependency.reason d = reason ∧ d ∈ deps.
Proof. unfold edges_with_reason. by rewrite list_elem_of_filter. Qed.

(** X9: after a pass, a file is reported as a cycle of its own exactly when
    one of its includes resolves to the file itself: calls never give an
    edge from a file to itself. *)
Theorem self_cycle_iff_self_include `{PathFlavour} (g : DependencyGraph)
    (file_path : string) :
  [file_path] ∈ find_circular_dependencies (analyze_dependencies g)
  ↔ file_path ≠ ""
    ∧ ∃ symbols include,
        (file_path, symbols) ∈ files g
        ∧ include ∈ includes symbols
        ∧ _resolve_include g (IncludeInfo.path include) file_path
          = Some file_path.
Proof.
  split.
  - intros Hc%circular_dependencies_sound.
    destruct Hc as [_ [(d & Hd & Hs & Ht) _]].
    pose proof (pass_edges_origin g) as Horigin.
    eapply Forall_forall in Horigin; [|exact Hd].
    destruct Horigin as [(_ & _ & [(Hr & _)|(Hr & _)]) Hcall];
      [|destruct (Hcall Hr); congruence].
    assert (d ∈ edges_with_reason "include"
                  (dependencies (analyze_dependencies g))) as Hinc
      by (by apply edges_with_reason_elem).
    rewrite analyze_include_edges in Hinc.
    apply list_elem_of_bind in Hinc as ([source_file symbols] & Hedge & Hin).
    simpl in Hedge. apply list_elem_of_omap in Hedge as (include & Hi & Hedge).
    apply include_edge_Some in Hedge as (Hsrc & _ & _ & Hres & Hne).
    rewrite Hs in Hsrc. subst source_file. rewrite Ht in Hres, Hne.
    split; [done|]. by exists symbols, include.
  - intros (Hne & symbols & include & Hin & Hi & Hres).
    assert (depends (analyze_dependencies g) file_path file_path) as Hdep.
    { assert (include_edge g file_path include
              = Some {| FileDependency.source := file_path;
                        FileDependency.target := file_path;
                        FileDependency.reason := "include";
                        FileDependency.line := Some (IncludeInfo.line include) |})
        as Hedge.
      { unfold include_edge. rewrite Hres.
        destruct (Str.truthy file_path) eqn:Ht; [done|].
        unfold Str.truthy in Ht. apply negb_false_iff, String.eqb_eq in Ht.
        done. }
      exists {| FileDependency.source := file_path;
                FileDependency.target := file_path;
                FileDependency.reason := "include";
                FileDependency.line := Some (IncludeInfo.line include) |}.
      split; [|split; reflexivity].
      eapply edges_with_reason_elem.
      rewrite analyze_include_edges.
      apply list_elem_of_bind. exists (file_path, symbols). split; [|done].
      simpl. apply list_elem_of_omap. by exists include. }
    destruct (circular_dependencies_complete (analyze_dependencies g) [file_path])
      as (c' & Hrot & Hc').
    { split; [apply NoDup_singleton|]. simpl. done. }
    by apply rotation_singleton in Hrot as ->.
Qed.

Lemma simple_cycle_NoDup (edge : string → string → Prop) (c : list string) :
  simple_cycle edge c → NoDup c ∧ c ≠ [].
Proof. destruct c as [|s t]; [done|]. by intros [? _]. Qed.

(** X10: after a pass over a graph the analyzer reaches, every reported
    cycle is a non-empty list of files of the graph, each at most once; so
    no cycle is longer than the number of files. *)
Theorem cycles_visit_files `{PathFlavour} (g : DependencyGraph) :
  reachable g →
  Forall
    (λ c, c ≠ [] ∧ NoDup c
          ∧ Forall (λ file_path, file_path ∈ Dict.keys (files g)) c
          ∧ (length c ≤ length (files g))%nat)
    (find_circular_dependencies (analyze_dependencies g)).
Proof.
  intros Hclosed%reachable_indexes_closed. apply Forall_forall. intros c Hc.
  apply circular_dependencies_sound in Hc.
  destruct (simple_cycle_NoDup _ _ Hc) as [Hnd Hne].
  assert (Forall (λ file_path, file_path ∈ Dict.keys (files g)) c) as Hkeys.
  { apply Forall_forall. intros x Hx.
    destruct (simple_cycle_out_edge _ _ _ Hc Hx) as (y & d & Hd & Hs & _).
    pose proof (pass_edges_in_keys g Hclosed) as Hall.
    eapply Forall_forall in Hall; [|exact Hd]. destruct Hall as [Hsrc _].
    by rewrite Hs in Hsrc. }
  do 3 (split; [done|]).
  assert (c ⊆+ Dict.keys (files g)) as Hsub.
  { apply NoDup_submseteq; [done|]. by apply Forall_forall. }
  apply submseteq_length in Hsub. unfold Dict.keys in Hsub.
  by rewrite length_fmap in Hsub.
Qed.

Lemma cycles_visit_files_witness :
  Forall
    (λ c, c ≠ [] ∧ NoDup c
          ∧ Forall (λ file_path, file_path ∈ ["a.h"; "b.h"; "c.h"]) c
          ∧ (length c ≤ 3)%nat)
    (find_circular_dependencies triangle_graph).
Proof.
  apply (cycles_visit_files
           (add_file "c.h" (including "c.h" ["a.h"])
              (add_file "b.h" (including "b.h" ["c.h"])
                 (add_file "a.h" (including "a.h" ["b.h"; "b.h"]) empty_graph)))).
  do 3 apply reachable_add_file. apply reachable_init.
Defined.

(** ** The exported document *)

Lemma dict_get_key_Some {V} (k : string) (d : list (string * V)) :
  k ∈ Dict.keys d → ∃ v, Dict.get k d = Some v ∧ (k, v) ∈ d.
Proof.
  intros [v Hv]%dict_get_is_Some. exists v. split; [done|].
  by apply dict_get_Some_elem.
Qed.

(** X11: in the exported document the nodes are the files in their order
    and the links are the edges in their order, with the same source,
    target and reason; the totals of the metadata are their numbers.  Every
    node carries the metrics of its file, never the empty dictionary: its
    [file] entry is the node's id and its [coupling] entry the coupling of
    the file; and it exports at most ten symbols. *)
Theorem export_document_consistent `{PathFlavour} (g : DependencyGraph) :
  let doc := export_to_dict g in
  Node.id <$> ExportDoc.nodes doc = Dict.keys (files g)
  ∧ (λ l, (Link.source l, Link.target l, Link.reason l)) <$> ExportDoc.links doc
    = (λ d, (FileDependency.source d, FileDependency.target d,
             FileDependency.reason d)) <$> dependencies g
  ∧ Metadata.total_files (ExportDoc.metadata doc) = len (files g)
  ∧ Metadata.total_dependencies (ExportDoc.metadata doc) = len (dependencies g)
  ∧ Metadata.total_dependencies (ExportDoc.metadata doc) = len (ExportDoc.links doc)
  ∧ Forall
      (λ n, Dict.get "file" (Node.metrics n) = Some (PyStr (Node.id n))
            ∧ Dict.get "coupling" (Node.metrics n)
              = Some (PyInt (coupling g (Node.id n)))
            ∧ len (Node.exportedSymbols n) ≤ 10)
      (ExportDoc.nodes doc).
Proof.
  intros doc. unfold doc, export_to_dict. simpl.
  split; [|split; [|split; [|split; [|split]]]].
  - unfold Dict.keys. by rewrite <- list_fmap_compose.
  - by rewrite <- list_fmap_compose.
  - unfold len. by rewrite length_fmap.
  - unfold len. by rewrite length_fmap.
  - done.
  - apply Forall_fmap, Forall_forall. intros [file_path symbols] Hin. simpl.
    assert (file_path ∈ Dict.keys (files g)) as Hkey
      by (by eapply dict_elem_keys).
    apply dict_get_key_Some in Hkey as (symbols' & Hget & _).
    unfold get_file_metrics. rewrite Hget. split; [done|]. split; [done|].
    unfold export_symbols, len.
    rewrite length_app, !length_fmap, !length_take. lia.
Qed.

(** ** The most coupled file *)

(** X12: for a positive [limit] and a graph with files (each path once),
    [get_most_coupled_files] returns [min(limit, number of files)] entries,
    and the first is a file of greatest coupling with its coupling: no file
    is more coupled, and the files added before it are less coupled. *)
Theorem most_coupled_first_is_maximal (g : DependencyGraph) (limit : Z) :
  NoDup (Dict.keys (files g)) →
  0 < limit →
  files g ≠ [] →
  ∃ file_path rest,
    get_most_coupled_files g limit = (file_path, coupling g file_path) :: rest
    ∧ len (get_most_coupled_files g limit) = Z.min limit (len (files g))
    ∧ (∀ f, f ∈ Dict.keys (files g) → coupling g f ≤ coupling g file_path)
    ∧ ∃ earlier later,
        Dict.keys (files g) = earlier ++ file_path :: later
        ∧ ∀ f, f ∈ earlier → coupling g f < coupling g file_path.
Proof.
  intros Hnd Hlimit Hfiles.
  set (entry := λ k : string, (k, coupling g k)).
  set (all_files := entry <$> Dict.keys (files g)).
  assert (get_most_coupled_files g limit
          = take (Z.to_nat limit) (sorted_reverse snd all_files)) as Heq.
  { unfold get_most_coupled_files. rewrite slice_to_take by lia.
    by rewrite coupling_of_keys. }
  pose proof (sorted_reverse_perm snd all_files) as Hperm.
  pose proof (sorted_reverse_sorted snd all_files) as Hsorted.
  pose proof (λ c, sorted_reverse_stable snd c all_files) as Hstable.
  assert (len (get_most_coupled_files g limit) = Z.min limit (len (files g)))
    as Hlen.
  { rewrite Heq. unfold len. rewrite length_take, Hperm.
    unfold all_files, Dict.keys. rewrite !length_fmap. lia. }
  destruct (sorted_reverse snd all_files) as [|[k c] ranked] eqn:Hranked.
  { apply Permutation_nil_l in Hperm. unfold all_files, Dict.keys in Hperm.
    symmetry in Hperm. apply fmap_nil_inv, fmap_nil_inv in Hperm. done. }
  assert ((k, c) ∈ all_files) as Hk
    by (rewrite <- Hperm; apply list_elem_of_here).
  apply list_elem_of_fmap in Hk as (k' & [= <- ->] & Hk).
  exists k, (take (pred (Z.to_nat limit)) ranked).
  split; [|split; [done|split]].
  - rewrite Heq. destruct (Z.to_nat limit) as [|n] eqn:Hn; [lia|]. done.
  - intros f Hf.
    assert (entry f ∈ (k, coupling g k) :: ranked) as Hin
      by (rewrite Hperm; apply list_elem_of_fmap; by exists f).
    apply StronglySorted_inv in Hsorted as [_ Hall].
    apply elem_of_cons in Hin as [[= ->]|Hin]; [done|].
    eapply Forall_forall in Hall; [|exact Hin]. done.
  - apply list_elem_of_split in Hk as (earlier & later & Hsplit).
    exists earlier, later. split; [done|]. intros f Hf.
    assert (coupling g f ≤ coupling g k) as Hle.
    { assert (entry f ∈ (k, coupling g k) :: ranked) as Hin.
      { rewrite Hperm. apply list_elem_of_fmap. exists f. split; [done|].
        rewrite Hsplit. apply elem_of_app. by left. }
      apply StronglySorted_inv in Hsorted as [_ Hall].
      apply elem_of_cons in Hin as [[= ->]|Hin]; [done|].
      eapply Forall_forall in Hall; [|exact Hin]. done. }
    destruct (decide (coupling g f = coupling g k)) as [Heqc|Hne]; [|lia].
    exfalso. specialize (Hstable (coupling g k)).
    rewrite filter_cons, decide_True in Hstable by done.
    unfold all_files in Hstable. rewrite Hsplit, fmap_app, filter_app in Hstable.
    apply list_elem_of_split in Hf as (e1 & e2 & ->).
    rewrite fmap_app, filter_app in Hstable. csimpl in Hstable.
    rewrite (filter_cons _ (entry f)), decide_True in Hstable by done.
    assert (∀ x, x ∈ filter (λ a : string * Z, a.2 = coupling g k) (entry <$> e1)
                 → x.1 ∈ e1) as He1.
    { intros x [_ (y & -> & Hy)%list_elem_of_fmap]%list_elem_of_filter. done. }
    rewrite Hsplit in Hnd. apply NoDup_app in Hnd as (_ & Hdisj & _).
    destruct (filter (λ a : string * Z, a.2 = coupling g k) (entry <$> e1))
      as [|x l] eqn:Hfilter.
    + simpl in Hstable. injection Hstable as Hkf _.
      apply (Hdisj k); [|apply list_elem_of_here].
      rewrite Hkf. apply elem_of_app. right. apply list_elem_of_here.
    + simpl in Hstable. injection Hstable as Hkx _.
      apply (Hdisj k); [|apply list_elem_of_here].
      apply elem_of_app. left.
      replace k with (x.1) by (by rewrite <- Hkx). apply He1, list_elem_of_here.
Qed.

Lemma most_coupled_first_is_maximal_witness :
  ∃ file_path rest,
    get_most_coupled_files star_graph 2
    = (file_path, coupling star_graph file_path) :: rest
    ∧ len (get_most_coupled_files star_graph 2) = Z.min 2 (len (files star_graph))
    ∧ (∀ f, f ∈ Dict.keys (files star_graph) →
            coupling star_graph f ≤ coupling star_graph file_path)
    ∧ ∃ earlier later,
        Dict.keys (files star_graph) = earlier ++ file_path :: later
        ∧ ∀ f, f ∈ earlier → coupling star_graph f < coupling star_graph file_path.
Proof.
  apply (most_coupled_first_is_maximal star_graph 2).
  - vm_compute. repeat (constructor; [set_solver|]). constructor.
  - lia.
  - vm_compute. discriminate.
Defined.

(** * The parser and the extractor *)

(** ** Walking the tree *)

Lemma traverse_from_unfold {S} (callback : Handle → Z → S → S)
    (n : SyntaxNode.t) (ancs : list SyntaxNode.t) (depth : Z) (s : S) :
  traverse_from callback n ancs depth s
  = foldl
      (λ s child, traverse_from callback child (n :: ancs) (depth + 1) s)
      (callback {| node := n; ancestors := ancs |} depth s)
      (SyntaxNode.children n).
Proof. by destruct n. Qed.

Lemma preorder_from_unfold (n : SyntaxNode.t) (ancs : list SyntaxNode.t)
    (depth : Z) :
  preorder_from n ancs depth
  = ({| node := n; ancestors := ancs |}, depth)
    :: flat_map (λ child, preorder_from child (n :: ancs) (depth + 1))
         (SyntaxNode.children n).
Proof. by destruct n. Qed.

Lemma traverse_from_preorder {S} (callback : Handle → Z → S → S)
    (n : SyntaxNode.t) :
  ∀ ancs depth s,
    traverse_from callback n ancs depth s
    = foldl (λ s visit, callback visit.1 visit.2 s) s
        (preorder_from n ancs depth).
Proof.
  induction n as [n IH] using syntax_node_ind. intros ancs depth s.
  rewrite traverse_from_unfold, preorder_from_unfold. simpl.
  generalize (callback {| node := n; ancestors := ancs |} depth s) as s0.
  induction IH as [|child l Hchild _ IHl]; intros s0; simpl; [done|].
  by rewrite foldl_app, Hchild, IHl.
Qed.

(** X13: [traverse_tree] calls the callback once for every node of the
    tree under the node it is given, in document order: a node before its
    children, the children from left to right, each with the depth it is
    given plus the distance from the start node. *)
Theorem traverse_tree_preorder {S} (h : Handle)
    (callback : Handle → Z → S → S) (depth : Z) (s : S) :
  traverse_tree h callback depth s
  = foldl (λ s visit, callback visit.1 visit.2 s) s (preorder h depth).
Proof. apply traverse_from_preorder. Qed.

Lemma collect_by_type (node_type : string) (visits : list (Handle * Z))
    (result : list Handle) :
  foldl
    (λ result visit,
       if String.eqb (SyntaxNode.type (node visit.1)) node_type
       then result ++ [visit.1] else result)
    result visits
  = result
    ++ List.filter
         (λ h, String.eqb (SyntaxNode.type (node h)) node_type) (visits.*1).
Proof.
  revert result. induction visits as [|[h d] visits IH]; intros result; csimpl.
  - by rewrite app_nil_r.
  - rewrite IH. destruct (String.eqb _ _); [|done]. by rewrite <- app_assoc.
Qed.

(** X14: [find_nodes_by_type] returns the nodes of the tree that have the
    given type, all of them, each once, in document order. *)
Theorem find_nodes_by_type_filter (root : Handle) (node_type : string) :
  find_nodes_by_type root node_type
  = List.filter (λ h, String.eqb (SyntaxNode.type (node h)) node_type)
      ((preorder root 0).*1).
Proof.
  unfold find_nodes_by_type, traverse_tree.
  rewrite traverse_from_preorder.
  apply (collect_by_type node_type (preorder root 0) []).
Qed.

Example find_function_definitions :
  (λ h, length (ancestors h)) <$> find_nodes_by_type example_tree "function_definition"
  = [5%nat; 1%nat].
Proof. vm_compute. reflexivity. Qed.

(** ** Exceptions *)

Section result_facts.
Context {A B : Type}.

Lemma raises_Ok (a : A) : ¬ raises (Ok a).
Proof. by intros [e He]. Qed.

Lemma raises_Raise (e : PyError) : raises (@Raise A e).
Proof. by exists e. Qed.

Lemma raises_fmap (g : A → B) (r : Result A) : raises (g <$> r) ↔ raises r.
Proof.
  destruct r as [a|e]; simpl.
  - split; intros [e He]; discriminate He.
  - split; intros _; by eexists.
Qed.

Lemma mapM_Ok (f : A → Result B) (l : list A) (bs : list B) :
  mapM f l = Ok bs ↔ Forall2 (λ a b, f a = Ok b) l bs.
Proof.
  revert bs. induction l as [|a l IH]; intros bs; simpl.
  - split.
    + intros [= <-]. constructor.
    + intros Hnil. by apply Forall2_nil_inv_l in Hnil as ->.
  - destruct (f a) as [b|e] eqn:Hfa; simpl.
    + destruct (mapM f l) as [bs'|e]; simpl.
      * split.
        -- intros [= <-]. constructor; [done|]. by apply IH.
        -- intros Hall.
           apply Forall2_cons_inv_l in Hall as (b' & bs'' & Hb & Hall & ->).
           apply IH in Hall. rewrite Hfa in Hb. by simplify_eq.
      * split; [done|]. intros Hall.
        apply Forall2_cons_inv_l in Hall as (b' & bs'' & Hb & Hall & ->).
        by apply IH in Hall.
    + split; [done|]. intros Hall.
      apply Forall2_cons_inv_l in Hall as (b' & bs'' & Hb & Hall & ->).
      congruence.
Qed.

Lemma mapM_raises (f : A → Result B) (l : list A) :
  raises (mapM f l) ↔ ∃ a, a ∈ l ∧ raises (f a).
Proof.
  induction l as [|a l IH]; simpl.
  - split; [intros [e He]; discriminate He|].
    by intros (a & ?%elem_of_nil & _).
  - destruct (f a) as [b|e] eqn:Hfa; simpl.
    + destruct (mapM f l) as [bs|e]; simpl.
      * split; [intros [e He]; discriminate He|].
        intros (a' & [->|Hin]%elem_of_cons & Hraise).
        -- rewrite Hfa in Hraise. destruct Hraise as [e He]. discriminate He.
        -- exfalso. assert (raises (Ok bs)) as Hbs by (apply IH; by exists a').
           destruct Hbs as [e He]. discriminate He.
      * split; [|intros _; by eexists].
        intros _.
        destruct (proj1 IH (ex_intro _ e eq_refl)) as (a' & Hin & Hraise).
        exists a'. split; [by apply list_elem_of_further|done].
    + split; [|intros _; by eexists].
      intros _. exists a. split; [apply list_elem_of_here|].
      rewrite Hfa. by eexists.
Qed.

(** A loop that has raised stays raised. *)
Lemma foldl_raised {S} (step : S → A → Result S) (e : PyError) (l : list A) :
  foldl (λ state a, s ← state; step s a) (Raise e) l = Raise e.
Proof. by induction l. Qed.

End result_facts.

(** A loop whose body appends at most one element collects what the body
    makes of each item, and raises with the first item that does. *)
Lemma foldl_collect {A B} (f : A → Result (option B))
    (body : A → list B → Result (list B)) (l : list A) (acc : list B) :
  (∀ a s, body a s = ob ← f a; Ok (s ++ option_list ob)) →
  foldl (λ state a, s ← state; body a s) (Ok acc) l
  = (λ obs, acc ++ omap id obs) <$> mapM f l.
Proof.
  intros Hbody. revert acc. induction l as [|a l IH]; intros acc; simpl.
  - by rewrite app_nil_r.
  - rewrite Hbody. destruct (f a) as [ob|e]; simpl.
    + rewrite IH. destruct (mapM f l) as [obs|e]; simpl; [|done].
      f_equal. rewrite <- app_assoc. by destruct ob.
    + apply (foldl_raised (λ s a, body a s)).
Qed.

(** What is collected stands, item by item, against the items that the
    body keeps. *)
Lemma collect_kept {A B} (f : A → Result (option B)) (keep : A → bool)
    (l : list A) (obs : list (option B)) :
  (∀ a ob, f a = Ok ob → (is_Some ob ↔ keep a = true)) →
  Forall2 (λ a ob, f a = Ok ob) l obs →
  Forall2 (λ b a, f a = Ok (Some b)) (omap id obs) (List.filter keep l).
Proof.
  intros Hkeep. induction 1 as [|a ob l obs Hfa _ IH]; simpl; [constructor|].
  specialize (Hkeep a ob Hfa). destruct ob as [b|]; simpl.
  - rewrite (proj1 Hkeep) by done. by constructor.
  - destruct (keep a); [|done].
    destruct (proj2 Hkeep eq_refl) as [b Hb]. discriminate Hb.
Qed.

(** ** Decoding *)

Lemma decode_utf8_Ok (b text : string) :
  decode_utf8 b = Ok text ↔ text = b ∧ utf8_valid b = true.
Proof.
  unfold decode_utf8. destruct (utf8_valid b); split.
  - by intros [= <-].
  - by intros [-> _].
  - done.
  - by intros [_ ?].
Qed.

Lemma decode_utf8_raises (b : string) :
  raises (decode_utf8 b) ↔ utf8_valid b = false.
Proof.
  unfold decode_utf8. destruct (utf8_valid b).
  - split; [by intros ?%raises_Ok|done].
  - split; [done|]. intros _. apply raises_Raise.
Qed.

(** The text of a node, when it has one, is the bytes of the node. *)
Lemma get_node_text_Ok (n : SyntaxNode.t) (source text : string) :
  get_node_text n source = Ok text
  ↔ text = node_bytes n source ∧ utf8_valid (node_bytes n source) = true.
Proof. apply decode_utf8_Ok. Qed.

(** [get_node_text] raises nothing but [UnicodeDecodeError]. *)
Lemma get_node_text_error (n : SyntaxNode.t) (source : string) (e : PyError) :
  get_node_text n source = Raise e → e = UnicodeDecodeError.
Proof.
  unfold get_node_text, decode_utf8.
  destruct (utf8_valid _); [done|]. by intros [= <-].
Qed.

Lemma utf8_valid_ascii (s : string) : ascii_only s → utf8_valid s = true.
Proof.
  induction s as [|b s IH]; [done|]. intros [Hb Hs]. simpl.
  rewrite Hb. by apply IH.
Qed.

Lemma substring_ascii (n m : nat) (s : string) :
  ascii_only s → ascii_only (String.substring n m s).
Proof.
  revert n m. induction s as [|b s IH]; intros n m Hs.
  - by destruct n, m.
  - destruct Hs as [Hb Hs]. destruct n as [|n].
    + destruct m as [|m]; [done|]. simpl. split; [done|]. by apply IH.
    + simpl. by apply IH.
Qed.

(** In a source that is ASCII every node has a text. *)
Lemma get_node_text_ascii (n : SyntaxNode.t) (source : string) :
  ascii_only source → get_node_text n source = Ok (node_bytes n source).
Proof.
  intros Hsource. apply get_node_text_Ok. split; [done|].
  by apply utf8_valid_ascii, substring_ascii.
Qed.

(** The header [café.h] in Latin-1 (the byte E9 for the [é]) is no UTF-8:
    the text of the path cannot be read.  In UTF-8 (the bytes C3 A9) it
    can. *)
Example get_node_text_latin1 :
  get_node_text (leaf "string_content" 0 10 16)
    ("#include " +:+ String "034"%char "caf"
     +:+ String (ascii_of_nat 233) ".h" +:+ String "034"%char "")
  = Raise UnicodeDecodeError
  ∧ get_node_text (leaf "string_content" 0 10 17)
      ("#include " +:+ String "034"%char "caf"
       +:+ String (ascii_of_nat 195) (String (ascii_of_nat 169) ".h")
       +:+ String "034"%char "")
    = Ok ("caf" +:+ String (ascii_of_nat 195) (String (ascii_of_nat 169) ".h")).
Proof. split; vm_compute; reflexivity. Qed.

(** ** Characters *)

Lemma characters_single (b : ascii) (tail : string) :
  continuation_bytes tail → characters (String b tail) = [String b tail].
Proof.
  revert b. induction tail as [|c tail IH]; intros b; [done|].
  intros [Hc Htail]. change (characters (String b (String c tail)))
    with (match characters (String c tail) with
          | [] => [String b EmptyString]
          | first :: others =>
              if starts_with_continuation first then String b first :: others
              else String b EmptyString :: first :: others
          end).
  rewrite (IH c Htail). simpl. by rewrite Hc.
Qed.

Lemma characters_groups (s : string) :
  Forall (λ g, ∃ b tail, g = String b tail ∧ continuation_bytes tail)
    (characters s).
Proof.
  induction s as [|b s IH]; simpl; [constructor|].
  destruct (characters s) as [|first others].
  - constructor; [|constructor]. by exists b, EmptyString.
  - apply Forall_cons in IH as [(c & tail & -> & Htail) Hothers].
    simpl. destruct (continuation_byte c) eqn:Hc.
    + constructor; [|done]. exists b, (String c tail). by repeat split.
    + constructor; [by exists b, EmptyString|].
      constructor; [|done]. by exists c, tail.
Qed.

(** A character of a string is one character. *)
Lemma characters_one (s g : string) :
  g ∈ characters s → characters g = [g].
Proof.
  intros Hg. pose proof (characters_groups s) as Hall.
  rewrite Forall_forall in Hall.
  destruct (Hall g Hg) as (b & tail & -> & Htail).
  by apply characters_single.
Qed.

(** ** The loop over the captures *)

Section for_captures_facts.
Context {S : Type} (name : string) (body : PyObj → S → Result S).

(** Of a list of (node, capture name) tuples the loop takes the node for
    the name: no item is the one looked for and the body never runs. *)
Lemma for_captures_node_name (pairs : list (Handle * string)) (initial : S) :
  for_captures (node_name_pairs pairs) name body initial = Ok initial.
Proof.
  unfold for_captures, node_name_pairs. simpl.
  induction pairs as [|[h label] pairs IH]; [done|]. exact IH.
Qed.

(** Of a dictionary the loop unpacks the keys: a key of two characters
    gives two strings of one character, any other key a [ValueError]. *)
Lemma for_captures_by_name (groups : list (string * list Handle)) (initial : S) :
  length (characters name) ≠ 1%nat →
  for_captures (captures_by_name groups) name body initial
  = if forallb two_characters (groups.*1) then Ok initial
    else Raise ValueError.
Proof.
  intros Hname. unfold for_captures, captures_by_name. simpl.
  induction groups as [|[key nodes] groups IH]; [done|]. csimpl.
  assert (unpack_pair (OStr key)
          = match characters key with
            | [first; second] => Ok (OStr first, OStr second)
            | _ => Raise ValueError
            end) as ->.
  { unfold unpack_pair. simpl.
    by destruct (characters key) as [|? [|? [|? ?]]]. }
  unfold two_characters at 1.
  destruct (characters key) as [|first [|second [|third rest]]] eqn:Hkey;
    simpl.
  1, 2, 4:
    apply (foldl_raised
             (λ s item,
                unpacked ← unpack_pair item;
                if py_eq_str unpacked.1 name then body unpacked.2 s
                else Ok s)).
  assert (String.eqb first name = false) as ->; [|exact IH].
  apply String.eqb_neq. intros ->. apply Hname.
  rewrite (characters_one key name); [done|].
  rewrite Hkey. apply list_elem_of_here.
Qed.

(** Of a list of (capture name, node) tuples the loop runs the body on the
    nodes with the name, in their order. *)
Lemma for_captures_name_node (pairs : list (string * Handle)) (initial : S) :
  for_captures (name_node_pairs pairs) name body initial
  = foldl (λ state c, s ← state; body (ONode c.2) s) (Ok initial)
      (List.filter (λ c, String.eqb c.1 name) pairs).
Proof.
  unfold for_captures, name_node_pairs. simpl.
  generalize (Ok initial) as state.
  induction pairs as [|[label h] pairs IH]; intros state; [done|]. csimpl.
  destruct (String.eqb label name); simpl.
  - by rewrite <- IH.
  - rewrite <- IH. f_equal. by destruct state.
Qed.

End for_captures_facts.

(** ** Scopes *)

Lemma scope_from_cons current rest source :
  scope_from (current :: rest) source
  = name ← scope_name current source;
    match name with
    | Some name => Ok (Some name)
    | None => scope_from rest source
    end.
Proof.
  unfold scope_name. simpl.
  destruct (String.eqb (SyntaxNode.type current) "namespace_definition");
    [done|].
  by case_bool_decide.
Qed.

Lemma scope_name_other current source :
  SyntaxNode.type current ∉ scope_types → scope_name current source = Ok None.
Proof.
  unfold scope_name, scope_types. intros Htype.
  destruct (String.eqb_spec (SyntaxNode.type current) "namespace_definition")
    as [Heq|_].
  { exfalso. apply Htype. rewrite Heq. apply list_elem_of_here. }
  rewrite bool_decide_eq_false_2; [done|].
  intros Hin. apply Htype. by apply list_elem_of_further.
Qed.

Lemma scope_from_skip between rest source :
  Forall (λ a, scope_name a source = Ok None) between →
  scope_from (between ++ rest) source = scope_from rest source.
Proof.
  induction 1 as [|a l Ha _ IH]; [done|].
  change ((a :: l) ++ rest) with (a :: (l ++ rest)).
  by rewrite scope_from_cons, Ha.
Qed.

(** X15: [_get_scope] gives the name of the nearest enclosing namespace,
    class or struct that has a name, and only that one, whatever encloses
    it further out; a namespace without a name (or a class without one) is
    looked through; a node enclosed by none has no scope.  It raises when
    the bytes of the name it has found are no UTF-8. *)
Theorem get_scope_nearest (h : Handle) (source : string) :
  (Forall (λ a, SyntaxNode.type a ∉ scope_types) (ancestors h) →
   _get_scope h source = Ok None)
  ∧ (∀ between scope outer name,
       ancestors h = between ++ scope :: outer →
       Forall (λ a, SyntaxNode.type a ∉ scope_types) between →
       scope_name scope source = Ok (Some name) →
       _get_scope h source = Ok (Some name))
  ∧ (∀ between scope outer,
       ancestors h = between ++ scope :: outer →
       Forall (λ a, SyntaxNode.type a ∉ scope_types) between →
       scope_name scope source = Ok None →
       _get_scope h source
       = _get_scope {| node := scope; ancestors := outer |} source)
  ∧ (∀ between scope outer e,
       ancestors h = between ++ scope :: outer →
       Forall (λ a, SyntaxNode.type a ∉ scope_types) between →
       scope_name scope source = Raise e →
       e = UnicodeDecodeError ∧ _get_scope h source = Raise e).
Proof.
  assert (∀ l, Forall (λ a, SyntaxNode.type a ∉ scope_types) l →
               Forall (λ a, scope_name a source = Ok None) l) as Hother.
  { intros l Hl. eapply Forall_impl; [exact Hl|]. intros a.
    apply scope_name_other. }
  unfold _get_scope. split; [|split; [|split]].
  - intros Hall%Hother.
    rewrite <- (app_nil_r (ancestors h)). by rewrite scope_from_skip.
  - intros between scope outer name -> Hbetween%Hother Hname.
    by rewrite scope_from_skip, scope_from_cons, Hname.
  - intros between scope outer -> Hbetween%Hother Hname. simpl.
    by rewrite scope_from_skip, scope_from_cons, Hname.
  - intros between scope outer e -> Hbetween%Hother Hname. split.
    + revert Hname. unfold scope_name, first_child_text.
      repeat (case_match; try done);
        destruct (get_node_text _ source) as [text|e'] eqn:Htext;
        simpl; intros [= <-]; by apply get_node_text_error in Htext.
    + by rewrite scope_from_skip, scope_from_cons, Hname.
Qed.

(** The class [Widget] is in the namespace [app], but the name of the
    namespace is a [namespace_identifier], which [_get_scope] does not
    look for: the namespace is looked through and the class has no
    scope. *)
Example get_scope_namespace :
  _get_scope example_class_handle example_source = Ok None.
Proof. vm_compute. reflexivity. Qed.

(** The method [draw] is in the class [Widget]; that the class is in the
    namespace [app] is not part of its scope. *)
Lemma get_scope_nearest_witness :
  head (find_nodes_by_type example_tree "function_definition")
  = Some example_draw_handle
  ∧ _get_scope example_draw_handle example_source = Ok (Some "Widget").
Proof.
  split; [vm_compute; reflexivity|].
  destruct (get_scope_nearest example_draw_handle example_source)
    as (_ & Hnearest & _).
  apply (Hnearest [branch "field_declaration_list" 0 0 [example_draw]]
           example_class
           [ branch "declaration_list" 0 0 [example_class];
             example_namespace; node example_tree ]).
  - reflexivity.
  - apply Forall_singleton. vm_compute. set_solver.
  - vm_compute. reflexivity.
Defined.

(** ** Include paths *)

Lemma append_nil_r (s : string) : s +:+ "" = s.
Proof. induction s as [|a s IH]; [done|]. by rewrite append_cons, IH. Qed.

Lemma append_assoc (s t u : string) : (s +:+ t) +:+ u = s +:+ (t +:+ u).
Proof.
  induction s as [|a s IH]; [done|]. by rewrite !append_cons, IH.
Qed.

Lemma rev_app_append (s t : string) :
  String.rev_app s t = String.rev_app s "" +:+ t.
Proof.
  revert t. induction s as [|a s IH]; intros t; [done|]. simpl.
  rewrite (IH (String a t)), (IH (String a "")), append_assoc. done.
Qed.

Lemma rev_cons (a : ascii) (s : string) :
  String.rev (String a s) = String.rev s +:+ String a "".
Proof. unfold String.rev. simpl. apply rev_app_append. Qed.

Lemma rev_append (s t : string) :
  String.rev (s +:+ t) = String.rev t +:+ String.rev s.
Proof.
  induction s as [|a s IH].
  - by rewrite append_nil_l, append_nil_r.
  - by rewrite append_cons, !rev_cons, IH, append_assoc.
Qed.

Lemma rev_involutive (s : string) : String.rev (String.rev s) = s.
Proof.
  induction s as [|a s IH]; [done|].
  by rewrite rev_cons, rev_append, IH.
Qed.

Lemma only_chars_rev chars s : only_chars chars s → only_chars chars (String.rev s).
Proof.
  assert (∀ s t, only_chars chars s → only_chars chars t →
                 only_chars chars (s +:+ t)) as Happ.
  { intros s' t. induction s' as [|a s' IH]; [done|].
    intros [Ha Hs'] Ht. rewrite append_cons. split; [done|]. by apply IH. }
  induction s as [|a s IH]; [done|]. intros [Ha Hs].
  rewrite rev_cons. apply Happ; [by apply IH|]. by split.
Qed.

Section strip_facts.
Context (chars : list ascii).

Lemma lstrip_only_chars left s :
  only_chars chars left →
  Strip.lstrip chars (left +:+ s) = Strip.lstrip chars s.
Proof.
  induction left as [|a left IH]; [done|]. intros [Ha Hleft].
  rewrite append_cons. simpl. rewrite bool_decide_eq_true_2 by done.
  by apply IH.
Qed.

Lemma lstrip_stable_append body s :
  body ≠ "" → Strip.lstrip chars body = body →
  Strip.lstrip chars (body +:+ s) = body +:+ s.
Proof.
  destruct body as [|c body]; [done|]. intros _. rewrite append_cons. simpl.
  case_bool_decide as Hc; [|done].
  intros Heq. exfalso.
  assert (∀ t, (String.length (Strip.lstrip chars t) ≤ String.length t)%nat)
    as Hlen.
  { intros t. induction t as [|a t IHt]; simpl; [lia|].
    case_bool_decide; simpl; lia. }
  specialize (Hlen body). rewrite Heq in Hlen. simpl in Hlen. lia.
Qed.

Lemma lstrip_idempotent s :
  Strip.lstrip chars (Strip.lstrip chars s) = Strip.lstrip chars s.
Proof.
  induction s as [|a s IH]; [done|]. simpl.
  case_bool_decide as Ha; [done|]. simpl. by rewrite bool_decide_eq_false_2.
Qed.

Lemma rstrip_idempotent s :
  Strip.rstrip chars (Strip.rstrip chars s) = Strip.rstrip chars s.
Proof.
  unfold Strip.rstrip. by rewrite rev_involutive, lstrip_idempotent.
Qed.

Lemma rstrip_only_chars right s :
  only_chars chars right →
  Strip.rstrip chars (s +:+ right) = Strip.rstrip chars s.
Proof.
  intros Hright. unfold Strip.rstrip.
  rewrite rev_append, lstrip_only_chars; [done|]. by apply only_chars_rev.
Qed.

Lemma rstrip_stable_append body s :
  body ≠ "" → Strip.rstrip chars body = body →
  Strip.rstrip chars (s +:+ body) = s +:+ body.
Proof.
  intros Hne Hbody. unfold Strip.rstrip in *.
  rewrite rev_append.
  assert (String.rev body ≠ "") as Hne'.
  { intros Heq. apply Hne. by rewrite <- (rev_involutive body), Heq. }
  rewrite lstrip_stable_append; [|done|].
  - by rewrite rev_append, !rev_involutive.
  - rewrite <- (rev_involutive (Strip.lstrip chars (String.rev body))).
    by rewrite Hbody.
Qed.

Lemma lstrip_nil_only_chars s :
  only_chars chars s → Strip.lstrip chars s = "".
Proof.
  induction s as [|a s IH]; [done|]. intros [Ha Hs]. simpl.
  rewrite bool_decide_eq_true_2 by done. by apply IH.
Qed.

(** A string that is already stripped on both sides comes back from
    between two runs of the stripped characters. *)
Lemma strip_between left body right :
  only_chars chars left → only_chars chars right →
  Strip.lstrip chars body = body → Strip.rstrip chars body = body →
  Strip.strip chars (left +:+ body +:+ right) = body.
Proof.
  intros Hleft Hright Hl Hr. unfold Strip.strip.
  rewrite lstrip_only_chars by done.
  destruct (decide (body = "")) as [->|Hne].
  - rewrite append_nil_l, lstrip_nil_only_chars by done. done.
  - rewrite lstrip_stable_append by done.
    by rewrite rstrip_only_chars.
Qed.

Lemma lstrip_rstrip_stable s :
  Strip.lstrip chars s = s →
  Strip.lstrip chars (Strip.rstrip chars s) = Strip.rstrip chars s.
Proof.
  destruct s as [|c s]; [done|]. simpl.
  case_bool_decide as Hc.
  { intros Heq. exfalso.
    assert (∀ t, (String.length (Strip.lstrip chars t) ≤ String.length t)%nat)
      as Hlen.
    { intros t. induction t as [|a t IHt]; simpl; [lia|].
      case_bool_decide; simpl; lia. }
    specialize (Hlen s). rewrite Heq in Hlen. simpl in Hlen. lia. }
  intros _.
  assert (∃ t, Strip.rstrip chars (String c s) = String c t) as [t ->].
  { unfold Strip.rstrip. rewrite rev_cons.
    assert (∀ z, ∃ z', Strip.lstrip chars (z +:+ String c "")
                       = z' +:+ String c "") as Hkeep.
    { intros z. induction z as [|a z [z' IH]].
      - exists "". rewrite append_nil_l. simpl.
        by rewrite bool_decide_eq_false_2.
      - rewrite append_cons. simpl. case_bool_decide; [by exists z'|].
        by exists (String a z). }
    destruct (Hkeep (String.rev s)) as [z' ->].
    exists (String.rev z'). by rewrite rev_append. }
  simpl. by rewrite bool_decide_eq_false_2.
Qed.

Lemma strip_stable s :
  Strip.lstrip chars (Strip.strip chars s) = Strip.strip chars s
  ∧ Strip.rstrip chars (Strip.strip chars s) = Strip.strip chars s.
Proof.
  unfold Strip.strip. split.
  - apply lstrip_rstrip_stable, lstrip_idempotent.
  - apply rstrip_idempotent.
Qed.

End strip_facts.

(** ** What the extracting functions make of the captures *)

(** A loop whose body appends one element collects what the body makes of
    each item, and raises with the first item that does. *)
Lemma foldl_append {A B} (f : A → Result B)
    (body : A → list B → Result (list B)) (l : list A) (acc : list B) :
  (∀ a s, body a s = b ← f a; Ok (s ++ [b])) →
  foldl (λ state a, s ← state; body a s) (Ok acc) l
  = (λ bs, acc ++ bs) <$> mapM f l.
Proof.
  intros Hbody. revert acc. induction l as [|a l IH]; intros acc; simpl.
  - by rewrite app_nil_r.
  - rewrite Hbody. destruct (f a) as [b|e]; simpl.
    + rewrite IH. destruct (mapM f l) as [bs|e]; simpl; [|done].
      by rewrite <- app_assoc.
    + apply (foldl_raised (λ s a, body a s)).
Qed.

(** A loop whose body adds one name to a set *)
Lemma foldl_union {A} (f : A → Result string)
    (body : A → gset string → Result (gset string)) (l : list A)
    (acc : gset string) :
  (∀ a s, body a s = name ← f a; Ok (s ∪ {[ name ]})) →
  foldl (λ state a, s ← state; body a s) (Ok acc) l
  = (λ names, acc ∪ list_to_set names) <$> mapM f l.
Proof.
  intros Hbody. revert acc. induction l as [|a l IH]; intros acc; simpl.
  - f_equal. set_solver.
  - rewrite Hbody. destruct (f a) as [b|e]; simpl.
    + rewrite IH. destruct (mapM f l) as [names|e]; simpl; [|done].
      f_equal. set_solver.
    + apply (foldl_raised (λ s a, body a s)).
Qed.

Lemma fmap_Ok {A B} (g : A → B) (r : Result A) (b : B) :
  g <$> r = Ok b ↔ ∃ a, r = Ok a ∧ b = g a.
Proof.
  destruct r as [a|e]; simpl.
  - split; [intros [= <-]; by exists a|]. by intros (a' & [= <-] & ->).
  - split; [done|]. by intros (a' & ? & _).
Qed.

(** The four cases of a function that loops over the captures of a query:
    the query raises; the captures are (node, capture name) tuples; they
    are a dictionary; they are (capture name, node) tuples. *)
Lemma extract_cases {S} (queries : gmap string (Handle → Result PyObj))
    (query_name label : string) (root : Handle)
    (body : PyObj → S → Result S) (initial : S) :
  length (characters label) ≠ 1%nat →
  let extracted :=
    captures ← execute_query queries query_name root;
    for_captures captures label body initial in
  (∀ e, execute_query queries query_name root = Raise e →
        extracted = Raise e)
  ∧ (∀ pairs,
       execute_query queries query_name root = Ok (node_name_pairs pairs) →
       extracted = Ok initial)
  ∧ (∀ groups,
       execute_query queries query_name root = Ok (captures_by_name groups) →
       extracted
       = if forallb two_characters (groups.*1) then Ok initial
         else Raise ValueError)
  ∧ (∀ pairs,
       execute_query queries query_name root = Ok (name_node_pairs pairs) →
       extracted
       = foldl (λ state c, s ← state; body (ONode c.2) s) (Ok initial)
           (List.filter (λ c, String.eqb c.1 label) pairs)).
Proof.
  intros Hlabel extracted. unfold extracted. split; [|split; [|split]].
  - by intros e ->.
  - intros pairs ->. apply for_captures_node_name.
  - intros groups ->. by apply for_captures_by_name.
  - intros pairs ->. apply for_captures_name_node.
Qed.

Lemma filter_filter_bool {A} (P Q : A → bool) (l : list A) :
  List.filter P (List.filter Q l) = List.filter (λ a, Q a && P a) l.
Proof.
  induction l as [|a l IH]; [done|]. simpl.
  destruct (Q a); simpl; [|done]. destruct (P a); [|done]. by rewrite IH.
Qed.

Lemma elem_of_filter_label (label : string) (pairs : list (string * Handle))
    (c : string * Handle) :
  c ∈ List.filter (λ c, String.eqb c.1 label) pairs
  ↔ c ∈ pairs ∧ c.1 = label.
Proof.
  rewrite !list_elem_of_In, List.filter_In.
  by rewrite String.eqb_eq.
Qed.

Lemma enclosing_spec (node_type : string) (ancs : list SyntaxNode.t) :
  match enclosing node_type ancs with
  | Some d =>
      ∃ between,
        ancs = between ++ node d :: ancestors d
        ∧ SyntaxNode.type (node d) = node_type
        ∧ Forall (λ a, SyntaxNode.type a ≠ node_type) between
  | None => Forall (λ a, SyntaxNode.type a ≠ node_type) ancs
  end.
Proof.
  induction ancs as [|parent rest IH]; simpl; [constructor|].
  destruct (String.eqb_spec (SyntaxNode.type parent) node_type) as [Heq|Hne].
  - exists []. simpl. split; [done|]. split; [done|]. constructor.
  - destruct (enclosing node_type rest) as [d|].
    + destruct IH as (between & -> & Htype & Hbetween).
      exists (parent :: between). split; [done|]. split; [done|].
      by constructor.
    + by constructor.
Qed.

Lemma enclosing_None (node_type : string) (ancs : list SyntaxNode.t) :
  enclosing node_type ancs = None
  ↔ existsb (λ a, String.eqb (SyntaxNode.type a) node_type) ancs = false.
Proof.
  induction ancs as [|parent rest IH]; simpl; [done|].
  destruct (String.eqb (SyntaxNode.type parent) node_type); simpl; [done|].
  exact IH.
Qed.

Section extract_facts.
Context (source : string).

Lemma parent_text_Ok (h : Handle) (text : string) :
  parent_text h source = Ok text
  ↔ ∃ parent, handle_parent h = Some parent
              ∧ get_node_text (node parent) source = Ok text.
Proof.
  unfold parent_text. destruct (handle_parent h) as [parent|].
  - split; [by exists parent|]. by intros (parent' & [= <-] & ?).
  - split; [done|]. by intros (parent' & ? & _).
Qed.

Lemma parent_text_raises (h : Handle) :
  raises (parent_text h source)
  ↔ handle_parent h = None
    ∨ ∃ parent, handle_parent h = Some parent
                ∧ raises (get_node_text (node parent) source).
Proof.
  unfold parent_text. destruct (handle_parent h) as [parent|].
  - split; [right; by exists parent|].
    by intros [?|(parent' & [= <-] & ?)].
  - split; [by left|]. intros _. by eexists.
Qed.

Lemma include_of_Ok (h : Handle) (inc : IncludeInfo.t) :
  include_of h source = Ok inc
  ↔ ∃ path_text text,
      get_node_text (node h) source = Ok path_text
      ∧ parent_text h source = Ok text
      ∧ inc = {| IncludeInfo.path := Strip.strip include_delimiters path_text;
                 IncludeInfo.line := line_of (node h);
                 IncludeInfo.is_system := Str.contains "<" text |}.
Proof.
  unfold include_of.
  destruct (get_node_text (node h) source) as [path_text|e]; simpl.
  - destruct (parent_text h source) as [text|e]; simpl.
    + split; [intros [= <-]; by exists path_text, text|].
      by intros (p & t & [= <-] & [= <-] & ->).
    + split; [done|]. by intros (p & t & _ & ? & _).
  - split; [done|]. by intros (p & t & ? & _).
Qed.

Lemma include_of_raises (h : Handle) :
  raises (include_of h source)
  ↔ raises (get_node_text (node h) source) ∨ raises (parent_text h source).
Proof.
  unfold include_of.
  destruct (get_node_text (node h) source) as [path_text|e]; simpl.
  - destruct (parent_text h source) as [text|e]; simpl.
    + split; [intros [e He]; discriminate He|].
      intros [[e He]|[e He]]; discriminate He.
    + split; [right|]; by eexists.
  - split; [left|]; by eexists.
Qed.

Lemma function_of_kept (h : Handle) (ob : option SymbolInfo.t) :
  function_of h source = Ok ob →
  is_Some ob
  ↔ existsb (λ a, String.eqb (SyntaxNode.type a) "function_definition")
      (ancestors h) = true.
Proof.
  unfold function_of. intros Hob.
  assert (is_Some ob
          ↔ is_Some (enclosing "function_definition" (ancestors h))) as ->.
  { destruct (get_node_text (node h) source); [|done]. simpl in Hob.
    destruct (enclosing "function_definition" (ancestors h)) as [d|].
    - destruct (_get_return_type d source); [|done].
      destruct (_get_function_params d source); [|done].
      destruct (_is_static_function d source); [|done].
      destruct (_get_scope d source); [|done].
      simpl in Hob. injection Hob as <-. by split.
    - injection Hob as <-. by split. }
  pose proof (enclosing_None "function_definition" (ancestors h)) as Hnone.
  destruct (enclosing "function_definition" (ancestors h)) as [d|].
  - split; [|done]. intros _.
    destruct (existsb _ (ancestors h)); [done|].
    discriminate (proj2 Hnone eq_refl).
  - rewrite (proj1 Hnone eq_refl). split; [by intros [? ?]|done].
Qed.

Lemma function_of_Some (h : Handle) (symbol : SymbolInfo.t) :
  function_of h source = Ok (Some symbol) →
  get_node_text (node h) source = Ok (SymbolInfo.name symbol)
  ∧ SymbolInfo.type symbol = "function"
  ∧ SymbolInfo.is_template symbol = false
  ∧ ∃ between func_def outer,
      ancestors h = between ++ func_def :: outer
      ∧ SyntaxNode.type func_def = "function_definition"
      ∧ Forall (λ a, SyntaxNode.type a ≠ "function_definition") between
      ∧ SymbolInfo.line symbol = (SyntaxNode.start_point func_def).1 + 1
      ∧ SymbolInfo.end_line symbol = (SyntaxNode.end_point func_def).1 + 1
      ∧ _get_scope {| node := func_def; ancestors := outer |} source
        = Ok (SymbolInfo.scope symbol)
      ∧ _get_return_type {| node := func_def; ancestors := outer |} source
        = Ok (SymbolInfo.return_type symbol)
      ∧ _get_function_params {| node := func_def; ancestors := outer |} source
        = Ok (SymbolInfo.params symbol)
      ∧ _is_static_function {| node := func_def; ancestors := outer |} source
        = Ok (SymbolInfo.is_static symbol)
      ∧ _is_virtual_function {| node := func_def; ancestors := outer |} source
        = SymbolInfo.is_virtual symbol.
Proof.
  unfold function_of.
  destruct (get_node_text (node h) source) as [func_name|]; [|done]. simpl.
  pose proof (enclosing_spec "function_definition" (ancestors h)) as Hspec.
  destruct (enclosing "function_definition" (ancestors h)) as [[d outer]|];
    [|done].
  destruct Hspec as (between & Hanc & Htype & Hbetween). simpl in *.
  destruct (_get_return_type _ source) as [return_type|] eqn:Hrt; [|done].
  destruct (_get_function_params _ source) as [params|] eqn:Hparams; [|done].
  destruct (_is_static_function _ source) as [is_static|] eqn:Hstatic;
    [|done].
  destruct (_get_scope _ source) as [scope|] eqn:Hscope; [|done].
  simpl. intros [= <-]. simpl.
  do 3 (split; [done|]). by exists between, d, outer.
Qed.

Lemma function_of_raises (h : Handle) :
  raises (function_of h source)
  ↔ raises (get_node_text (node h) source)
    ∨ ∃ func_def,
        enclosing "function_definition" (ancestors h) = Some func_def
        ∧ (raises (_get_return_type func_def source)
           ∨ raises (_get_function_params func_def source)
           ∨ raises (_is_static_function func_def source)
           ∨ raises (_get_scope func_def source)).
Proof.
  unfold function_of.
  destruct (get_node_text (node h) source) as [func_name|e]; simpl;
    [|split; [left|]; by eexists].
  destruct (enclosing "function_definition" (ancestors h)) as [d|].
  - destruct (_get_return_type d source) as [return_type|e] eqn:Hrt; simpl.
    2: { split; [|by eexists]. intros _. right. exists d.
         split; [done|]. left. rewrite Hrt. by eexists. }
    destruct (_get_function_params d source) as [params|e] eqn:Hparams; simpl.
    2: { split; [|by eexists]. intros _. right. exists d.
         split; [done|]. right; left. rewrite Hparams. by eexists. }
    destruct (_is_static_function d source) as [is_static|e] eqn:Hstatic;
      simpl.
    2: { split; [|by eexists]. intros _. right. exists d.
         split; [done|]. right; right; left. rewrite Hstatic. by eexists. }
    destruct (_get_scope d source) as [scope|e] eqn:Hscope; simpl.
    2: { split; [|by eexists]. intros _. right. exists d.
         split; [done|]. right; right; right. rewrite Hscope. by eexists. }
    split; [intros [e He]; discriminate He|].
    intros [[e He]|(d' & [= <-] & Hfail)]; [discriminate He|].
    rewrite Hrt, Hparams, Hstatic, Hscope in Hfail.
    destruct Hfail as [[e He]|[[e He]|[[e He]|[e He]]]]; discriminate He.
  - split; [intros [e He]; discriminate He|].
    intros [[e He]|(d' & Hd & _)]; discriminate.
Qed.

End extract_facts.

(** X16: [_extract_includes] passes on what the query raises.  Of captures
    that are a list of (node, capture name) tuples it returns no include,
    whatever the file includes; of captures that are a dictionary by
    capture name it raises [ValueError] unless every key has exactly two
    characters (the names [path] and [include] have not), and then returns
    no include.  Of a list of (capture name, node) tuples, the shape its
    loop is written for, it raises exactly when a capture labelled [path]
    has no parent or its bytes or those of its parent are no UTF-8;
    otherwise it returns one include per such capture, in their order, with
    the line of the path token counted from 1, marked as a system include
    exactly when the text of the parent contains [<].  The path is the text
    of the token without the quotes and angle brackets at its two ends: it
    neither starts nor ends with one, and a text that is a stripped body
    between two runs of these characters gives the body. *)
Theorem extract_includes_paths
    (queries : gmap string (Handle → Result PyObj))
    (root : Handle) (source : string) :
  (∀ e, execute_query queries "includes" root = Raise e →
        _extract_includes queries root source = Raise e)
  ∧ (∀ pairs,
       execute_query queries "includes" root = Ok (node_name_pairs pairs) →
       _extract_includes queries root source = Ok [])
  ∧ (∀ groups,
       execute_query queries "includes" root = Ok (captures_by_name groups) →
       _extract_includes queries root source
       = if forallb two_characters (groups.*1) then Ok []
         else Raise ValueError)
  ∧ (∀ pairs,
       execute_query queries "includes" root = Ok (name_node_pairs pairs) →
       let paths := List.filter (λ c, String.eqb c.1 "path") pairs in
       (raises (_extract_includes queries root source)
        ↔ ∃ c, c ∈ paths
               ∧ (raises (get_node_text (node c.2) source)
                  ∨ handle_parent c.2 = None
                  ∨ ∃ parent,
                      handle_parent c.2 = Some parent
                      ∧ raises (get_node_text (node parent) source)))
       ∧ ∀ includes,
           _extract_includes queries root source = Ok includes →
           Forall2
             (λ inc c,
                IncludeInfo.line inc = (SyntaxNode.start_point (node c.2)).1 + 1
                ∧ (∃ parent text,
                     handle_parent c.2 = Some parent
                     ∧ get_node_text (node parent) source = Ok text
                     ∧ (IncludeInfo.is_system inc = true ↔ occurs_in "<" text))
                ∧ Strip.lstrip include_delimiters (IncludeInfo.path inc)
                  = IncludeInfo.path inc
                ∧ Strip.rstrip include_delimiters (IncludeInfo.path inc)
                  = IncludeInfo.path inc
                ∧ ∀ left body right,
                    get_node_text (node c.2) source
                    = Ok (left +:+ body +:+ right) →
                    only_chars include_delimiters left →
                    only_chars include_delimiters right →
                    Strip.lstrip include_delimiters body = body →
                    Strip.rstrip include_delimiters body = body →
                    IncludeInfo.path inc = body)
             includes paths).
Proof.
  destruct (extract_cases queries "includes" "path" root
              (λ captured includes,
                 h ← as_node captured;
                 path_text ← get_node_text (node h) source;
                 let path_text :=
                   Strip.strip ["034"%char; "<"%char; ">"%char] path_text in
                 text ← parent_text h source;
                 let is_system := Str.contains "<" text in
                 Ok (includes
                     ++ [ {| IncludeInfo.path := path_text;
                             IncludeInfo.line := line_of (node h);
                             IncludeInfo.is_system := is_system |} ]))
              [])
    as (Hraise & Hnode & Hdict & Hname); [by vm_compute|].
  change (captures ← execute_query queries "includes" root; _)
    with (_extract_includes queries root source) in *.
  split; [exact Hraise|]. split; [exact Hnode|]. split; [exact Hdict|].
  intros pairs Hpairs paths. rewrite (Hname pairs Hpairs). fold paths.
  rewrite (foldl_append (λ c, include_of c.2 source)).
  2: { intros c s. unfold include_of. simpl.
       destruct (get_node_text (node c.2) source); simpl; [|done].
       by destruct (parent_text c.2 source). }
  split.
  - rewrite raises_fmap, mapM_raises.
    split; intros (c & Hc & Hfail); exists c; (split; [done|]).
    + apply include_of_raises in Hfail as [?|Hparent]; [by left|].
      right. by apply parent_text_raises.
    + apply include_of_raises. destruct Hfail as [?|Hparent]; [by left|].
      right. by apply parent_text_raises.
  - intros includes (bs & Hbs%mapM_Ok & ->)%fmap_Ok. simpl.
    apply Forall2_flip. eapply Forall2_impl; [exact Hbs|].
    intros c inc (path_text & text & Hpath & Htext & ->)%include_of_Ok.
    simpl. apply parent_text_Ok in Htext as (parent & Hparent & Htext).
    split; [done|]. split; [|split; [|split]].
    + exists parent, text. do 2 (split; [done|]). by rewrite contains_spec.
    + apply strip_stable.
    + apply strip_stable.
    + intros left body right Heq Hleft Hright Hl Hr.
      rewrite Hpath in Heq. injection Heq as ->. by apply strip_between.
Qed.

(** The two directives of the example: from the dictionary of the captures
    [_extract_includes] raises, from the (node, capture name) tuples it
    returns no include, and from (capture name, node) tuples both. *)
Lemma extract_includes_paths_witness :
  _extract_includes (example_engine "includes" example_includes_by_name)
    example_includes_tree example_includes_source
  = Raise ValueError
  ∧ _extract_includes (example_engine "includes" example_includes_node_first)
      example_includes_tree example_includes_source
    = Ok []
  ∧ _extract_includes (example_engine "includes" example_includes_name_first)
      example_includes_tree example_includes_source
    = Ok [ {| IncludeInfo.path := "util.h"; IncludeInfo.line := 1;
              IncludeInfo.is_system := false |};
           {| IncludeInfo.path := "vector"; IncludeInfo.line := 2;
              IncludeInfo.is_system := true |} ].
Proof.
  split; [|split].
  - destruct (extract_includes_paths
                (example_engine "includes" example_includes_by_name)
                example_includes_tree example_includes_source)
      as (_ & _ & Hdict & _).
    rewrite (Hdict [("include", example_directives); ("path", example_paths)]);
      [|reflexivity].
    vm_compute. reflexivity.
  - destruct (extract_includes_paths
                (example_engine "includes" example_includes_node_first)
                example_includes_tree example_includes_source)
      as (_ & Hnode & _).
    eapply Hnode. reflexivity.
  - vm_compute. reflexivity.
Defined.

(** ** Extracted symbols *)

(** X17: [_extract_functions] passes on what the query raises.  Of captures
    that are a list of (node, capture name) tuples it returns no function,
    whatever the file defines; of captures that are a dictionary by capture
    name it raises [ValueError] unless every key has exactly two characters
    (the names [func_name] and [function] have not), and then returns no
    function.  Of a list of (capture name, node) tuples, the shape its loop
    is written for, it raises exactly when the bytes of a captured name are
    no UTF-8, or reading the return type, the parameters, the storage class
    or the scope of the enclosing definition raises; otherwise it gives one
    symbol for every capture labelled [func_name] that has a
    [function_definition] among its ancestors, in the order of the captures,
    and skips the others.  The symbol is named by the text of the capture;
    its lines, scope, return type, parameters and modifiers are those of the
    nearest enclosing function definition; it is never marked as a
    template. *)
Theorem extract_functions_nearest_definition
    (queries : gmap string (Handle → Result PyObj))
    (root : Handle) (source : string) :
  (∀ e, execute_query queries "functions" root = Raise e →
        _extract_functions queries root source = Raise e)
  ∧ (∀ pairs,
       execute_query queries "functions" root = Ok (node_name_pairs pairs) →
       _extract_functions queries root source = Ok [])
  ∧ (∀ groups,
       execute_query queries "functions" root = Ok (captures_by_name groups) →
       _extract_functions queries root source
       = if forallb two_characters (groups.*1) then Ok []
         else Raise ValueError)
  ∧ (∀ pairs,
       execute_query queries "functions" root = Ok (name_node_pairs pairs) →
       let named := List.filter (λ c, String.eqb c.1 "func_name") pairs in
       let kept :=
         List.filter
           (λ c, String.eqb c.1 "func_name"
                 && existsb
                      (λ a, String.eqb (SyntaxNode.type a) "function_definition")
                      (ancestors c.2))
           pairs in
       (raises (_extract_functions queries root source)
        ↔ ∃ c, c ∈ named
               ∧ (raises (get_node_text (node c.2) source)
                  ∨ ∃ func_def,
                      enclosing "function_definition" (ancestors c.2)
                      = Some func_def
                      ∧ (raises (_get_return_type func_def source)
                         ∨ raises (_get_function_params func_def source)
                         ∨ raises (_is_static_function func_def source)
                         ∨ raises (_get_scope func_def source))))
       ∧ ∀ functions,
           _extract_functions queries root source = Ok functions →
           Forall2
             (λ symbol c,
                get_node_text (node c.2) source = Ok (SymbolInfo.name symbol)
                ∧ SymbolInfo.type symbol = "function"
                ∧ SymbolInfo.is_template symbol = false
                ∧ ∃ between func_def outer,
                    ancestors c.2 = between ++ func_def :: outer
                    ∧ SyntaxNode.type func_def = "function_definition"
                    ∧ Forall
                        (λ a, SyntaxNode.type a ≠ "function_definition")
                        between
                    ∧ SymbolInfo.line symbol
                      = (SyntaxNode.start_point func_def).1 + 1
                    ∧ SymbolInfo.end_line symbol
                      = (SyntaxNode.end_point func_def).1 + 1
                    ∧ _get_scope {| node := func_def; ancestors := outer |}
                        source
                      = Ok (SymbolInfo.scope symbol)
                    ∧ _get_return_type
                        {| node := func_def; ancestors := outer |} source
                      = Ok (SymbolInfo.return_type symbol)
                    ∧ _get_function_params
                        {| node := func_def; ancestors := outer |} source
                      = Ok (SymbolInfo.params symbol)
                    ∧ _is_static_function
                        {| node := func_def; ancestors := outer |} source
                      = Ok (SymbolInfo.is_static symbol)
                    ∧ _is_virtual_function
                        {| node := func_def; ancestors := outer |} source
                      = SymbolInfo.is_virtual symbol)
             functions kept).
Proof.
  destruct (extract_cases queries "functions" "func_name" root
              (λ captured functions,
                 h ← as_node captured;
                 func_name ← get_node_text (node h) source;
                 match enclosing "function_definition" (ancestors h) with
                 | None => Ok functions
                 | Some func_def =>
                     return_type ← _get_return_type func_def source;
                     params ← _get_function_params func_def source;
                     let is_virtual := _is_virtual_function func_def source in
                     is_static ← _is_static_function func_def source;
                     scope ← _get_scope func_def source;
                     Ok (functions
                         ++ [ {| SymbolInfo.name := func_name;
                                 SymbolInfo.type := "function";
                                 SymbolInfo.line := line_of (node func_def);
                                 SymbolInfo.end_line :=
                                   end_line_of (node func_def);
                                 SymbolInfo.scope := scope;
                                 SymbolInfo.params := params;
                                 SymbolInfo.return_type := return_type;
                                 SymbolInfo.is_template := false;
                                 SymbolInfo.is_virtual := is_virtual;
                                 SymbolInfo.is_static := is_static |} ])
                 end)
              [])
    as (Hraise & Hnode & Hdict & Hname); [by vm_compute|].
  change (captures ← execute_query queries "functions" root; _)
    with (_extract_functions queries root source) in *.
  split; [exact Hraise|]. split; [exact Hnode|]. split; [exact Hdict|].
  intros pairs Hpairs named kept. rewrite (Hname pairs Hpairs). fold named.
  rewrite (foldl_collect (λ c, function_of c.2 source)).
  2: { intros c s. unfold function_of. simpl.
       destruct (get_node_text (node c.2) source); simpl; [|done].
       destruct (enclosing "function_definition" (ancestors c.2)) as [d|];
         simpl; [|by rewrite app_nil_r].
       destruct (_get_return_type d source); simpl; [|done].
       destruct (_get_function_params d source); simpl; [|done].
       destruct (_is_static_function d source); simpl; [|done].
       by destruct (_get_scope d source). }
  split.
  - rewrite raises_fmap, mapM_raises.
    split; intros (c & Hc & Hfail); exists c; (split; [done|]);
      by apply function_of_raises.
  - intros functions (obs & Hobs%mapM_Ok & ->)%fmap_Ok. simpl.
    assert (kept
            = List.filter
                (λ c, existsb
                        (λ a, String.eqb (SyntaxNode.type a)
                                "function_definition")
                        (ancestors c.2))
                named) as ->.
    { unfold kept, named. by rewrite filter_filter_bool. }
    eapply Forall2_impl.
    + apply (collect_kept (λ c, function_of c.2 source)); [|exact Hobs].
      intros c ob. apply function_of_kept.
    + intros symbol c Hsymbol. simpl in Hsymbol.
      by apply function_of_Some in Hsymbol.
Qed.

(** The function [f] of the example: from the dictionary of the captures
    [_extract_functions] raises, from the (node, capture name) tuples it
    returns no function, and from (capture name, node) tuples [f]. *)
Lemma extract_functions_nearest_definition_witness :
  _extract_functions (example_engine "functions" example_functions_by_name)
    example_caller_tree example_caller_source
  = Raise ValueError
  ∧ _extract_functions (example_engine "functions" example_functions_node_first)
      example_caller_tree example_caller_source
    = Ok []
  ∧ _extract_functions
      (example_engine "functions" example_functions_name_first)
      example_caller_tree example_caller_source
    = Ok [ {| SymbolInfo.name := "f";
              SymbolInfo.type := "function";
              SymbolInfo.line := 1;
              SymbolInfo.end_line := 1;
              SymbolInfo.scope := None;
              SymbolInfo.params := [];
              SymbolInfo.return_type := Some "void";
              SymbolInfo.is_template := false;
              SymbolInfo.is_virtual := false;
              SymbolInfo.is_static := false |} ].
Proof.
  split; [|split].
  - destruct (extract_functions_nearest_definition
                (example_engine "functions" example_functions_by_name)
                example_caller_tree example_caller_source)
      as (_ & _ & Hdict & _).
    rewrite (Hdict [ ("function", [example_caller_handle]);
                     ("func_name", [example_caller_name]) ]);
      [|reflexivity].
    vm_compute. reflexivity.
  - destruct (extract_functions_nearest_definition
                (example_engine "functions" example_functions_node_first)
                example_caller_tree example_caller_source)
      as (_ & Hnode & _).
    eapply Hnode. reflexivity.
  - vm_compute. reflexivity.
Defined.

(** X18: [_extract_function_calls] passes on what the query raises.  Of
    captures that are a list of (node, capture name) tuples it returns the
    empty set, whatever the file calls; of captures that are a dictionary
    by capture name it raises [ValueError] unless every key has exactly two
    characters (the names [func_name] and [call] have not), and then
    returns the empty set.  Of a list of (capture name, node) tuples, the
    shape its loop is written for, it raises exactly when the bytes of a
    capture labelled [func_name] are no UTF-8, and otherwise returns the
    set of the texts of these captures: a name is in it exactly when one
    of them has it as its text; captures with another label add nothing
    and a name called twice is there once. *)
Theorem extract_function_calls_names
    (queries : gmap string (Handle → Result PyObj))
    (root : Handle) (source : string) :
  (∀ e, execute_query queries "call_expressions" root = Raise e →
        _extract_function_calls queries root source = Raise e)
  ∧ (∀ pairs,
       execute_query queries "call_expressions" root
       = Ok (node_name_pairs pairs) →
       _extract_function_calls queries root source = Ok ∅)
  ∧ (∀ groups,
       execute_query queries "call_expressions" root
       = Ok (captures_by_name groups) →
       _extract_function_calls queries root source
       = if forallb two_characters (groups.*1) then Ok ∅
         else Raise ValueError)
  ∧ (∀ pairs,
       execute_query queries "call_expressions" root
       = Ok (name_node_pairs pairs) →
       (raises (_extract_function_calls queries root source)
        ↔ ∃ h, ("func_name", h) ∈ pairs
               ∧ raises (get_node_text (node h) source))
       ∧ ∀ calls,
           _extract_function_calls queries root source = Ok calls →
           ∀ called,
             called ∈ calls
             ↔ ∃ h, ("func_name", h) ∈ pairs
                    ∧ get_node_text (node h) source = Ok called).
Proof.
  destruct (extract_cases queries "call_expressions" "func_name" root
              (λ captured (calls : gset string),
                 h ← as_node captured;
                 func_name ← get_node_text (node h) source;
                 Ok (calls ∪ {[ func_name ]}))
              ∅)
    as (Hraise & Hnode & Hdict & Hname); [by vm_compute|].
  change (captures ← execute_query queries "call_expressions" root; _)
    with (_extract_function_calls queries root source) in *.
  split; [exact Hraise|]. split; [exact Hnode|]. split; [exact Hdict|].
  intros pairs Hpairs. rewrite (Hname pairs Hpairs).
  rewrite (foldl_union (λ c, get_node_text (node c.2) source)).
  2: { intros c s. simpl. by destruct (get_node_text (node c.2) source). }
  split.
  - rewrite raises_fmap, mapM_raises. split.
    + intros ([label h] & [Hc Hlabel]%elem_of_filter_label & Hfail).
      simpl in *. subst label. by exists h.
    + intros (h & Hh & Hfail). exists ("func_name", h).
      split; [by apply elem_of_filter_label|done].
  - intros calls (names & Hnames%mapM_Ok & ->)%fmap_Ok called.
    rewrite elem_of_union, elem_of_list_to_set. split.
    + intros [Hin|Hin]; [by apply not_elem_of_empty in Hin|].
      apply list_elem_of_lookup in Hin as [i Hi].
      destruct (Forall2_lookup_r _ _ _ _ _ Hnames Hi)
        as ([label h] & Hc & Htext).
      apply list_elem_of_lookup_2, elem_of_filter_label in Hc as [Hc Hlabel].
      simpl in *. subst label. by exists h.
    + intros (h & Hh & Htext). right.
      assert (("func_name", h)
              ∈ List.filter (λ c, String.eqb c.1 "func_name") pairs) as Hc
        by by apply elem_of_filter_label.
      apply list_elem_of_lookup in Hc as [i Hi].
      destruct (Forall2_lookup_l _ _ _ _ _ Hnames Hi) as (name & Hname' & Hf).
      simpl in Hf. rewrite Htext in Hf. injection Hf as <-.
      by apply list_elem_of_lookup_2 in Hname'.
Qed.

(** The call of [g] in the example: from the dictionary of the captures
    [_extract_function_calls] raises, from the (node, capture name) tuples
    it returns no name, and from (capture name, node) tuples [g]. *)
Lemma extract_function_calls_names_witness :
  _extract_function_calls
    (example_engine "call_expressions" example_calls_by_name)
    example_caller_tree example_caller_source
  = Raise ValueError
  ∧ _extract_function_calls
      (example_engine "call_expressions" example_calls_node_first)
      example_caller_tree example_caller_source
    = Ok ∅
  ∧ _extract_function_calls
      (example_engine "call_expressions" example_calls_name_first)
      example_caller_tree example_caller_source
    = Ok {[ "g" ]}.
Proof.
  split; [|split].
  - destruct (extract_function_calls_names
                (example_engine "call_expressions" example_calls_by_name)
                example_caller_tree example_caller_source)
      as (_ & _ & Hdict & _).
    rewrite (Hdict [ ("call", [example_call_handle]);
                     ("func_name", [example_called_name]) ]);
      [|reflexivity].
    vm_compute. reflexivity.
  - destruct (extract_function_calls_names
                (example_engine "call_expressions" example_calls_node_first)
                example_caller_tree example_caller_source)
      as (_ & Hnode & _).
    eapply Hnode. reflexivity.
  - unfold _extract_function_calls, execute_query, example_engine.
    rewrite lookup_singleton_eq. simpl. f_equal; set_solver.
Defined.

(** * Calls and edges *)

Section calls_covered.
Context `{PathFlavour} (g : DependencyGraph).

Lemma call_step_grow source_file entry deps :
  ∃ new,
    call_step source_file (set_dependencies deps g) entry
    = set_dependencies (deps ++ new) g.
Proof.
  unfold call_step. case_bool_decide.
  { exists []. by rewrite app_nil_r. }
  destruct (_has_dependency _ _ _); simpl.
  { exists []. by rewrite app_nil_r. }
  by eexists [_].
Qed.

Lemma call_steps_grow source_file entries deps :
  ∃ new,
    foldl (call_step source_file) (set_dependencies deps g) entries
    = set_dependencies (deps ++ new) g.
Proof.
  revert deps. induction entries as [|entry entries IH]; intros deps; simpl.
  { exists []. by rewrite app_nil_r. }
  destruct (call_step_grow source_file entry deps) as [new1 ->].
  destruct (IH (deps ++ new1)) as [new2 ->].
  exists (new1 ++ new2). by rewrite <- app_assoc.
Qed.

Lemma calls_grow source_file called_funcs deps :
  ∃ new,
    foldl
      (λ g' called_func,
         match symbol_index g' !! called_func with
         | Some entries => foldl (call_step source_file) g' entries
         | None => g'
         end)
      (set_dependencies deps g) called_funcs
    = set_dependencies (deps ++ new) g.
Proof.
  revert deps.
  induction called_funcs as [|called_func l IH]; intros deps; simpl.
  { exists []. by rewrite app_nil_r. }
  destruct (symbol_index g !! called_func) as [entries|].
  - destruct (call_steps_grow source_file entries deps) as [new1 ->].
    destruct (IH (deps ++ new1)) as [new2 ->].
    exists (new1 ++ new2). by rewrite <- app_assoc.
  - apply IH.
Qed.

Lemma files_grow fs deps :
  ∃ new,
    foldl analyze_file (set_dependencies deps g) fs
    = set_dependencies (deps ++ new) g.
Proof.
  revert deps. induction fs as [|[source_file symbols] fs IH]; intros deps; simpl.
  { exists []. by rewrite app_nil_r. }
  unfold analyze_file at 2. simpl. rewrite analyze_includes_deps.
  destruct (calls_grow source_file (function_calls symbols)
              (deps ++ omap (include_edge g source_file) (includes symbols)))
    as [new1 Hnew1].
  unfold _analyze_function_calls. rewrite Hnew1.
  destruct (IH ((deps ++ omap (include_edge g source_file) (includes symbols))
                ++ new1)) as [new2 ->].
  eexists. by rewrite <- !app_assoc.
Qed.

Lemma has_dependency_true g' source target :
  _has_dependency g' source target = true → depends g' source target.
Proof.
  unfold _has_dependency. intros (d & Hd & Hpair)%existsb_exists.
  apply andb_true_iff in Hpair as [Hs%bool_decide_eq_true Ht%bool_decide_eq_true].
  exists d. split; [by apply list_elem_of_In|done].
Qed.

Lemma depends_grow deps new source target :
  depends (set_dependencies deps g) source target →
  depends (set_dependencies (deps ++ new) g) source target.
Proof.
  intros (d & Hd & Hpair). exists d. split; [|done]. simpl in *.
  apply elem_of_app. by left.
Qed.

Lemma call_covered source_file symbols called_func target_file symbol :
  (source_file, symbols) ∈ files g →
  called_func ∈ function_calls symbols →
  (target_file, symbol) ∈ symbol_entries g called_func →
  target_file ≠ source_file →
  depends (analyze_dependencies g) source_file target_file.
Proof.
  intros Hfile Hcall Hentry Hne. unfold analyze_dependencies.
  apply list_elem_of_split in Hfile as (fs1 & fs2 & ->).
  apply list_elem_of_split in Hcall as (cs1 & cs2 & Hcs).
  unfold symbol_entries in Hentry.
  destruct (symbol_index g !! called_func) as [entries|] eqn:Hentries;
    [|by apply elem_of_nil in Hentry].
  simpl in Hentry. apply list_elem_of_split in Hentry as (es1 & es2 & ->).
  rewrite foldl_app. simpl.
  destruct (files_grow fs1 []) as [deps1 ->]. simpl.
  unfold analyze_file at 2. simpl. rewrite analyze_includes_deps.
  unfold _analyze_function_calls. rewrite Hcs, foldl_app. simpl.
  match goal with
  | |- context [foldl ?f (set_dependencies ?d g) cs1] =>
      destruct (calls_grow source_file cs1 d) as [deps2 ->]
  end.
  simpl. rewrite Hentries, foldl_app. simpl.
  match goal with
  | |- context [foldl (call_step source_file) (set_dependencies ?d g) es1] =>
      destruct (call_steps_grow source_file es1 d) as [deps3 ->]
  end.
  match goal with
  | |- context [call_step source_file (set_dependencies ?d g) ?e] =>
      assert (∃ deps4,
                call_step source_file (set_dependencies d g) e
                = set_dependencies deps4 g
                ∧ depends (set_dependencies deps4 g) source_file target_file)
        as (deps4 & -> & Hdep)
  end.
  { unfold call_step. simpl. rewrite bool_decide_eq_false_2 by done.
    destruct (_has_dependency _ source_file target_file) eqn:Hhas; simpl.
    - eexists. split; [reflexivity|]. by apply has_dependency_true.
    - eexists. split; [reflexivity|].
      exists {| FileDependency.source := source_file;
                FileDependency.target := target_file;
                FileDependency.reason := "call";
                FileDependency.line := None |}.
      split; [|split; reflexivity]. simpl.
      apply elem_of_app. right. apply list_elem_of_here. }
  destruct (call_steps_grow source_file es2 deps4) as [deps5 ->].
  destruct (calls_grow source_file cs2 (deps4 ++ deps5)) as [deps6 ->].
  destruct (files_grow fs2 ((deps4 ++ deps5) ++ deps6)) as [deps7 ->].
  by do 3 apply depends_grow.
Qed.

End calls_covered.

Lemma entries_for_name file_path symbols symbol_name file_path' symbol :
  (file_path', symbol) ∈ entries_for file_path symbols symbol_name →
  SymbolInfo.name symbol = symbol_name.
Proof.
  unfold entries_for. intros (x & [= -> ->] & Hx)%list_elem_of_fmap.
  apply list_elem_of_In, filter_In in Hx as [_ Hx].
  by apply bool_decide_eq_true in Hx.
Qed.

(** X19: after a pass, whenever a file calls a name that the symbol index
    holds for another file, there is an edge from the calling file to that
    file: the Call edge, or an edge that was there before it. *)
Theorem called_file_has_edge `{PathFlavour} (g : DependencyGraph)
    (source_file : string) (symbols : FileSymbols)
    (called_func target_file : string) (symbol : SymbolInfo.t) :
  (source_file, symbols) ∈ files g →
  called_func ∈ function_calls symbols →
  (target_file, symbol) ∈ symbol_entries g called_func →
  target_file ≠ source_file →
  target_file ∈ get_dependencies_of (analyze_dependencies g) source_file.
Proof.
  intros Hfile Hcall Hentry Hne.
  destruct (call_covered g source_file symbols called_func target_file symbol)
    as (d & Hd & Hs & Ht); [done..|].
  unfold get_dependencies_of. apply list_elem_of_fmap. exists d.
  split; [done|]. apply list_elem_of_In, filter_In.
  split; [by apply list_elem_of_In|]. by apply bool_decide_eq_true.
Qed.

Lemma called_file_has_edge_witness :
  "src/util.h" ∈ get_dependencies_of (analyze_dependencies example_graph)
                   "src/main.cpp"
  ∧ "src/log.cpp" ∈ get_dependencies_of (analyze_dependencies example_graph)
                      "src/main.cpp".
Proof.
  split.
  - apply (called_file_has_edge example_graph "src/main.cpp" example_main
             "helper" "src/util.h" (function_symbol "helper" 3)).
    + vm_compute. set_solver.
    + vm_compute. set_solver.
    + unfold example_graph. rewrite !add_file_entries. vm_compute. set_solver.
    + discriminate.
  - apply (called_file_has_edge example_graph "src/main.cpp" example_main
             "log_msg" "src/log.cpp" (function_symbol "log_msg" 7)).
    + vm_compute. set_solver.
    + vm_compute. set_solver.
    + unfold example_graph. rewrite !add_file_entries. vm_compute. set_solver.
    + discriminate.
Defined.

(** X20: when the files were added under paths that are all different, a
    Call edge of a pass is never spurious: its source file calls a name
    that is the name of a function, class or struct of its target file,
    and the two files differ. *)
Theorem call_edge_has_definition `{PathFlavour}
    (parsed : list (string * option FileSymbols)) :
  NoDup ((parsed_ok parsed).*1) →
  let g := add_parsed_files parsed empty_graph in
  Forall
    (λ d,
       FileDependency.reason d = "call" →
       FileDependency.source d ≠ FileDependency.target d
       ∧ ∃ caller callee symbol,
           Dict.get (FileDependency.source d) (files g) = Some caller
           ∧ Dict.get (FileDependency.target d) (files g) = Some callee
           ∧ SymbolInfo.name symbol ∈ function_calls caller
           ∧ symbol ∈ indexed_symbols callee)
    (dependencies (analyze_dependencies g)).
Proof.
  intros Hnd g.
  destruct (add_parsed_files_fresh parsed empty_graph) as (Hf & _ & Hs); [done|].
  fold g in Hf, Hs. simpl in Hf.
  assert (NoDup (Dict.keys (files g))) as Hkeys by (by rewrite Hf).
  eapply Forall_impl; [apply (pass_edges_origin g)|].
  intros d [(caller & Hin & Horigin) Hguard] Hcall.
  split; [by apply Hguard|].
  destruct Horigin as [(Hr & _)|(_ & called_func & symbol & Hc & Hentry)];
    [congruence|].
  rewrite Hs in Hentry. simpl in Hentry.
  apply list_elem_of_bind in Hentry as ([p callee] & Hentry & Hitem).
  simpl in Hentry. pose proof (entries_for_name _ _ _ _ _ Hentry) as Hname.
  apply entries_for_elem in Hentry as [Hp Hsym]. simpl in Hp. subst p.
  exists caller, callee, symbol.
  split; [by apply dict_get_elem_NoDup|].
  split; [apply dict_get_elem_NoDup; [done|by rewrite Hf]|].
  split; [by rewrite Hname|done].
Qed.

Lemma call_edge_has_definition_witness :
  let g := add_parsed_files example_parsed empty_graph in
  Forall
    (λ d,
       FileDependency.reason d = "call" →
       FileDependency.source d ≠ FileDependency.target d
       ∧ ∃ caller callee symbol,
           Dict.get (FileDependency.source d) (files g) = Some caller
           ∧ Dict.get (FileDependency.target d) (files g) = Some callee
           ∧ SymbolInfo.name symbol ∈ function_calls caller
           ∧ symbol ∈ indexed_symbols callee)
    (dependencies (analyze_dependencies g)).
Proof.
  apply (call_edge_has_definition example_parsed).
  vm_compute. repeat (constructor; [set_solver|]). constructor.
Defined.
